(** * smart-api-common: schema walker and filter validation

    A shallow embedding of [src/helpers/utils/index.ts] and of the schema
    annotator [src/zod/extensions/index.ts], together with the properties
    of the traversals [getFilterable], [getSortable], [getQueryable],
    [getPath], of the validators [validateOperatorInput] and
    [validateOptions], and of the helpers [isPlainObject],
    [nestedToDotObject], [dotToNestedObject] and [setNestedKey].

    Conventions of the embedding.
    - A JavaScript object used as a string-keyed record is the list of its
      own enumerable entries, in the order [Object.entries] lists them
      (array-index names first, in ascending order, then the other names
      in creation order).  The special name [__proto__] is outside the
      model.
    - Zod schema nodes live in a heap; a node is identified by its address,
      as the [WeakSet] of the source identifies nodes by reference.  An
      address outside the heap stands for [undefined].
    - The getter of a [z.lazy] is called at each visit.  A getter that
      returns a schema built outside of it, as [() => B] does, returns the
      same object at each call: the address of [B].  A getter that builds
      its schema, as [() => z.object({...})] does, returns another object
      at each call: the walker of the module [Built] takes the nodes that
      getters build as a parameter, and the walker [getFilterable],
      [getPath] is the case where there is none.
    - Recursive functions take a [fuel] bound and answer [OutOfFuel] when
      it is exhausted; termination theorems show that enough fuel always
      exists, and a call that answers [OutOfFuel] whatever the fuel is one
      that does not come to an end.
    - A thrown JavaScript exception is the outcome [Throw]. *)

From stdpp Require Import base option list relations strings pretty.
From Stdlib Require Import NArith ZArith Lia.

Open Scope string_scope.

(** ** Outcomes of computations *)

(** What zod reports of a value that does not parse. *)
Inductive issue : Type :=
  | invalid_type (expected : string)
  | invalid_union
  | invalid_date
  | too_small
  | too_big
  | custom (message : string).

Inductive exn : Type :=
  | TypeError                      (* raised by the JavaScript runtime *)
  | Error (message : string)       (* [new Error(message)] *)
  | ZodError (issues : list issue) (* raised by [schema.parse] *)
  | Thrown.                        (* whatever a schema getter throws *)

Inductive outcome (A : Type) : Type :=
  | Return (a : A)
  | Throw (e : exn)
  | OutOfFuel.
Arguments Return {A} a.
Arguments Throw {A} e.
Arguments OutOfFuel {A}.

Definition bind {A B} (m : outcome A) (k : A → outcome B) : outcome B :=
  match m with
  | Return a => k a
  | Throw e => Throw e
  | OutOfFuel => OutOfFuel
  end.

Declare Scope js_scope.
Delimit Scope js_scope with js.
Notation "'let*' x ':=' m 'in' k" := (bind m (λ x, k))
  (at level 10, x pattern, m at level 100, k at level 200) : js_scope.
Open Scope js_scope.

(** [for (const x of xs) body], the loop state being the object that the
    body updates. *)
Fixpoint for_of {A B} (xs : list A) (acc : B) (body : B → A → outcome B)
  : outcome B :=
  match xs with
  | [] => Return acc
  | x :: xs' => let* acc' := body acc x in for_of xs' acc' body
  end.

Definition terminates {A} (m : outcome A) : Prop := m ≠ OutOfFuel.

(** ** JavaScript records *)

Module Js.

Definition digit (a : Ascii.ascii) : option N :=
  let n := Ascii.N_of_ascii a in
  if ((48 <=? n) && (n <=? 57))%N then Some (n - 48)%N else None.

Fixpoint digits (acc : N) (s : string) : option N :=
  match s with
  | EmptyString => Some acc
  | String a s' =>
      match digit a with
      | Some d => digits (10 * acc + d)%N s'
      | None => None
      end
  end.

(** A property name is an array index when it is the canonical decimal
    form of an integer below [2^32 - 1]. *)
Definition array_index (k : string) : option N :=
  match k with
  | EmptyString => None
  | String a rest =>
      if (Ascii.N_of_ascii a =? 48)%N
      then match rest with EmptyString => Some 0%N | _ => None end
      else match digits 0 k with
           | Some n => if (n <? 4294967295)%N then Some n else None
           | None => None
           end
  end.

(** [before k k']: a new property [k] is listed in front of the
    existing property [k']. *)
Definition before (k k' : string) : bool :=
  match array_index k, array_index k' with
  | Some n, Some n' => (n <? n')%N
  | Some _, None => true
  | None, _ => false
  end.

Section record.
Context {V : Type}.

(** [o[k] = v], on a record [o] whose entries are in the order of
    [Object.entries]: the value of an existing property is replaced where
    it is, a new array index goes to its place among the array indices,
    any other new name to the end. *)
Fixpoint set (k : string) (v : V) (o : list (string * V))
  : list (string * V) :=
  match o with
  | [] => [(k, v)]
  | (k', v') :: o' =>
      if String.eqb k k' then (k, v) :: o'
      else if before k k' then (k, v) :: (k', v') :: o'
      else (k', v') :: set k v o'
  end.

(** [o[k]], own properties only; [None] is [undefined] *)
Fixpoint get (k : string) (o : list (string * V)) : option V :=
  match o with
  | [] => None
  | (k', v') :: o' => if String.eqb k k' then Some v' else get k o'
  end.

(** [Object.prototype.hasOwnProperty.call(o, k)] *)
Definition has (k : string) (o : list (string * V)) : bool :=
  match get k o with Some _ => true | None => false end.

(** [Object.keys(o)] *)
Definition keys (o : list (string * V)) : list string := o.*1.

(** [Object.keys(o).length], as a truth value *)
Definition nonempty (o : list (string * V)) : bool :=
  match o with [] => false | _ => true end.
End record.

(** [segments.join('.')] *)
Fixpoint join (segments : list string) : string :=
  match segments with
  | [] => EmptyString
  | [s] => s
  | s :: rest => s +:+ "." +:+ join rest
  end.

(** [s.split('.').pop()]: what follows the last dot of [s] *)
Fixpoint last_segment_from (acc : string) (s : string) : string :=
  match s with
  | EmptyString => acc
  | String a s' =>
      if (Ascii.N_of_ascii a =? 46)%N then last_segment_from EmptyString s'
      else last_segment_from (acc +:+ String a EmptyString) s'
  end.
Definition last_segment (s : string) : string := last_segment_from EmptyString s.

(** [s.includes(c)] for a one-character [c] *)
Fixpoint includes (c : Ascii.ascii) (s : string) : bool :=
  match s with
  | EmptyString => false
  | String a s' => if Ascii.eqb a c then true else includes c s'
  end.

End Js.

(** ** Schema nodes (zod, with the annotations of [extendZodType]) *)

Abbreviation ref := nat.

(** The annotation set kept in [description]. *)
Record Description : Type := {
  filterable : option bool;
  sortable : option bool;
  queryable : option bool;
  path : option (list string)
}.

(** The getter of a [ZodLazy] is [Some r] when it returns the schema at
    the address [r] and [None] when it throws.  Whether the schema at [r]
    is built outside of the getter, so that every call returns the very
    same object, or by the getter, so that every call returns a new object
    with the content of [r], is told apart in the module [Built] below. *)
Inductive ZodDef : Type :=
  | ZodObject (shape : list (string * ref))
  | ZodArray (type : ref)
  | ZodLazy (getter : option ref)      (* [None]: the getter throws *)
  | ZodOther.                          (* string, number, enum, optional... *)

Record ZodType : Type := {
  def : ZodDef;
  description : option Description;
  extended : bool                      (* went through [extendZodType] *)
}.

Abbreviation heap := (list ZodType).

(** *** The annotator, [extendZodType] *)

Definition no_description : Description :=
  {| filterable := None; sortable := None; queryable := None; path := None |}.

(** [this.description || {}] *)
Definition description_or_empty (t : ZodType) : Description :=
  default no_description (description t).

(** [extendZodType(this.describe(d))]: a new node, the receiver is left
    as it was. *)
Definition describe (t : ZodType) (d : Description) : ZodType :=
  {| def := def t; description := Some d; extended := true |}.

(** The methods [filterable(value = true)], [sortable(value = true)],
    [queryable(value = true)] and [path(value = [])]: the description of
    the receiver, with the one key set. *)
Definition set_filterable (value : bool) (t : ZodType) : ZodType :=
  let d := description_or_empty t in
  describe t {| filterable := Some value; sortable := sortable d;
                queryable := queryable d; path := path d |}.

Definition set_sortable (value : bool) (t : ZodType) : ZodType :=
  let d := description_or_empty t in
  describe t {| filterable := filterable d; sortable := Some value;
                queryable := queryable d; path := path d |}.

Definition set_queryable (value : bool) (t : ZodType) : ZodType :=
  let d := description_or_empty t in
  describe t {| filterable := filterable d; sortable := sortable d;
                queryable := Some value; path := path d |}.

Definition set_path (value : list string) (t : ZodType) : ZodType :=
  let d := description_or_empty t in
  describe t {| filterable := filterable d; sortable := sortable d;
                queryable := queryable d; path := Some value |}.

(** [!!this.description?.[key]] *)
Definition flag (field : Description → option bool) (t : ZodType) : bool :=
  match description t with
  | Some d => default false (field d)
  | None => false
  end.

Definition isFilterable : ZodType → bool := flag filterable.
Definition isSortable : ZodType → bool := flag sortable.
Definition isQueryable : ZodType → bool := flag queryable.

(** [this.description?.path] *)
Definition description_path (t : ZodType) : option (list string) :=
  match description t with
  | Some d => path d
  | None => None
  end.

(** An array, even an empty one, is truthy. *)
Definition isPath (t : ZodType) : bool :=
  match description_path t with Some _ => true | None => false end.

(** Constructors of the extended [z]. *)
Definition z_leaf : ZodType :=
  {| def := ZodOther; description := None; extended := true |}.
Definition z_object (shape : list (string * ref)) : ZodType :=
  {| def := ZodObject shape; description := None; extended := true |}.
Definition z_array (type : ref) : ZodType :=
  {| def := ZodArray type; description := None; extended := true |}.
(** [z.lazy] is zod's own: the node carries no annotation method. *)
Definition z_lazy (getter : option ref) : ZodType :=
  {| def := ZodLazy getter; description := None; extended := false |}.
(** [.optional()] wraps the node: zod keeps the description, the methods
    of [extendZodType] are gone. *)
Definition optional (t : ZodType) : ZodType :=
  {| def := ZodOther; description := description t; extended := false |}.

(** ** Computations with a state

    [getFilterable] and [getPath] thread a [WeakSet] through their
    recursion, the validators write to the console.  The state is shared
    by all the calls, and an update made before an exception is still
    there when the exception is caught. *)

Definition M (S A : Type) : Type := S → outcome A * S.

Definition ret {S A} (a : A) : M S A := λ s, (Return a, s).

Definition lift {S A} (m : outcome A) : M S A := λ s, (m, s).

Definition bindM {S A B} (m : M S A) (k : A → M S B) : M S B :=
  λ s,
    match m s with
    | (Return a, s') => k a s'
    | (Throw e, s') => (Throw e, s')
    | (OutOfFuel, s') => (OutOfFuel, s')
    end.

Notation "'let!' x ':=' m 'in' k" := (bindM m (λ x, k))
  (at level 10, x pattern, m at level 100, k at level 200) : js_scope.

(** [try { body } catch (e) { handler }] *)
Definition try_catch {S A} (body : M S A) (handler : exn → M S A) : M S A :=
  λ s,
    match body s with
    | (Throw e, s') => handler e s'
    | r => r
    end.

Fixpoint for_ofM {S A B} (xs : list A) (acc : B) (body : B → A → M S B)
  : M S B :=
  match xs with
  | [] => ret acc
  | x :: xs' => let! acc' := body acc x in for_ofM xs' acc' body
  end.

(** A [for ... of] loop whose body may [return]: [Some r] leaves the
    function with [r], [None] goes on to the next element. *)
Fixpoint for_of_returning {S A R} (xs : list A) (body : A → M S (option R))
    (after : M S R) : M S R :=
  match xs with
  | [] => after
  | x :: xs' =>
      let! returned := body x in
      match returned with
      | Some r => ret r
      | None => for_of_returning xs' body after
      end
  end.

(** [Object.entries(o).forEach(callback)], the callback updating [acc] *)
Definition forEach {A B} (xs : list A) (acc : B) (callback : B → A → B) : B :=
  foldl callback acc xs.

(** The [WeakSet] is the list of the references added to it, latest
    first; membership is all that the source observes of it. *)
Abbreviation WeakSet := (list ref).

(** [visited.has(r)] *)
Definition WeakSet_has (r : ref) : M WeakSet bool :=
  λ visited, (Return (bool_decide (r ∈ visited)), visited).

(** ** Capability trees *)

(** A value of a capability tree: [true], or a nested tree. *)
#[warnings="-register-all"]
Inductive capability : Type :=
  | CTrue
  | CTree (fields : list (string * capability)).

(** ** The schema walker *)

Section walker.
Variable σ : heap.

(** [value instanceof z.ZodObject] *)
Definition instanceof_ZodObject (value : ref) : bool :=
  match σ !! value with
  | Some {| def := ZodObject _ |} => true
  | _ => false
  end.

(** [value instanceof z.ZodArray && value._def.type instanceof
    z.ZodObject], with the element type *)
Definition array_of_object (value : ref) : option ref :=
  match σ !! value with
  | Some {| def := ZodArray type |} =>
      if instanceof_ZodObject type then Some type else None
  | _ => None
  end.

(** [Object.entries(schema.shape)]: a [TypeError] when [schema] has no
    shape. *)
Definition shape_entries (schema : ref) : outcome (list (string * ref)) :=
  match σ !! schema with
  | Some {| def := ZodObject shape |} => Return shape
  | _ => Throw TypeError
  end.

(** ['isX' in value && typeof value.isX === 'function']: the [in]
    operator raises on [undefined]. *)
Definition has_methods (value : ref) : outcome bool :=
  match σ !! value with
  | Some v => Return (extended v)
  | None => Throw TypeError
  end.

Definition node_flag (test : ZodType → bool) (value : ref) : bool :=
  match σ !! value with Some v => test v | None => false end.

(** *** [setNestedKey] *)
Fixpoint setNestedKey (obj : list (string * capability)) (path : list string)
    (value : capability) : outcome (list (string * capability)) :=
  match path with
  | [] => Return (Js.set "undefined" value obj)
  | [key] => Return (Js.set key value obj)
  | key :: rest =>
      match Js.get key obj with
      | None =>
          let* inner := setNestedKey [] rest value in
          Return (Js.set key (CTree inner) obj)
      | Some (CTree current) =>
          let* inner := setNestedKey current rest value in
          Return (Js.set key (CTree inner) obj)
      | Some CTrue => Throw TypeError   (* property write on [true] *)
      end
  end.

(** [if (Object.keys(nested).length) target[key] = nested] *)
Definition keep_nested (key : string) (nested target : list (string * capability))
  : list (string * capability) :=
  if Js.nonempty nested then Js.set key (CTree nested) target else target.

(** *** [getSortable]

    The body of the loop over [Object.entries(schema.shape)] comes
    first, the recursive call being its first argument. *)
Definition getSortable_entry
    (getSortable : ref → outcome (list (string * capability)))
    (sortable : list (string * capability)) (entry : string * ref)
  : outcome (list (string * capability)) :=
  let '(key, value) := entry in
  if instanceof_ZodObject value then
    let* nested := getSortable value in
    Return (keep_nested key nested sortable)
  else
    let* methods := has_methods value in
    if methods && node_flag isSortable value
    then setNestedKey sortable [key] CTrue
    else Return sortable.

Fixpoint getSortable (fuel : nat) (schema : ref)
  : outcome (list (string * capability)) :=
  match fuel with
  | O => OutOfFuel
  | S fuel' =>
      let* shape := shape_entries schema in
      for_of shape [] (getSortable_entry (getSortable fuel'))
  end.

(** *** [getQueryable] *)
Definition getQueryable_entry
    (getQueryable : ref → outcome (list (string * capability)))
    (queryable : list (string * capability)) (entry : string * ref)
  : outcome (list (string * capability)) :=
  let '(key, value) := entry in
  if instanceof_ZodObject value then
    let* nested := getQueryable value in
    Return (keep_nested key nested queryable)
  else
    let* methods := has_methods value in
    if methods && node_flag isQueryable value then
      (* ['path' in value] holds with the other methods *)
      match σ !! value ≫= description_path with
      | Some path =>
          for_of path queryable (λ queryable p,
            setNestedKey queryable [p] CTrue)
      | None => setNestedKey queryable [key] CTrue
      end
    else Return queryable.

Fixpoint getQueryable (fuel : nat) (schema : ref)
  : outcome (list (string * capability)) :=
  match fuel with
  | O => OutOfFuel
  | S fuel' =>
      let* shape := shape_entries schema in
      for_of shape [] (getQueryable_entry (getQueryable fuel'))
  end.

(** [visited.add(r)]: only objects can be held weakly. *)
Definition WeakSet_add (r : ref) : M WeakSet () :=
  λ visited,
    match σ !! r with
    | Some _ => (Return (), r :: visited)
    | None => (Throw TypeError, visited)
    end.

(** [value._def.getter()]: the address of the schema that the getter
    returns.  Whether the calls return one and the same object or a new
    object each time bears on [visited.add] only: see [Built]. *)
Definition call (getter : option ref) : outcome ref :=
  match getter with
  | Some r => Return r
  | None => Throw Thrown
  end.

(** *** [getFilterable] *)

(** [if (!visited.has(target)) { const nested = getFilterable(target,
    visited); if (Object.keys(nested).length) filterable[key] = nested; }],
    which the source spells out for each kind of composite child. *)
Definition getFilterable_nested
    (getFilterable : ref → M WeakSet (list (string * capability)))
    (target : ref) (key : string) (filterable : list (string * capability))
  : M WeakSet (list (string * capability)) :=
  let! seen := WeakSet_has target in
  if seen then ret filterable
  else let! nested := getFilterable target in
       ret (keep_nested key nested filterable).

Definition getFilterable_entry
    (getFilterable : ref → M WeakSet (list (string * capability)))
    (filterable : list (string * capability)) (entry : string * ref)
  : M WeakSet (list (string * capability)) :=
  let '(key, value) := entry in
  match σ !! value with
  | None => ret filterable                              (* [!value] *)
  | Some v =>
      (* the [ZodLazy] block: [Some] stands for [continue] *)
      let! continued :=
        match def v with
        | ZodLazy getter =>
            try_catch
              (let! lazyValue := lift (call getter) in
               if instanceof_ZodObject lazyValue then
                 let! filterable' :=
                   getFilterable_nested getFilterable lazyValue key filterable in
                 ret (Some filterable')
               else
                 match array_of_object lazyValue with
                 | Some type =>
                     let! filterable' :=
                       getFilterable_nested getFilterable type key filterable in
                     ret (Some filterable')
                 | None => ret None
                 end)
              (λ _, ret (Some filterable))
        | _ => ret None
        end in
      match continued with
      | Some filterable' => ret filterable'
      | None =>
          if instanceof_ZodObject value then
            getFilterable_nested getFilterable value key filterable
          else
            match array_of_object value with
            | Some type =>
                getFilterable_nested getFilterable type key filterable
            | None =>
                if extended v && isFilterable v
                then lift (setNestedKey filterable [key] CTrue)
                else ret filterable
            end
      end
  end.

Fixpoint getFilterable (fuel : nat) (schema : ref)
  : M WeakSet (list (string * capability)) :=
  match fuel with
  | O => lift OutOfFuel
  | S fuel' =>
      let! seen := WeakSet_has schema in
      if seen then ret [] else
      let! _ := WeakSet_add schema in
      let! shape := lift (shape_entries schema) in
      for_ofM shape [] (getFilterable_entry (getFilterable fuel'))
  end.

(** *** [getPath] *)

(** [`${key}.${nestedKey.split('.').pop()}`] *)
Definition short_key (key nestedKey : string) : string :=
  key +:+ "." +:+ Js.last_segment nestedKey.

(** The four callbacks given to [Object.entries(nested).forEach]. *)
Definition merge_lazy_object (key : string) (paths : list (string * string))
    (entry : string * string) : list (string * string) :=
  let '(nestedKey, nestedPath) := entry in
  Js.set (short_key key nestedKey) nestedPath paths.

Definition merge_lazy_array (key : string) (paths : list (string * string))
    (entry : string * string) : list (string * string) :=
  let '(nestedKey, nestedPath) := entry in
  Js.set nestedPath nestedPath
    (Js.set (short_key key nestedKey) nestedPath paths).

Definition merge_object (key : string) (paths : list (string * string))
    (entry : string * string) : list (string * string) :=
  let '(nestedKey, nestedPath) := entry in
  Js.set (short_key key nestedKey) nestedPath
    (Js.set nestedKey nestedPath paths).

Definition merge_array (key : string) (paths : list (string * string))
    (entry : string * string) : list (string * string) :=
  let '(nestedKey, nestedPath) := entry in
  Js.set nestedPath nestedPath
    (Js.set (short_key key nestedKey) nestedPath
       (Js.set nestedKey nestedPath paths)).

(** [if (!visited.has(target)) { const nested = getPath(target,
    fullKeyPath, visited); Object.entries(nested).forEach(merge); }] *)
Definition getPath_nested
    (getPath : ref → list string → M WeakSet (list (string * string)))
    (target : ref) (fullKeyPath : list string)
    (merge : list (string * string) → string * string →
             list (string * string))
    (paths : list (string * string))
  : M WeakSet (list (string * string)) :=
  let! seen := WeakSet_has target in
  if seen then ret paths
  else let! nested := getPath target fullKeyPath in
       ret (forEach nested paths merge).

Definition getPath_entry
    (getPath : ref → list string → M WeakSet (list (string * string)))
    (parentKey : list string)
    (paths : list (string * string)) (entry : string * ref)
  : M WeakSet (list (string * string)) :=
  let '(key, value) := entry in
  let fullKeyPath := (parentKey ++ [key])%list in
  match σ !! value with
  | None => ret paths                                   (* [!v] *)
  | Some v =>
      let! continued :=
        match def v with
        | ZodLazy getter =>
            try_catch
              (let! lazyValue := lift (call getter) in
               if instanceof_ZodObject lazyValue then
                 let! paths' :=
                   getPath_nested getPath lazyValue fullKeyPath
                     (merge_lazy_object key) paths in
                 ret (Some paths')
               else
                 match array_of_object lazyValue with
                 | Some type =>
                     let! paths' :=
                       getPath_nested getPath type fullKeyPath
                         (merge_lazy_array key) paths in
                     ret (Some paths')
                 | None => ret None
                 end)
              (λ _, ret (Some paths))
        | _ => ret None
        end in
      match continued with
      | Some paths' => ret paths'
      | None =>
          if instanceof_ZodObject value then
            getPath_nested getPath value fullKeyPath (merge_object key) paths
          else
            match array_of_object value with
            | Some type =>
                getPath_nested getPath type fullKeyPath (merge_array key) paths
            | None =>
                if extended v && isPath v then
                  match description_path v with     (* [Array.isArray] *)
                  | Some pathValue =>
                      ret (Js.set (Js.join fullKeyPath)
                             (Js.join (parentKey ++ pathValue)%list) paths)
                  | None => ret paths
                  end
                else ret (Js.set key (Js.join fullKeyPath) paths)
            end
      end
  end.

Fixpoint getPath (fuel : nat) (schema : ref) (parentKey : list string)
  : M WeakSet (list (string * string)) :=
  match fuel with
  | O => lift OutOfFuel
  | S fuel' =>
      let! seen := WeakSet_has schema in
      if seen then ret [] else
      let! _ := WeakSet_add schema in
      let! shape := lift (shape_entries schema) in
      for_ofM shape [] (getPath_entry (getPath fuel') parentKey)
  end.

End walker.

(** ** Schemas that a getter builds

    [getFilterable] and [getPath] call the getter of a deferred node each
    time they come to it, and keep in [visited] the objects that the calls
    have returned.  A getter such as [() => B] returns the object that [B]
    names: [visited.add] records it and [visited.has] finds it again at the
    next call.  A getter such as [() => z.object({...})] builds its
    object: every call returns another object, with the same content,
    which no set holds yet and which nothing refers to any more once the
    round of the loop that called the getter is over.

    [built] lists the addresses of the nodes that getters build: the
    object that a getter returns and the objects built with it, inside of
    it.  Such a node stands for all the objects that the calls of the
    getter build: [visited.add] of one of these objects adds an object that
    no later [visited.has] asks for, and so leaves the set of the model as
    it is.  The loop bodies are those of the walker above, and so is the
    walker itself when [built] is empty. *)

Module Built.
Section walker.
Variable σ : heap.
Variable built : list ref.

(** [visited.add(r)] *)
Definition WeakSet_add (r : ref) : M WeakSet () :=
  λ visited,
    match σ !! r with
    | Some _ =>
        (Return (), if bool_decide (r ∈ built) then visited else r :: visited)
    | None => (Throw TypeError, visited)
    end.

Fixpoint getFilterable (fuel : nat) (schema : ref)
  : M WeakSet (list (string * capability)) :=
  match fuel with
  | O => lift OutOfFuel
  | S fuel' =>
      let! seen := WeakSet_has schema in
      if seen then ret [] else
      let! _ := WeakSet_add schema in
      let! shape := lift (shape_entries σ schema) in
      for_ofM shape [] (getFilterable_entry σ (getFilterable fuel'))
  end.

Fixpoint getPath (fuel : nat) (schema : ref) (parentKey : list string)
  : M WeakSet (list (string * string)) :=
  match fuel with
  | O => lift OutOfFuel
  | S fuel' =>
      let! seen := WeakSet_has schema in
      if seen then ret [] else
      let! _ := WeakSet_add schema in
      let! shape := lift (shape_entries σ schema) in
      for_ofM shape [] (getPath_entry σ (getPath fuel') parentKey)
  end.

End walker.
End Built.

(** ** Client values *)

(** A JavaScript number, as far as the validators tell numbers apart. *)
Inductive number : Type :=
  | NaN
  | Infinity (negative : bool)
  | Finite (mantissa exponent : Z).

Definition isNaN (x : number) : bool :=
  match x with NaN => true | _ => false end.

#[warnings="-register-all"]
Inductive jsval : Type :=
  | JUndefined
  | JNull
  | JBool (b : bool)
  | JNumber (x : number)
  | JString (s : string)
  | JDate (time : number)               (* [time] is [getTime()] *)
  | JArray (items : list jsval)
  | JObject (fields : list (string * jsval)).

(** [Object.keys(value)]: a [TypeError] on [null] and [undefined], the
    indices of a string or of an array (the caller looks at their number
    only), the names of an object. *)
Definition Object_keys (value : jsval) : outcome (list string) :=
  match value with
  | JUndefined | JNull => Throw TypeError
  | JString s => Return (pretty <$> seq 0 (String.length s))
  | JArray items => Return (pretty <$> seq 0 (length items))
  | JObject fields => Return (Js.keys fields)
  | JBool _ | JNumber _ | JDate _ => Return []
  end.

(** ** The zod schemas of the operator table *)

#[warnings="-register-all"]
Inductive validator : Type :=
  | v_string
  | v_number
  | v_boolean
  | v_null
  | v_date
  | v_any
  | v_union (options : list validator)
  | v_array (element : validator)
  | v_tuple (items : list validator)
  | v_refine (inner : validator) (check : jsval → bool) (message : string).

(** The issues that [schema.parse(value)] finds; none when the value
    conforms.  [z.number()] refuses [NaN], [z.date()] an invalid date, a
    tuple an array of another length, and a refinement runs once the
    refined schema has accepted the value. *)
Fixpoint issues_of (schema : validator) (value : jsval) : list issue :=
  match schema with
  | v_string =>
      match value with JString _ => [] | _ => [invalid_type "string"] end
  | v_number =>
      match value with
      | JNumber x => if isNaN x then [invalid_type "number"] else []
      | _ => [invalid_type "number"]
      end
  | v_boolean =>
      match value with JBool _ => [] | _ => [invalid_type "boolean"] end
  | v_null =>
      match value with JNull => [] | _ => [invalid_type "null"] end
  | v_date =>
      match value with
      | JDate time => if isNaN time then [invalid_date] else []
      | _ => [invalid_type "date"]
      end
  | v_any => []
  | v_union options =>
      if (fix any (options : list validator) : bool :=
            match options with
            | [] => false
            | option :: rest =>
                match issues_of option value with
                | [] => true
                | _ => any rest
                end
            end) options
      then [] else [invalid_union]
  | v_array element =>
      match value with
      | JArray items => mjoin (issues_of element <$> items)
      | _ => [invalid_type "array"]
      end
  | v_tuple schemas =>
      match value with
      | JArray items =>
          if (length items <? length schemas)%nat then [too_small]
          else
            ((if (length schemas <? length items)%nat then [too_big] else []) ++
             (fix each (schemas : list validator) (items : list jsval)
                : list issue :=
                match schemas, items with
                | schema :: schemas', item :: items' =>
                    issues_of schema item ++ each schemas' items'
                | _, _ => []
                end) schemas items)%list
      | _ => [invalid_type "array"]
      end
  | v_refine inner check message =>
      match issues_of inner value with
      | [] => if check value then [] else [custom message]
      | issues => issues
      end
  end.

(** [schema.parse(value)] *)
Definition parse (schema : validator) (value : jsval) : outcome jsval :=
  match issues_of schema value with
  | [] => Return value
  | issues => Throw (ZodError issues)
  end.

(** A property read on an object literal: its own value, a member of
    [Object.prototype] reached through the prototype chain, or
    [undefined]. *)
Inductive property (A : Type) : Type :=
  | Own (a : A)
  | Inherited
  | Undefined.
Arguments Own {A} a.
Arguments Inherited {A}.
Arguments Undefined {A}.

Definition Object_prototype : list string :=
  [ "constructor"; "hasOwnProperty"; "isPrototypeOf"; "propertyIsEnumerable";
    "toLocaleString"; "toString"; "valueOf"; "__proto__";
    "__defineGetter__"; "__defineSetter__"; "__lookupGetter__";
    "__lookupSetter__" ].

Definition read {A} (o : list (string * A)) (k : string) : property A :=
  match Js.get k o with
  | Some a => Own a
  | None => if bool_decide (k ∈ Object_prototype) then Inherited else Undefined
  end.

(** Zod schemas and the members of [Object.prototype] are all truthy. *)
Definition truthy {A} (p : property A) : bool :=
  match p with Undefined => false | _ => true end.

Definition percent : Ascii.ascii := Ascii.ascii_of_N 37.

(** [(val) => !val.includes('%')] *)
Definition no_percent (val : jsval) : bool :=
  match val with
  | JString s => negb (Js.includes percent s)
  | _ => true
  end.

Definition like_message : string := "Value must not contain '%' character".

Definition sequelizeOperatorValidators : list (string * validator) :=
  [ ("eq", v_union [v_string; v_number; v_boolean; v_null; v_date]);
    ("ne", v_union [v_string; v_number; v_boolean; v_null; v_date]);
    ("gt", v_union [v_number; v_date; v_string]);
    ("gte", v_union [v_number; v_date; v_string]);
    ("lt", v_union [v_number; v_date; v_string]);
    ("lte", v_union [v_number; v_date; v_string]);
    ("in", v_array v_any);
    ("notIn", v_array v_any);
    ("like", v_refine v_string no_percent like_message);
    ("notLike", v_refine v_string no_percent like_message);
    ("iLike", v_refine v_string no_percent like_message);
    ("notILike", v_refine v_string no_percent like_message);
    ("between", v_tuple [v_any; v_any]);
    ("notBetween", v_tuple [v_any; v_any]);
    ("is", v_union [v_null; v_boolean]);
    ("not", v_union [v_string; v_number; v_boolean; v_null]);
    ("or", v_array v_any);
    ("and", v_array v_any);
    ("startsWith", v_string);
    ("endsWith", v_string);
    ("substring", v_string) ].

(** ** The validators *)

(** The second component of a result tuple: [string | z.ZodError]. *)
Inductive err : Type :=
  | ErrString (message : string)
  | ErrObject (e : exn).

(** A two-element result tuple: [[true, null]] is [(Some true, None)] and
    [[null, err]] is [(None, Some err)]. *)
Definition tuple : Type := option bool * option err.

Section validation.
(** The message that zod's error map gives to an issue of its own. *)
Variable errorMap : issue → string.

Definition issue_message (i : issue) : string :=
  match i with
  | custom message => message
  | _ => errorMap i
  end.

Definition console := list string.

(** [console.error(line)] *)
Definition console_error (line : string) : M console () :=
  λ lines, (Return (), lines ++ [line])%list.

(** [messages.join(', ')] *)
Fixpoint join_comma (messages : list string) : string :=
  match messages with
  | [] => EmptyString
  | [m] => m
  | m :: rest => m +:+ ", " +:+ join_comma rest
  end.

(** [schema.parse(value)] on what the table gave: a member of
    [Object.prototype] has no [parse] method. *)
Definition call_parse (schema : property validator) (value : jsval)
  : outcome jsval :=
  match schema with
  | Own schema => parse schema value
  | _ => Throw TypeError
  end.

(** [err.errors], a property that only a [ZodError] has *)
Definition errors (e : exn) : option (list issue) :=
  match e with
  | ZodError issues => Some issues
  | _ => None
  end.

Definition validateOperatorInput (operator : string) (value : jsval)
  : M console tuple :=
  let schema := read sequelizeOperatorValidators operator in
  if negb (truthy schema)
  then lift (Throw (Error ("Unsupported operator: " +:+ operator)))
  else
    try_catch
      (let! _ := lift (call_parse schema value) in
       ret (Some true, None))
      (λ e,
         match errors e with
         | Some issues =>
             let! _ := console_error (join_comma (issue_message <$> issues)) in
             ret (None, Some (ErrObject e))
         | None => lift (Throw TypeError)   (* [undefined.map] *)
         end).

(** [nestedToDotObject] *)
Definition nestedToDotObject (obj : list (string * jsval))
  : list (string * jsval) :=
  forEach obj [] (fun result '(key, value) =>
    match value with
    | JObject nested =>
        forEach nested result (fun result '(nestedKey, nestedValue) =>
          Js.set (key +:+ "." +:+ nestedKey) nestedValue result)
    | JDate _ => result               (* an object without own keys *)
    | _ => Js.set key value result
    end).

(** [o.hasOwnProperty(k)]: the method is [Object.prototype]'s unless
    [o] has a property of that name, which then is no function. *)
Definition hasOwnProperty (o : list (string * jsval)) (k : string)
  : outcome bool :=
  if Js.has "hasOwnProperty" o then Throw TypeError else Return (Js.has k o).

Definition invalid_key (key : string) : tuple :=
  (None, Some (ErrString ("Invalid key: " +:+ key))).

(** The body of the loop of [validateOptions]: [Some r] is [return r]. *)
Definition validateOptions_entry (nestedFilterMap : list (string * jsval))
    (entry : string * jsval) : M console (option tuple) :=
  let '(key, value) := entry in
  let! known := lift (hasOwnProperty nestedFilterMap key) in
  if negb known && negb (truthy (read sequelizeOperatorValidators key))
  then ret (Some (invalid_key key))
  else if truthy (read sequelizeOperatorValidators key) then
    let! (_, err) := validateOperatorInput key value in
    match err with
    | Some e => ret (Some (None, Some e))
    | None => ret None
    end
  else
    let! names := lift (Object_keys value) in
    if (0 <? length names)%nat then
      (* the [return] sits in the callback of [forEach], which drops
         what its callback returns *)
      let _ := (λ k, if negb (truthy (read sequelizeOperatorValidators k))
                     then Some (invalid_key k) else None) <$> names in
      ret None
    else
      let! known := lift (hasOwnProperty nestedFilterMap key) in
      if negb known then ret (Some (invalid_key key)) else ret None.

Definition validateOptions (clientFilter filterMap : list (string * jsval))
  : M console tuple :=
  let nestedFilterMap := nestedToDotObject filterMap in
  for_of_returning clientFilter (validateOptions_entry nestedFilterMap)
    (ret (Some true, None)).

End validation.

(** ** The operator vocabulary, as the specification tabulates it *)

Inductive operator : Type :=
  | op_eq | op_ne
  | op_gt | op_gte | op_lt | op_lte
  | op_in | op_notIn
  | op_like | op_notLike | op_iLike | op_notILike
  | op_between | op_notBetween
  | op_is
  | op_not
  | op_or | op_and
  | op_startsWith | op_endsWith | op_substring.

Definition operator_name (op : operator) : string :=
  match op with
  | op_eq => "eq" | op_ne => "ne"
  | op_gt => "gt" | op_gte => "gte" | op_lt => "lt" | op_lte => "lte"
  | op_in => "in" | op_notIn => "notIn"
  | op_like => "like" | op_notLike => "notLike"
  | op_iLike => "iLike" | op_notILike => "notILike"
  | op_between => "between" | op_notBetween => "notBetween"
  | op_is => "is"
  | op_not => "not"
  | op_or => "or" | op_and => "and"
  | op_startsWith => "startsWith" | op_endsWith => "endsWith"
  | op_substring => "substring"
  end.

Definition vocabulary : list operator :=
  [ op_eq; op_ne; op_gt; op_gte; op_lt; op_lte; op_in; op_notIn; op_like;
    op_notLike; op_iLike; op_notILike; op_between; op_notBetween; op_is;
    op_not; op_or; op_and; op_startsWith; op_endsWith; op_substring ].

(** The operator that a name denotes, if any. *)
Definition operator_of_name (name : string) : option operator :=
  find (λ op, String.eqb (operator_name op) name) vocabulary.

(** The shapes of the table.  A number is a numeric value, which [NaN]
    ("not a number") is not; a date is one that denotes an instant. *)
Definition is_string (v : jsval) : bool :=
  match v with JString _ => true | _ => false end.
Definition is_number (v : jsval) : bool :=
  match v with JNumber x => negb (isNaN x) | _ => false end.
Definition is_boolean (v : jsval) : bool :=
  match v with JBool _ => true | _ => false end.
Definition is_null (v : jsval) : bool :=
  match v with JNull => true | _ => false end.
Definition is_date (v : jsval) : bool :=
  match v with JDate time => negb (isNaN time) | _ => false end.
Definition is_array (v : jsval) : bool :=
  match v with JArray _ => true | _ => false end.
Definition is_pair (v : jsval) : bool :=
  match v with JArray [_; _] => true | _ => false end.
Definition is_string_without_wildcard (v : jsval) : bool :=
  match v with JString s => negb (Js.includes percent s) | _ => false end.

Definition like_operator (op : operator) : bool :=
  match op with
  | op_like | op_notLike | op_iLike | op_notILike => true
  | _ => false
  end.

Definition shape_contract (op : operator) (v : jsval) : bool :=
  match op with
  | op_eq | op_ne =>
      is_string v || is_number v || is_boolean v || is_null v || is_date v
  | op_gt | op_gte | op_lt | op_lte => is_number v || is_date v || is_string v
  | op_in | op_notIn => is_array v
  | op_like | op_notLike | op_iLike | op_notILike =>
      is_string_without_wildcard v
  | op_between | op_notBetween => is_pair v
  | op_is => is_null v || is_boolean v
  | op_not => is_string v || is_number v || is_boolean v || is_null v
  | op_or | op_and => is_array v
  | op_startsWith | op_endsWith | op_substring => is_string v
  end.

(** ** Notions used to state the properties of the walker *)

(** A value of a capability tree is well pruned when it is [true] or a
    tree that is not empty and whose values are well pruned. *)
Fixpoint pruned_value (c : capability) : bool :=
  match c with
  | CTrue => true
  | CTree fields =>
      Js.nonempty fields &&
      (fix all (fields : list (string * capability)) : bool :=
         match fields with
         | [] => true
         | (_, c') :: fields' => pruned_value c' && all fields'
         end) fields
  end.

Definition pruned (tree : list (string * capability)) : bool :=
  forallb (λ entry, pruned_value entry.2) tree.

(** A call that returns a result satisfying [P], adding to the visited set
    without adding a reference twice. *)
Definition walk_post {A} (P : A → Prop) (visited : WeakSet)
    (r : outcome A * WeakSet) : Prop :=
  ∃ a visited',
    r = (Return a, visited') ∧ visited ⊆ visited' ∧
    (NoDup visited → NoDup visited') ∧ P a.

Definition filterable_post : WeakSet →
    outcome (list (string * capability)) * WeakSet → Prop :=
  walk_post (λ tree, pruned tree = true).

(** What [getPath] records for a child that is no composite. *)
Definition leaf_path (parentKey : list string) (key : string) (v : ZodType)
    (paths : list (string * string)) : list (string * string) :=
  if extended v && isPath v then
    match description_path v with
    | Some pathValue =>
        Js.set (Js.join (parentKey ++ [key])) (Js.join (parentKey ++ pathValue))
          paths
    | None => paths
    end
  else Js.set key (Js.join (parentKey ++ [key])) paths.

Section walker_notions.
Variable σ : heap.

(** The nodes of the heap that are not in the visited set. *)
Definition unvisited (visited : WeakSet) : list ref :=
  filter (λ r, r ∉ visited) (seq 0 (length σ)).

(** The object that a composite schema stands for: itself, or the type
    of its elements when it is an array of objects. *)
Definition composite (value : ref) : option ref :=
  if instanceof_ZodObject σ value then Some value else array_of_object σ value.

(** A [ZodLazy] whose getter throws. *)
Definition throwing (value : ref) : bool :=
  match σ !! value with
  | Some {| def := ZodLazy None |} => true
  | _ => false
  end.

(** A deferred node. *)
Definition deferred (value : ref) : bool :=
  match σ !! value with
  | Some {| def := ZodLazy _ |} => true
  | _ => false
  end.

(** [getSortable] and [getQueryable], called on [parent], call themselves
    on [child]: a child of the shape that is an object. *)
Definition calls (parent child : ref) : Prop :=
  ∃ shape key,
    shape_entries σ parent = Return shape ∧ (key, child) ∈ shape ∧
    instanceof_ZodObject σ child = true.

(** The object that [getFilterable] and [getPath] descend into for the
    child [value]: a deferred node stands for what its getter returns. *)
Definition composite_child (value : ref) : option ref :=
  match σ !! value with
  | Some {| def := ZodLazy getter |} => getter ≫= composite
  | Some _ => composite value
  | None => None
  end.

(** The callback with which [getPath] merges the paths of such a child. *)
Definition merge_of (value : ref) (key : string)
  : list (string * string) → string * string → list (string * string) :=
  match σ !! value with
  | Some {| def := ZodLazy (Some lazyValue) |} =>
      if instanceof_ZodObject σ lazyValue
      then merge_lazy_object key else merge_lazy_array key
  | _ =>
      if instanceof_ZodObject σ value then merge_object key else merge_array key
  end.

(** Objects are allocated after the children of their shape and arrays
    after their element type; only the getter of a [ZodLazy], called
    later, can refer to a node allocated after it.  In such a heap every
    cycle goes through a deferred node. *)
Definition allocated_before (parent : ref) (t : ZodType) : bool :=
  match def t with
  | ZodObject shape => forallb (λ entry, entry.2 <? parent)%nat shape
  | ZodArray type => (type <? parent)%nat
  | _ => true
  end.

Definition cycles_are_deferred : bool :=
  forallb (λ entry, allocated_before entry.1 entry.2) (imap pair σ).

(** From an object that a getter builds to an object that a getter
    builds: the second is the object of a child of the first (the child
    itself, the elements of an array, what a deferred node resolves to).  A
    cycle of this relation is a cycle of the schema that is made of
    objects that getters build and of nothing else. *)
Definition built_child (built : list ref) (parent child : ref) : Prop :=
  parent ∈ built ∧ child ∈ built ∧
  ∃ shape key value,
    shape_entries σ parent = Return shape ∧ (key, value) ∈ shape ∧
    composite_child value = Some child.

(** A test for the absence of such cycles: the objects that getters
    build are numbered from the innermost outwards. *)
Definition built_below (built : list ref) (parent : ref) : bool :=
  match shape_entries σ parent with
  | Return shape =>
      forallb (λ entry,
                 match composite_child entry.2 with
                 | Some target =>
                     negb (bool_decide (target ∈ built)) || (target <? parent)%nat
                 | None => true
                 end) shape
  | _ => true
  end.

Definition built_in_order (built : list ref) : bool :=
  forallb (built_below built) built.

(** The objects that getters build on the way of a traversal to [schema],
    since the last object that no getter builds: objects of the heap, all
    different, that lead to [schema]. *)
Definition on_trail (built : list ref) (trail : list ref) (schema : ref) : Prop :=
  NoDup trail ∧
  (∀ x, x ∈ trail → (x < length σ)%nat ∧ rtc (built_child built) x schema) ∧
  (schema ∈ built → schema ∈ trail).

(** A bound on the depth of the calls that a call of [getFilterable] or
    of [getPath] on [schema] leads to: an object that no getter builds is
    entered once and is in the visited set from then on, and the objects
    that getters build make chains without a repetition. *)
Definition walk_measure (built : list ref) (trail : list ref) (schema : ref)
    (visited : WeakSet) : nat :=
  length (unvisited visited) * S (length σ) +
  (if bool_decide (schema ∈ built) then S (length σ - length trail) else 0).

End walker_notions.

Section leaf_notions.
Variable σ : heap.

(** A child that carries the annotation methods and whose flag is set. *)
Definition flagged (test : ZodType → bool) (value : ref) : bool :=
  match σ !! value with
  | Some v => extended v && test v
  | None => false
  end.

(** The names under which [getQueryable] records a child that is no
    object: its path aliases if it has some, its key otherwise, and none
    when it is not flagged. *)
Definition queryable_names (key : string) (value : ref) : list string :=
  if flagged isQueryable value then
    match σ !! value ≫= description_path with
    | Some aliases => aliases
    | None => [key]
    end
  else [].

(** The names that a round of the loop of [getQueryable] may write. *)
Definition queryable_writes (entry : string * ref) : list string :=
  if instanceof_ZodObject σ entry.2 then [entry.1]
  else queryable_names entry.1 entry.2.

End leaf_notions.

(** ** Notions used to state the properties of the path index *)

Definition dot : Ascii.ascii := Ascii.ascii_of_N 46.

(** A key without a dot in it. *)
Definition dot_free (s : string) : bool := negb (Js.includes dot s).

(** The key under which [getPath] records a leaf, and the path that it
    records for it. *)
Definition leaf_key (parentKey : list string) (key : string) (v : ZodType)
  : string :=
  if extended v && isPath v then Js.join (parentKey ++ [key]) else key.

Definition physical_path (parentKey : list string) (key : string) (v : ZodType)
  : string :=
  if extended v && isPath v
  then Js.join (parentKey ++ default [] (description_path v))
  else Js.join (parentKey ++ [key]).

Section path_notions.
Variable σ : heap.

(** A child that [getPath] treats as a leaf. *)
Definition leaf_child (entry : string * ref) : bool :=
  match σ !! entry.2 with
  | Some _ =>
      negb (throwing σ entry.2) &&
      match composite_child σ entry.2 with Some _ => false | None => true end
  | None => false
  end.

(** What the loop of [getPath] makes of a shape of leaves. *)
Definition leaf_paths (parentKey : list string) (shape : list (string * ref))
    (paths : list (string * string)) : list (string * string) :=
  foldl (λ paths entry,
           match σ !! entry.2 with
           | Some v =>
               Js.set (leaf_key parentKey entry.1 v)
                 (physical_path parentKey entry.1 v) paths
           | None => paths
           end) paths shape.

End path_notions.

Section array_notions.
Variable σ : heap.

(** The element type of a child that is an array of objects, or a
    deferred node that resolves to an array of objects. *)
Definition array_child (value : ref) : option ref :=
  match σ !! value with
  | Some {| def := ZodLazy getter |} => getter ≫= array_of_object σ
  | Some _ => array_of_object σ value
  | None => None
  end.

End array_notions.

(** An entry of a filter payload that [validateOptions] has nothing to
    object to: an operator with an operand of its shape, or else a field
    of the model whose name [Object.prototype] does not have and whose
    value is neither [null] nor [undefined]. *)
Definition nullish (v : jsval) : bool :=
  match v with JUndefined | JNull => true | _ => false end.

Definition accepted (fields : list (string * jsval)) (entry : string * jsval)
  : bool :=
  let '(key, value) := entry in
  match operator_of_name key with
  | Some op => shape_contract op value
  | None =>
      Js.has key fields && negb (bool_decide (key ∈ Object_prototype)) &&
      negb (nullish value)
  end.

(** ** The other helpers of [src/helpers/utils/index.ts] *)

Module Str.

(** [s.split('.')]: the segments between the dots, one segment (the
    empty one) for the empty string. *)
Fixpoint split_from (acc : string) (s : string) : list string :=
  match s with
  | EmptyString => [acc]
  | String a s' =>
      if (Ascii.N_of_ascii a =? 46)%N then acc :: split_from EmptyString s'
      else split_from (acc +:+ String a EmptyString) s'
  end.
Definition split (s : string) : list string := split_from EmptyString s.

End Str.

(** [typeof val] *)
Definition typeof (val : jsval) : string :=
  match val with
  | JUndefined => "undefined"
  | JNull => "object"
  | JBool _ => "boolean"
  | JNumber _ => "number"
  | JString _ => "string"
  | JDate _ | JArray _ | JObject _ => "object"
  end.

(** The prototypes of the client values. *)
Inductive prototype : Type :=
  | Object_proto
  | Array_proto
  | Date_proto
  | String_proto
  | Number_proto
  | Boolean_proto.

(** [Object.getPrototypeOf(val)]: a [TypeError] on [null] and
    [undefined]; [None] would be the [null] prototype, which no client
    value has. *)
Definition getPrototypeOf (val : jsval) : outcome (option prototype) :=
  match val with
  | JUndefined | JNull => Throw TypeError
  | JBool _ => Return (Some Boolean_proto)
  | JNumber _ => Return (Some Number_proto)
  | JString _ => Return (Some String_proto)
  | JDate _ => Return (Some Date_proto)
  | JArray _ => Return (Some Array_proto)
  | JObject _ => Return (Some Object_proto)
  end.

(** [isPlainObject] *)
Definition isPlainObject (val : jsval) : outcome bool :=
  if negb (String.eqb (typeof val) "object") ||
     match val with JNull => true | _ => false end
  then Return false
  else
    let* proto := getPrototypeOf val in
    Return match proto with
           | Some Object_proto | None => true
           | Some _ => false
           end.

(** [dotToNestedObject(dotString, value = true)]: the default takes the
    place of an [undefined] argument. *)
Definition dotToNestedObject (dotString : string) (value : jsval) : jsval :=
  let value := match value with JUndefined => JBool true | _ => value end in
  match dotString with
  | EmptyString => JObject []                          (* [!dotString] *)
  | _ =>
      foldl (λ acc key, JObject [(key, acc)]) value
        (reverse (Str.split dotString))
  end.

(** ** Notions used to state the properties of the helpers *)

(** The value that [dotToNestedObject] wraps. *)
Definition or_true (value : jsval) : jsval :=
  match value with JUndefined => JBool true | _ => value end.

(** The object that holds [value] at the end of the chain of keys
    [path]. *)
Definition chain (path : list string) (value : jsval) : jsval :=
  foldr (λ key acc, JObject [(key, acc)]) value path.

(** A value whose own keys [nestedToDotObject] spreads: [value !== null
    && typeof value === 'object' && !Array.isArray(value)]. *)
Definition spread (value : jsval) : bool :=
  negb (is_null value) && String.eqb (typeof value) "object" &&
  negb (is_array value).

(** What [nestedToDotObject] writes to its result, in order. *)
Definition flat_entries (obj : list (string * jsval)) : list (string * jsval) :=
  obj ≫= (λ entry,
    match entry.2 with
    | JObject nested =>
        (λ inner, (entry.1 +:+ "." +:+ inner.1, inner.2)) <$> nested
    | JDate _ => []
    | _ => [entry]
    end).

(** What the four predicates of the annotator read of a node. *)
Definition annotations (t : ZodType)
  : bool * bool * bool * option (list string) :=
  (isFilterable t, isSortable t, isQueryable t, description_path t).

(** A capability tree as a client value. *)
Fixpoint to_js (c : capability) : jsval :=
  match c with
  | CTrue => JBool true
  | CTree fields =>
      JObject
        ((fix each (fields : list (string * capability))
            : list (string * jsval) :=
            match fields with
            | [] => []
            | (k, c') :: rest => (k, to_js c') :: each rest
            end) fields)
  end.

(** [obj[k1][k2]...[kn]], own properties only. *)
Fixpoint get_path (path : list string) (c : capability) : option capability :=
  match path with
  | [] => Some c
  | key :: rest =>
      match c with
      | CTree fields => Js.get key fields ≫= get_path rest
      | CTrue => None
      end
  end.

(** The entries of a filter payload on which [validateOptions] fails with
    a [TypeError]: a key that [Object.prototype] has, or a field of the
    model whose value is [null] or [undefined]. *)
Definition raising (fields : list (string * jsval)) (entry : string * jsval)
  : bool :=
  let '(key, value) := entry in
  bool_decide (key ∈ Object_prototype) ||
  match operator_of_name key with
  | Some _ => false
  | None => Js.has key fields && nullish value
  end.

(** ** Sample schemas *)

(** A leaf that carries the three capability flags. *)
Definition capable : ZodType :=
  set_sortable true (set_filterable true (set_queryable true z_leaf)).

(** [{id: string, name: capable, profile: {bio: capable, website: string},
    settings: {theme: string}}] *)
Definition nested_schema : heap :=
  [ capable;
    z_leaf;
    z_object [("bio", 0); ("website", 1)];
    z_object [("theme", 1)];
    z_object [("id", 1); ("name", 0); ("profile", 2); ("settings", 3)] ].


(** [{items: z.array(z.object({name: capable})),
     owner: z.lazy(() => z.object({name: capable}))}].  The getter of
    [owner] is called once in a traversal, and so is the object at
    address 3 entered once. *)
Definition array_and_lazy : heap :=
  [ capable;
    z_object [("name", 0)];
    z_array 1;
    z_object [("name", 0)];
    z_lazy (Some 3);
    z_object [("items", 2); ("owner", 4)] ].

(** [{a: capable.path(['b']), b: capable.path(['a'])}] *)
Definition alias_swap : heap :=
  [ set_path ["b"] capable;
    set_path ["a"] capable;
    z_object [("a", 0); ("b", 1)] ].

(** [{mail: capable.path(['email']), email: {x: capable}}] *)
Definition alias_then_object : heap :=
  [ set_path ["email"] capable;
    capable;
    z_object [("x", 1)];
    z_object [("mail", 0); ("email", 2)] ].

(** The schema of the test of path mapping: [{id: z.string(), name:
    z.string().queryable(), mail: z.string().queryable().path(['email']),
    profile: z.object({bio: z.string().queryable(), website: z.string(),
    age: z.number().queryable()})}]. *)
Definition path_mapping : heap :=
  [ set_queryable true z_leaf;
    z_leaf;
    set_path ["email"] (set_queryable true z_leaf);
    z_object [("bio", 0); ("website", 1); ("age", 0)];
    z_object [("id", 1); ("name", 0); ("mail", 2); ("profile", 3)] ].

(** The schemas of some other tests of [getQueryable]. *)

(** [{id: z.string(), name: z.string(), age: z.number(), email:
    z.string().optional()}] *)
Definition test_none_queryable : heap :=
  [ z_leaf;
    optional z_leaf;
    z_object [("id", 0); ("name", 0); ("age", 0); ("email", 1)] ].

(** [{id: z.string(), name: z.string().queryable(), tags:
    z.array(z.string()), items: z.array(z.object({id: z.string(), name:
    z.string().queryable()}))}] *)
Definition test_arrays : heap :=
  [ z_leaf;
    set_queryable true z_leaf;
    z_array 0;
    z_object [("id", 0); ("name", 1)];
    z_array 3;
    z_object [("id", 0); ("name", 1); ("tags", 2); ("items", 4)] ].

(** [{id: z.string(), name: z.string().queryable(), lazyString: z.lazy(()
    => z.string().queryable()), lazyNumber: z.lazy(() => z.number())}] *)
Definition test_lazy_leaves : heap :=
  [ z_leaf;
    set_queryable true z_leaf;
    z_lazy (Some 1);
    z_lazy (Some 0);
    z_object [("id", 0); ("name", 1); ("lazyString", 2); ("lazyNumber", 3)] ].

(** [{id: z.string(), name: z.string().queryable(), profile: {bio:
    z.string(), website: z.string(), age: z.number()}, settings: {theme:
    z.string().queryable(), notifications: z.boolean()}}] *)
Definition test_empty_nested : heap :=
  [ z_leaf;
    set_queryable true z_leaf;
    z_object [("bio", 0); ("website", 0); ("age", 0)];
    z_object [("theme", 1); ("notifications", 0)];
    z_object [("id", 0); ("name", 1); ("profile", 2); ("settings", 3)] ].

(** [{profile: {details: {info: {data: z.string().queryable()}}}}] *)
Definition test_only_nested : heap :=
  [ set_queryable true z_leaf;
    z_object [("data", 0)];
    z_object [("info", 1)];
    z_object [("details", 2)];
    z_object [("profile", 3)] ].

(** [{a: {b: {c: string}}}] *)
Definition deep_schema : heap :=
  [ z_leaf;
    z_object [("c", 0)];
    z_object [("b", 1)];
    z_object [("a", 2)] ].

(** [{profile: {bio: capable, mail: capable.path(['email'])},
     name: capable, mail: capable.path(['email'])}] *)
Definition profile_first : heap :=
  [ capable;
    z_leaf;
    set_path ["email"] capable;
    z_object [("bio", 0); ("mail", 2)];
    z_object [("profile", 3); ("name", 0); ("mail", 2)] ].



(** [{id: z.string(), items: z.array(z.object({sku: z.string(), label:
    z.string().path(['title'])}))}] *)
Definition order_items : heap :=
  [ z_leaf;
    set_path ["title"] z_leaf;
    z_object [("sku", 0); ("label", 1)];
    z_array 2;
    z_object [("id", 0); ("items", 3)] ].

(** A shape with a child that is [undefined], as a schema imported in
    a cycle is when the shape is built: [{name: capable, ghost: undefined,
    age: capable}]. *)
Definition with_undefined : heap :=
  [ capable;
    z_object [("name", 0); ("ghost", 7); ("age", 0)] ].

(** [{id: z.string(), owner: z.lazy(() => z.object({name: z.string(),
    mail: z.string().path(['email'])}))}].  The getter of [owner] is
    called once in a traversal, and so is the object at address 2 entered
    once. *)
Definition deferred_owner : heap :=
  [ z_leaf;
    set_path ["email"] z_leaf;
    z_object [("name", 0); ("mail", 1)];
    z_lazy (Some 2);
    z_object [("id", 0); ("owner", 3)] ].

(** A deferred node that refers to itself through the object that its
    getter builds: [const N = z.lazy(() => z.object({next: N}))], under the
    key [n] of the root [z.object({n: N})].  The node at address 1 is the
    object that the getter builds. *)
Definition self_building : heap :=
  [ z_lazy (Some 1);
    z_object [("next", 0)];
    z_object [("n", 0)] ].

(** A cycle through an object that a getter builds and an object that
    is built outside of the getters: [const A = z.object({name: capable,
    next: z.lazy(() => z.object({back: z.lazy(() => A)}))})].  The node at
    address 2 is the object that the getter of [next] builds. *)
Definition cycle_through_built : heap :=
  [ capable;
    z_lazy (Some 4);
    z_object [("back", 1)];
    z_lazy (Some 2);
    z_object [("name", 0); ("next", 3)] ].

(** One deferred node under two keys, whose getter builds its object:
    [const owner = z.lazy(() => z.object({name: capable}))] in [z.object({a:
    owner, b: owner})].  The node at address 1 is the object that the
    getter builds. *)
Definition owner_twice : heap :=
  [ capable;
    z_object [("name", 0)];
    z_lazy (Some 1);
    z_object [("a", 2); ("b", 2)] ].

(** One deferred node under two keys, whose getter returns a schema built
    outside of it: [const address = z.object({street: capable}); const
    owner = z.lazy(() => address)] in [z.object({a: owner, b: owner})]. *)
Definition address_twice : heap :=
  [ capable;
    z_object [("street", 0)];
    z_lazy (Some 1);
    z_object [("a", 2); ("b", 2)] ].

(** * Properties *)

(** ** Records *)

Section record_facts.
Context {V : Type}.
Implicit Types (k : string) (v : V) (o : list (string * V)).

Lemma get_set_eq k v o : Js.get k (Js.set k v o) = Some v.
Proof.
  induction o as [|[k' v'] o IH]; simpl.
  - by rewrite String.eqb_refl.
  - destruct (String.eqb k k') eqn:E; simpl.
    + by rewrite String.eqb_refl.
    + destruct (Js.before k k'); simpl.
      * by rewrite String.eqb_refl.
      * by rewrite E.
Qed.

Lemma get_set_ne k k' v o : k ≠ k' → Js.get k' (Js.set k v o) = Js.get k' o.
Proof.
  intros Hne. apply not_eq_sym in Hne.
  apply String.eqb_neq in Hne.
  induction o as [|[k0 v0] o IH]; simpl.
  - by rewrite Hne.
  - destruct (String.eqb k k0) eqn:E; simpl.
    + apply String.eqb_eq in E. subst k0. by rewrite Hne.
    + destruct (Js.before k k0); simpl.
      * by rewrite Hne.
      * by rewrite IH.
Qed.

Lemma get_set k k' v o :
  Js.get k' (Js.set k v o) = if String.eqb k k' then Some v else Js.get k' o.
Proof.
  destruct (String.eqb k k') eqn:E.
  - apply String.eqb_eq in E. subst. apply get_set_eq.
  - apply String.eqb_neq in E. by apply get_set_ne.
Qed.

Lemma set_nonempty k v o : Js.nonempty (Js.set k v o) = true.
Proof.
  destruct o as [|[k' v'] o]; simpl; [done|].
  destruct (String.eqb k k'); [done|]. by destruct (Js.before k k').
Qed.

Lemma get_None_not_in k o : Js.get k o = None ↔ k ∉ Js.keys o.
Proof.
  unfold Js.keys. induction o as [|[k' v'] o IH]; simpl.
  - split; [intros _; apply not_elem_of_nil | done].
  - rewrite not_elem_of_cons. destruct (String.eqb k k') eqn:E.
    + apply String.eqb_eq in E. split; [done | intros [? _]; done].
    + apply String.eqb_neq in E. rewrite IH. tauto.
Qed.

Lemma get_In k v o : Js.get k o = Some v → (k, v) ∈ o.
Proof.
  induction o as [|[k' v'] o IH]; simpl; [done|].
  destruct (String.eqb k k') eqn:E.
  - apply String.eqb_eq in E. intros [= ->]. subst. apply list_elem_of_here.
  - intros H. apply list_elem_of_further. auto.
Qed.

Lemma get_NoDup k v o : NoDup (Js.keys o) → (k, v) ∈ o → Js.get k o = Some v.
Proof.
  unfold Js.keys. induction o as [|[k' v'] o IH]; simpl.
  - intros _ H. by apply elem_of_nil in H.
  - intros Hnd H. apply NoDup_cons in Hnd as [Hk' Hnd].
    apply elem_of_cons in H as [[= -> ->]|H].
    + by rewrite String.eqb_refl.
    + destruct (String.eqb k k') eqn:E; [|by apply IH].
      apply String.eqb_eq in E. subst k'. exfalso. apply Hk'.
      apply list_elem_of_fmap. by exists (k, v).
Qed.
End record_facts.

(** ** Loops and computations *)

Section computation_facts.
Context {S A B : Type}.

Lemma for_of_app (xs ys : list A) (acc : B) (body : B → A → outcome B) :
  for_of (xs ++ ys) acc body = let* acc' := for_of xs acc body in for_of ys acc' body.
Proof.
  revert acc. induction xs as [|x xs IH]; intros acc; simpl; [done|].
  destruct (body acc x); simpl; auto.
Qed.

Lemma for_ofM_app (xs ys : list A) (acc : B) (body : B → A → M S B) (s : S) :
  for_ofM (xs ++ ys) acc body s =
  (let! acc' := for_ofM xs acc body in for_ofM ys acc' body) s.
Proof.
  revert acc s. induction xs as [|x xs IH]; intros acc s; simpl; [reflexivity|].
  unfold bindM. destruct (body acc x s) as [[acc'| |] s']; [|done..].
  rewrite IH. reflexivity.
Qed.

(** A loop that returns has gone through each of its rounds. *)
Lemma for_of_Return_inv (pre : list A) (x : A) (post : list A) (acc : B)
    (body : B → A → outcome B) (r : B) :
  for_of (pre ++ x :: post) acc body = Return r →
  ∃ acc1 acc2,
    for_of pre acc body = Return acc1 ∧ body acc1 x = Return acc2 ∧
    for_of post acc2 body = Return r.
Proof.
  rewrite for_of_app. destruct (for_of pre acc body) as [acc1| |]; simpl; try done.
  destruct (body acc1 x) as [acc2| |] eqn:E; simpl; try done. eauto.
Qed.

Lemma for_ofM_Return_inv (pre : list A) (x : A) (post : list A) (acc : B)
    (body : B → A → M S B) (s s' : S) (r : B) :
  for_ofM (pre ++ x :: post) acc body s = (Return r, s') →
  ∃ acc1 s1 acc2 s2,
    for_ofM pre acc body s = (Return acc1, s1) ∧
    body acc1 x s1 = (Return acc2, s2) ∧
    for_ofM post acc2 body s2 = (Return r, s').
Proof.
  rewrite for_ofM_app. unfold bindM at 1.
  destruct (for_ofM pre acc body s) as [[acc1| |] s1]; try done.
  simpl. unfold bindM at 1.
  destruct (body acc1 x s1) as [[acc2| |] s2] eqn:E; try done.
  intros H. eauto 10.
Qed.

(** Invariants of loops. *)
Lemma for_of_invariant (P : B → Prop) (xs : list A) (acc : B)
    (body : B → A → outcome B) (r : B) :
  P acc →
  (∀ b x b', x ∈ xs → P b → body b x = Return b' → P b') →
  for_of xs acc body = Return r → P r.
Proof.
  revert acc. induction xs as [|x xs IH]; intros acc Hacc Hbody; simpl.
  - by intros [= <-].
  - destruct (body acc x) as [acc'| |] eqn:E; simpl; try done.
    apply IH.
    + eapply Hbody; [apply list_elem_of_here | done..].
    + intros b y b' Hy. apply Hbody. by apply list_elem_of_further.
Qed.

Lemma for_ofM_invariant (P : B → S → Prop) (xs : list A) (acc : B)
    (body : B → A → M S B) (s s' : S) (r : B) :
  P acc s →
  (∀ b x t b' t', x ∈ xs → P b t → body b x t = (Return b', t') → P b' t') →
  for_ofM xs acc body s = (Return r, s') → P r s'.
Proof.
  revert acc s. induction xs as [|x xs IH]; intros acc s Hacc Hbody; simpl.
  - by intros [= <- <-].
  - unfold bindM at 1. destruct (body acc x s) as [[acc'| |] s1] eqn:E; try done.
    apply IH.
    + eapply Hbody; [apply list_elem_of_here | done..].
    + intros b y t b' t' Hy. apply Hbody. by apply list_elem_of_further.
Qed.

(** A loop returns when each round does. *)
Lemma for_ofM_returns (P : B → S → Prop) (xs : list A) (acc : B)
    (body : B → A → M S B) (s : S) :
  P acc s →
  (∀ b x t, x ∈ xs → P b t → ∃ b' t', body b x t = (Return b', t') ∧ P b' t') →
  ∃ r s', for_ofM xs acc body s = (Return r, s') ∧ P r s'.
Proof.
  revert acc s. induction xs as [|x xs IH]; intros acc s Hacc Hbody; simpl.
  - by exists acc, s.
  - unfold bindM at 1.
    destruct (Hbody acc x s) as (acc' & s1 & -> & Hacc');
      [apply list_elem_of_here | done |].
    apply IH; [done|].
    intros b y t Hy. apply Hbody. by apply list_elem_of_further.
Qed.

Lemma for_of_returns (P : B → Prop) (xs : list A) (acc : B)
    (body : B → A → outcome B) :
  P acc →
  (∀ b x, x ∈ xs → P b → ∃ b', body b x = Return b' ∧ P b') →
  ∃ r, for_of xs acc body = Return r ∧ P r.
Proof.
  revert acc. induction xs as [|x xs IH]; intros acc Hacc Hbody; simpl.
  - by exists acc.
  - destruct (Hbody acc x) as (acc' & -> & Hacc');
      [apply list_elem_of_here | done |]. simpl.
    apply IH; [done|].
    intros b y Hy. apply Hbody. by apply list_elem_of_further.
Qed.
End computation_facts.

(** ** The visited set *)

Section visited_facts.
Variable σ : heap.
Implicit Types (visited : WeakSet) (r : ref).

Lemma unvisited_subseteq visited visited' :
  visited ⊆ visited' →
  (length (unvisited σ visited') ≤ length (unvisited σ visited))%nat.
Proof.
  intros Hsub. unfold unvisited.
  induction (seq 0 (length σ)) as [|r l IH]; [done|].
  rewrite !filter_cons.
  destruct (decide (r ∉ visited')) as [Hr'|Hr'];
    destruct (decide (r ∉ visited)) as [Hr|Hr]; simpl; try lia.
  exfalso. apply Hr. intros Hin. apply Hr'. by apply Hsub.
Qed.

Lemma unvisited_add visited r :
  is_Some (σ !! r) → r ∉ visited →
  (length (unvisited σ (r :: visited)) < length (unvisited σ visited))%nat.
Proof.
  intros Hsome Hr. unfold unvisited.
  rewrite (list_filter_iff (λ x, x ∉ r :: visited) (λ x, x ≠ r ∧ x ∉ visited))
    by (intros x; rewrite not_elem_of_cons; tauto).
  rewrite <- list_filter_filter.
  apply length_filter_lt with r; [|by intros H; apply H].
  apply list_elem_of_filter. split; [done|].
  apply elem_of_seq. apply lookup_lt_is_Some in Hsome. lia.
Qed.
End visited_facts.

(** ** Capability trees *)

Lemma pruned_value_CTree (fields : list (string * capability)) :
  pruned_value (CTree fields) = Js.nonempty fields && pruned fields.
Proof.
  simpl. f_equal. unfold pruned.
  induction fields as [|[k c] fields IH]; simpl; [done | by rewrite IH].
Qed.

Lemma pruned_set (k : string) (c : capability) (tree : list (string * capability)) :
  pruned tree = true → pruned_value c = true → pruned (Js.set k c tree) = true.
Proof.
  unfold pruned. intros Htree Hc.
  induction tree as [|[k' c'] tree IH]; simpl in *.
  - by rewrite Hc.
  - apply andb_true_iff in Htree as [Hc' Htree].
    destruct (String.eqb k k'); simpl; [by rewrite Hc|].
    destruct (Js.before k k'); simpl.
    + by rewrite Hc, Hc'.
    + by rewrite Hc', IH.
Qed.

Lemma pruned_keep_nested (key : string) (nested tree : list (string * capability)) :
  pruned tree = true → pruned nested = true →
  pruned (keep_nested key nested tree) = true.
Proof.
  intros Htree Hnested. unfold keep_nested.
  destruct (Js.nonempty nested) eqn:E; [|done].
  apply pruned_set; [done|]. by rewrite pruned_value_CTree, E.
Qed.

(** What a call of [keep_nested] leaves under the names of the tree. *)
Lemma get_keep_nested (key k : string) (nested tree : list (string * capability)) :
  Js.get k (keep_nested key nested tree) =
    if String.eqb key k && Js.nonempty nested then Some (CTree nested)
    else Js.get k tree.
Proof.
  unfold keep_nested. destruct (Js.nonempty nested); rewrite ?andb_false_r; [|done].
  rewrite get_set. by rewrite andb_true_r.
Qed.

(** ** The shape of schema nodes *)

Section node_facts.
Variable σ : heap.

Lemma instanceof_ZodObject_shape (value : ref) :
  instanceof_ZodObject σ value = true ↔
  ∃ shape, shape_entries σ value = Return shape.
Proof.
  unfold instanceof_ZodObject, shape_entries.
  destruct (σ !! value) as [[[] ? ?]|]; split;
    (done || eauto || (by intros [? ?])).
Qed.

Lemma composite_object (value target : ref) :
  composite σ value = Some target → instanceof_ZodObject σ target = true.
Proof.
  unfold composite, array_of_object.
  destruct (instanceof_ZodObject σ value) eqn:E; [by intros [= <-]|].
  destruct (σ !! value) as [[[] ? ?]|]; try done.
  destruct (instanceof_ZodObject σ type) eqn:E'; [by intros [= <-] | done].
Qed.

Lemma composite_child_object (value target : ref) :
  composite_child σ value = Some target → instanceof_ZodObject σ target = true.
Proof.
  unfold composite_child.
  destruct (σ !! value) as [[[] ? ?]|]; try done;
    try apply composite_object.
  destruct getter as [lazyValue|]; [|done]. apply composite_object.
Qed.

Lemma shape_entries_cases (schema : ref) :
  (∃ shape, shape_entries σ schema = Return shape) ∨
  shape_entries σ schema = Throw TypeError.
Proof.
  unfold shape_entries. destruct (σ !! schema) as [[[] ? ?]|]; eauto.
Qed.

Lemma instanceof_ZodObject_is_Some (value : ref) :
  instanceof_ZodObject σ value = true → is_Some (σ !! value).
Proof.
  unfold instanceof_ZodObject. destruct (σ !! value); [eauto | done].
Qed.
End node_facts.

(** ** [getFilterable] *)

Section getFilterable_facts.
Variable σ : heap.
Implicit Types (visited : WeakSet) (filterable : list (string * capability)).

Lemma getFilterable_nested_eq rec target key filterable visited :
  getFilterable_nested rec target key filterable visited =
    if bool_decide (target ∈ visited) then (Return filterable, visited)
    else match rec target visited with
         | (Return nested, visited') =>
             (Return (keep_nested key nested filterable), visited')
         | (Throw e, visited') => (Throw e, visited')
         | (OutOfFuel, visited') => (OutOfFuel, visited')
         end.
Proof.
  unfold getFilterable_nested, bindM, WeakSet_has, ret.
  destruct (bool_decide (target ∈ visited)); [done|].
  by destruct (rec target visited) as [[]].
Qed.

(** The body of the loop, by the kind of the child. *)
Lemma getFilterable_entry_eq rec filterable key value visited :
  getFilterable_entry σ rec filterable (key, value) visited =
    match σ !! value with
    | None => (Return filterable, visited)
    | Some v =>
        if throwing σ value then (Return filterable, visited)
        else
          match composite_child σ value with
          | Some target =>
              match def v with
              | ZodLazy _ =>
                  try_catch (getFilterable_nested rec target key filterable)
                    (λ _, ret filterable) visited
              | _ => getFilterable_nested rec target key filterable visited
              end
          | None =>
              (Return (if extended v && isFilterable v
                       then Js.set key CTrue filterable else filterable),
               visited)
          end
    end.
Proof.
  unfold getFilterable_entry, throwing, composite_child, composite.
  destruct (σ !! value) as [v|] eqn:Hv; [|done].
  destruct v as [d descr ext]; simpl.
  destruct d as [shape|type|[lazyValue|]|]; simpl.
  - unfold bindM at 1. unfold ret at 1.
    assert (instanceof_ZodObject σ value = true) as ->
      by (unfold instanceof_ZodObject; by rewrite Hv).
    done.
  - unfold bindM at 1. unfold ret at 1.
    assert (instanceof_ZodObject σ value = false) as ->
      by (unfold instanceof_ZodObject; by rewrite Hv).
    destruct (array_of_object σ value); [done|].
    unfold lift. by destruct (ext && _).
  - assert (instanceof_ZodObject σ value = false) as Hobj
      by (unfold instanceof_ZodObject; by rewrite Hv).
    assert (array_of_object σ value = None) as Harr
      by (unfold array_of_object; by rewrite Hv).
    unfold bindM at 1. unfold try_catch at 1. unfold bindM at 1.
    unfold lift at 1. simpl.
    destruct (instanceof_ZodObject σ lazyValue).
    + unfold try_catch, bindM.
      destruct (getFilterable_nested rec lazyValue key filterable visited)
        as [[]]; done.
    + destruct (array_of_object σ lazyValue) as [type|].
      * unfold try_catch, bindM.
        destruct (getFilterable_nested rec type key filterable visited)
          as [[]]; done.
      * unfold ret at 1. rewrite Hobj, Harr.
        unfold lift. by destruct (ext && _).
  - reflexivity.
  - unfold bindM at 1. unfold ret at 1.
    assert (instanceof_ZodObject σ value = false) as ->
      by (unfold instanceof_ZodObject; by rewrite Hv).
    assert (array_of_object σ value = None) as ->
      by (unfold array_of_object; by rewrite Hv).
    unfold lift. by destruct (ext && _).
Qed.

Lemma getFilterable_entry_returns (n : nat) rec filterable key value visited :
  (∀ target visited0,
      (length (unvisited σ visited0) < n)%nat →
      instanceof_ZodObject σ target = true →
      filterable_post visited0 (rec target visited0)) →
  (length (unvisited σ visited) < n)%nat →
  pruned filterable = true →
  filterable_post visited (getFilterable_entry σ rec filterable (key, value) visited).
Proof.
  intros Hrec Hn Hpruned.
  assert (filterable_post visited (Return filterable, visited)) as Hsame
    by (exists filterable, visited; done).
  assert (∀ target,
            instanceof_ZodObject σ target = true →
            filterable_post visited
              (getFilterable_nested rec target key filterable visited)) as Hnested.
  { intros target Hobj. rewrite getFilterable_nested_eq.
    destruct (bool_decide (target ∈ visited)); [done|].
    destruct (Hrec target visited Hn Hobj) as (nested & visited' & -> & ? & ? & ?).
    exists (keep_nested key nested filterable), visited'.
    split; [done|]. split; [done|]. split; [done|].
    by apply pruned_keep_nested. }
  rewrite getFilterable_entry_eq.
  destruct (σ !! value) as [v|]; [|done].
  destruct (throwing σ value); [done|].
  destruct (composite_child σ value) as [target|] eqn:Hchild.
  - apply composite_child_object in Hchild.
    destruct (Hnested target Hchild) as (tree & visited' & Heq & ?).
    assert (filterable_post visited
              (getFilterable_nested rec target key filterable visited))
      by (rewrite Heq; by exists tree, visited').
    destruct (def v); try done.
    unfold try_catch. by rewrite Heq in *.
  - exists (if extended v && isFilterable v
            then Js.set key CTrue filterable else filterable), visited.
    split; [done|]. split; [done|]. split; [done|].
    destruct (extended v && isFilterable v); [|done]. by apply pruned_set.
Qed.

(** [getFilterable] returns on every object schema, whatever the
    references between the nodes of the heap. *)
Lemma getFilterable_returns (fuel : nat) (schema : ref) visited :
  (length (unvisited σ visited) < fuel)%nat →
  instanceof_ZodObject σ schema = true →
  filterable_post visited (getFilterable σ fuel schema visited).
Proof.
  revert schema visited.
  induction fuel as [|fuel IH]; intros schema visited Hfuel Hobj; [lia|].
  simpl. unfold bindM at 1. unfold WeakSet_has at 1.
  destruct (bool_decide (schema ∈ visited)) eqn:Hseen.
  { exists [], visited. done. }
  apply bool_decide_eq_false in Hseen.
  unfold bindM at 1. unfold WeakSet_add at 1.
  pose proof (instanceof_ZodObject_is_Some _ _ Hobj) as Hsome.
  destruct Hsome as [node Hnode]. rewrite Hnode.
  apply instanceof_ZodObject_shape in Hobj as [shape Hshape].
  unfold bindM at 1. unfold lift at 1. rewrite Hshape.
  pose proof (unvisited_add σ visited schema (mk_is_Some _ _ Hnode) Hseen) as Hlt.
  destruct (for_ofM_returns
              (λ tree visited',
                 schema :: visited ⊆ visited' ∧
                 (NoDup (schema :: visited) → NoDup visited') ∧
                 pruned tree = true)
              shape [] (getFilterable_entry σ (getFilterable σ fuel))
              (schema :: visited)) as (tree & visited' & -> & Hsub & Hnd & Hpr).
  - done.
  - intros b [key value] t _ (Hsub & Hnd & Hpr).
    pose proof (unvisited_subseteq σ _ _ Hsub).
    destruct (getFilterable_entry_returns fuel (getFilterable σ fuel) b key value t)
      as (tree & t' & -> & ? & ? & ?); [|lia|done|].
    + intros target visited0 ? ?. by apply IH.
    + exists tree, t'. split; [done|]. split; [by etrans|]. split; [|done]. auto.
  - exists tree, visited'. split; [done|]. split; [|split; [|done]].
    + intros x Hx. apply Hsub. by apply list_elem_of_further.
    + intros Hv. apply Hnd. by apply NoDup_cons.
Qed.
End getFilterable_facts.

(** ** [getPath] *)

Section getPath_facts.
Variable σ : heap.
Implicit Types (visited : WeakSet) (paths : list (string * string)).

Lemma getPath_nested_eq rec target fullKeyPath merge paths visited :
  getPath_nested rec target fullKeyPath merge paths visited =
    if bool_decide (target ∈ visited) then (Return paths, visited)
    else match rec target fullKeyPath visited with
         | (Return nested, visited') =>
             (Return (forEach nested paths merge), visited')
         | (Throw e, visited') => (Throw e, visited')
         | (OutOfFuel, visited') => (OutOfFuel, visited')
         end.
Proof.
  unfold getPath_nested, bindM, WeakSet_has, ret.
  destruct (bool_decide (target ∈ visited)); [done|].
  by destruct (rec target fullKeyPath visited) as [[]].
Qed.

(** The body of the loop, by the kind of the child. *)
Lemma getPath_entry_eq rec parentKey paths key value visited :
  getPath_entry σ rec parentKey paths (key, value) visited =
    match σ !! value with
    | None => (Return paths, visited)
    | Some v =>
        if throwing σ value then (Return paths, visited)
        else
          match composite_child σ value with
          | Some target =>
              match def v with
              | ZodLazy _ =>
                  try_catch
                    (getPath_nested rec target (parentKey ++ [key])
                       (merge_of σ value key) paths)
                    (λ _, ret paths) visited
              | _ =>
                  getPath_nested rec target (parentKey ++ [key])
                    (merge_of σ value key) paths visited
              end
          | None => (Return (leaf_path parentKey key v paths), visited)
          end
    end.
Proof.
  unfold getPath_entry, throwing, composite_child, composite, merge_of, leaf_path.
  destruct (σ !! value) as [v|] eqn:Hv; [|done].
  destruct v as [d descr ext]; simpl.
  destruct d as [shape|type|[lazyValue|]|]; simpl.
  - unfold bindM at 1. unfold ret at 1.
    assert (instanceof_ZodObject σ value = true) as ->
      by (unfold instanceof_ZodObject; by rewrite Hv).
    done.
  - unfold bindM at 1. unfold ret at 1.
    assert (instanceof_ZodObject σ value = false) as ->
      by (unfold instanceof_ZodObject; by rewrite Hv).
    destruct (array_of_object σ value); [done|].
    destruct (ext && _); [|done]. by destruct (description_path _).
  - assert (instanceof_ZodObject σ value = false) as Hobj
      by (unfold instanceof_ZodObject; by rewrite Hv).
    assert (array_of_object σ value = None) as Harr
      by (unfold array_of_object; by rewrite Hv).
    unfold bindM at 1. unfold try_catch at 1. unfold bindM at 1.
    unfold lift at 1. simpl.
    destruct (instanceof_ZodObject σ lazyValue).
    + unfold try_catch, bindM.
      destruct (getPath_nested rec lazyValue _ _ paths visited) as [[]]; done.
    + destruct (array_of_object σ lazyValue) as [type|].
      * unfold try_catch, bindM.
        destruct (getPath_nested rec type _ _ paths visited) as [[]]; done.
      * unfold ret at 1. rewrite Hobj, Harr.
        destruct (ext && _); [|done]. by destruct (description_path _).
  - reflexivity.
  - unfold bindM at 1. unfold ret at 1.
    assert (instanceof_ZodObject σ value = false) as ->
      by (unfold instanceof_ZodObject; by rewrite Hv).
    assert (array_of_object σ value = None) as ->
      by (unfold array_of_object; by rewrite Hv).
    destruct (ext && _); [|done]. by destruct (description_path _).
Qed.


End getPath_facts.

(** ** [getSortable] and [getQueryable] *)

Section pure_walker_facts.
Variable σ : heap.
Implicit Types (tree : list (string * capability)).

Lemma for_of_terminates {A B} (xs : list A) (acc : B) (body : B → A → outcome B) :
  (∀ b x, x ∈ xs → terminates (body b x)) → terminates (for_of xs acc body).
Proof.
  unfold terminates. revert acc.
  induction xs as [|x xs IH]; intros acc Hbody; simpl; [done|].
  pose proof (Hbody acc x (list_elem_of_here _ _)) as Hx.
  destruct (body acc x) as [acc'| |]; simpl; [|done..].
  apply IH. intros b y Hy. apply Hbody. by apply list_elem_of_further.
Qed.

Lemma allocated_before_lookup (r : ref) (t : ZodType) :
  cycles_are_deferred σ = true → σ !! r = Some t → allocated_before r t = true.
Proof.
  unfold cycles_are_deferred. intros Hall Hr.
  rewrite forallb_forall in Hall.
  apply (Hall (r, t)). apply list_elem_of_In.
  apply elem_of_lookup_imap. eauto.
Qed.

Lemma shape_allocated_before (schema : ref) shape (key : string) (value : ref) :
  cycles_are_deferred σ = true →
  shape_entries σ schema = Return shape → (key, value) ∈ shape →
  (value < schema)%nat.
Proof.
  intros Hall Hshape Hin. unfold shape_entries in Hshape.
  destruct (σ !! schema) as [[[shape'| | |] ? ?]|] eqn:Hs; try done.
  injection Hshape as ->.
  apply (allocated_before_lookup _ _ Hall) in Hs.
  unfold allocated_before in Hs. simpl in Hs.
  rewrite forallb_forall in Hs.
  apply list_elem_of_In, Hs in Hin. by apply Nat.ltb_lt in Hin.
Qed.

(** The bodies of the two loops, by the kind of the child. *)
Lemma getSortable_entry_eq rec tree key value :
  getSortable_entry σ rec tree (key, value) =
    if instanceof_ZodObject σ value then
      let* nested := rec value in Return (keep_nested key nested tree)
    else
      match σ !! value with
      | Some _ =>
          Return (if flagged σ isSortable value
                  then Js.set key CTrue tree else tree)
      | None => Throw TypeError
      end.
Proof.
  unfold getSortable_entry, has_methods, node_flag, flagged.
  destruct (instanceof_ZodObject σ value); [done|].
  destruct (σ !! value) as [v|]; [|done]. simpl.
  by destruct (extended v && isSortable v).
Qed.

Lemma for_of_aliases (aliases : list string) tree :
  for_of aliases tree (λ queryable p, setNestedKey queryable [p] CTrue) =
  Return (foldl (λ queryable p, Js.set p CTrue queryable) tree aliases).
Proof.
  revert tree. induction aliases as [|p aliases IH]; intros tree; simpl; [done|].
  apply IH.
Qed.

Lemma getQueryable_entry_eq rec tree key value :
  getQueryable_entry σ rec tree (key, value) =
    if instanceof_ZodObject σ value then
      let* nested := rec value in Return (keep_nested key nested tree)
    else
      match σ !! value with
      | Some _ =>
          Return (foldl (λ queryable p, Js.set p CTrue queryable) tree
                    (queryable_names σ key value))
      | None => Throw TypeError
      end.
Proof.
  unfold getQueryable_entry, has_methods, node_flag, queryable_names, flagged.
  destruct (instanceof_ZodObject σ value); [done|].
  destruct (σ !! value) as [v|]; [|done]. simpl.
  destruct (extended v && isQueryable v); [|done].
  destruct (description_path v); [|done]. apply for_of_aliases.
Qed.

(** Neither follows a deferred node, so that both terminate on the heaps
    whose cycles are deferred. *)
Lemma getSortable_terminates (fuel : nat) (schema : ref) :
  cycles_are_deferred σ = true → (schema < fuel)%nat →
  terminates (getSortable σ fuel schema).
Proof.
  intros Hall. revert schema.
  induction fuel as [|fuel IH]; intros schema Hfuel; [lia|].
  simpl. destruct (shape_entries_cases σ schema) as [[shape Hshape]| ->];
    [rewrite Hshape; simpl | done].
  apply for_of_terminates. intros tree [key value] Hin.
  rewrite getSortable_entry_eq.
  destruct (instanceof_ZodObject σ value).
  - pose proof (shape_allocated_before _ _ _ _ Hall Hshape Hin).
    assert (terminates (getSortable σ fuel value)) as Hrec by (apply IH; lia).
    unfold terminates in *. by destruct (getSortable σ fuel value).
  - unfold terminates. by destruct (σ !! value).
Qed.

Lemma getQueryable_terminates (fuel : nat) (schema : ref) :
  cycles_are_deferred σ = true → (schema < fuel)%nat →
  terminates (getQueryable σ fuel schema).
Proof.
  intros Hall. revert schema.
  induction fuel as [|fuel IH]; intros schema Hfuel; [lia|].
  simpl. destruct (shape_entries_cases σ schema) as [[shape Hshape]| ->];
    [rewrite Hshape; simpl | done].
  apply for_of_terminates. intros tree [key value] Hin.
  rewrite getQueryable_entry_eq.
  destruct (instanceof_ZodObject σ value).
  - pose proof (shape_allocated_before _ _ _ _ Hall Hshape Hin).
    assert (terminates (getQueryable σ fuel value)) as Hrec by (apply IH; lia).
    unfold terminates in *. by destruct (getQueryable σ fuel value).
  - unfold terminates. by destruct (σ !! value).
Qed.



End pure_walker_facts.

(** ** Termination and the visited set *)

Section termination_facts.
Variable σ : heap.

Lemma unvisited_length (visited : WeakSet) :
  (length (unvisited σ visited) ≤ length σ)%nat.
Proof.
  unfold unvisited. etrans; [apply length_filter|]. by rewrite length_seq.
Qed.

Lemma instanceof_ZodObject_false (schema : ref) :
  instanceof_ZodObject σ schema = false →
  shape_entries σ schema = Throw TypeError.
Proof.
  unfold instanceof_ZodObject, shape_entries.
  by destruct (σ !! schema) as [[[] ? ?]|].
Qed.

(** On a schema that is no object, the two traversals that keep a visited
    set stop at once. *)
Lemma getFilterable_not_object (fuel : nat) (schema : ref) (visited : WeakSet) :
  instanceof_ZodObject σ schema = false →
  getFilterable σ (S fuel) schema visited =
    if bool_decide (schema ∈ visited) then (Return [], visited)
    else (Throw TypeError,
          match σ !! schema with Some _ => schema :: visited | None => visited end).
Proof.
  intros Hobj. apply instanceof_ZodObject_false in Hobj.
  simpl. unfold bindM, WeakSet_has, WeakSet_add, lift.
  destruct (bool_decide (schema ∈ visited)); [done|].
  destruct (σ !! schema); [|done]. by rewrite Hobj.
Qed.

Lemma getPath_not_object (fuel : nat) (schema : ref) (parentKey : list string)
    (visited : WeakSet) :
  instanceof_ZodObject σ schema = false →
  getPath σ (S fuel) schema parentKey visited =
    if bool_decide (schema ∈ visited) then (Return [], visited)
    else (Throw TypeError,
          match σ !! schema with Some _ => schema :: visited | None => visited end).
Proof.
  intros Hobj. apply instanceof_ZodObject_false in Hobj.
  simpl. unfold bindM, WeakSet_has, WeakSet_add, lift.
  destruct (bool_decide (schema ∈ visited)); [done|].
  destruct (σ !! schema); [|done]. by rewrite Hobj.
Qed.

(** A call on a visited node answers the empty result. *)
Lemma getFilterable_visited (fuel : nat) (schema : ref) (visited : WeakSet) :
  schema ∈ visited →
  getFilterable σ (S fuel) schema visited = (Return [], visited).
Proof.
  intros Hin. simpl. unfold bindM, WeakSet_has.
  by rewrite bool_decide_eq_true_2.
Qed.

Lemma getPath_visited (fuel : nat) (schema : ref) (parentKey : list string)
    (visited : WeakSet) :
  schema ∈ visited →
  getPath σ (S fuel) schema parentKey visited = (Return [], visited).
Proof.
  intros Hin. simpl. unfold bindM, WeakSet_has.
  by rewrite bool_decide_eq_true_2.
Qed.

Lemma getSortable_terminates_heap (fuel : nat) (schema : ref) :
  cycles_are_deferred σ = true → (length σ < fuel)%nat →
  terminates (getSortable σ fuel schema).
Proof.
  intros Hall Hfuel. destruct (decide (schema < length σ)%nat).
  - apply getSortable_terminates; [done | lia].
  - destruct fuel as [|fuel]; [lia|]. simpl.
    rewrite instanceof_ZodObject_false; [done|].
    unfold instanceof_ZodObject. by rewrite lookup_ge_None_2 by lia.
Qed.

Lemma getQueryable_terminates_heap (fuel : nat) (schema : ref) :
  cycles_are_deferred σ = true → (length σ < fuel)%nat →
  terminates (getQueryable σ fuel schema).
Proof.
  intros Hall Hfuel. destruct (decide (schema < length σ)%nat).
  - apply getQueryable_terminates; [done | lia].
  - destruct fuel as [|fuel]; [lia|]. simpl.
    rewrite instanceof_ZodObject_false; [done|].
    unfold instanceof_ZodObject. by rewrite lookup_ge_None_2 by lia.
Qed.

(** A round that changes nothing can be left out of a loop. *)
Lemma for_ofM_skip {S A B} (pre post : list A) (x : A) (acc : B)
    (body : B → A → M S B) (s : S) :
  (∀ b t, body b x t = (Return b, t)) →
  for_ofM (pre ++ x :: post) acc body s = for_ofM (pre ++ post) acc body s.
Proof.
  intros Hskip. rewrite !for_ofM_app. unfold bindM at 1 2.
  destruct (for_ofM pre acc body s) as [[acc'| |] s']; [|done..].
  simpl. unfold bindM at 1. by rewrite Hskip.
Qed.



(** The call on an object that is not visited is the loop over its shape. *)
Lemma getFilterable_unfold (fuel : nat) (schema : ref) shape (visited : WeakSet) :
  shape_entries σ schema = Return shape → schema ∉ visited →
  getFilterable σ (S fuel) schema visited =
    for_ofM shape [] (getFilterable_entry σ (getFilterable σ fuel))
      (schema :: visited).
Proof.
  intros Hshape Hseen. simpl. unfold bindM at 1. unfold WeakSet_has at 1.
  rewrite bool_decide_eq_false_2 by done.
  unfold bindM at 1. unfold WeakSet_add at 1.
  assert (is_Some (σ !! schema)) as [node Hnode].
  { apply instanceof_ZodObject_is_Some, instanceof_ZodObject_shape. eauto. }
  rewrite Hnode. unfold bindM at 1. unfold lift at 1. by rewrite Hshape.
Qed.

Lemma getPath_unfold (fuel : nat) (schema : ref) shape (parentKey : list string)
    (visited : WeakSet) :
  shape_entries σ schema = Return shape → schema ∉ visited →
  getPath σ (S fuel) schema parentKey visited =
    for_ofM shape [] (getPath_entry σ (getPath σ fuel) parentKey)
      (schema :: visited).
Proof.
  intros Hshape Hseen. simpl. unfold bindM at 1. unfold WeakSet_has at 1.
  rewrite bool_decide_eq_false_2 by done.
  unfold bindM at 1. unfold WeakSet_add at 1.
  assert (is_Some (σ !! schema)) as [node Hnode].
  { apply instanceof_ZodObject_is_Some, instanceof_ZodObject_shape. eauto. }
  rewrite Hnode. unfold bindM at 1. unfold lift at 1. by rewrite Hshape.
Qed.
End termination_facts.

(** ** More fuel changes nothing

    Once a call has enough fuel to come to an end, it gives the same
    outcome with any larger amount of fuel. *)

Section fuel_facts.
Variable σ : heap.

Lemma for_of_more {A B} (xs : list A) (acc : B) (body body' : B → A → outcome B) :
  (∀ b x, terminates (body b x) → body' b x = body b x) →
  terminates (for_of xs acc body) → for_of xs acc body' = for_of xs acc body.
Proof.
  unfold terminates. intros Hbody. revert acc.
  induction xs as [|x xs IH]; intros acc; simpl; [done|].
  destruct (body acc x) as [acc'| |] eqn:E; simpl; intros Hloop; try done.
  - rewrite Hbody, E by (by rewrite E). simpl. by apply IH.
  - by rewrite Hbody, E by (by rewrite E).
Qed.

Lemma for_ofM_more {S A B} (xs : list A) (acc : B) (body body' : B → A → M S B)
    (s : S) :
  (∀ b x t, terminates (body b x t).1 → body' b x t = body b x t) →
  terminates (for_ofM xs acc body s).1 →
  for_ofM xs acc body' s = for_ofM xs acc body s.
Proof.
  unfold terminates. intros Hbody. revert acc s.
  induction xs as [|x xs IH]; intros acc s; simpl; [done|].
  unfold bindM at 1 2 3.
  destruct (body acc x s) as [[acc'| |] s'] eqn:E; simpl; intros Hloop; try done.
  - rewrite Hbody, E by (by rewrite E). by apply IH.
  - by rewrite Hbody, E by (by rewrite E).
Qed.

Lemma getSortable_more (fuel fuel' : nat) (schema : ref) :
  (fuel ≤ fuel')%nat → terminates (getSortable σ fuel schema) →
  getSortable σ fuel' schema = getSortable σ fuel schema.
Proof.
  revert fuel' schema.
  induction fuel as [|fuel IH]; intros fuel' schema Hle; [done|].
  destruct fuel' as [|fuel']; [lia|]. simpl.
  destruct (shape_entries σ schema) as [shape| |]; simpl; [|done..].
  apply for_of_more. intros tree [key value]. rewrite !getSortable_entry_eq.
  destruct (instanceof_ZodObject σ value); [|done].
  intros Hrec. rewrite IH; [done | lia |].
  unfold terminates in *. by destruct (getSortable σ fuel value).
Qed.

Lemma getQueryable_more (fuel fuel' : nat) (schema : ref) :
  (fuel ≤ fuel')%nat → terminates (getQueryable σ fuel schema) →
  getQueryable σ fuel' schema = getQueryable σ fuel schema.
Proof.
  revert fuel' schema.
  induction fuel as [|fuel IH]; intros fuel' schema Hle; [done|].
  destruct fuel' as [|fuel']; [lia|]. simpl.
  destruct (shape_entries σ schema) as [shape| |]; simpl; [|done..].
  apply for_of_more. intros tree [key value]. rewrite !getQueryable_entry_eq.
  destruct (instanceof_ZodObject σ value); [|done].
  intros Hrec. rewrite IH; [done | lia |].
  unfold terminates in *. by destruct (getQueryable σ fuel value).
Qed.

Lemma try_catch_more {S A} (body body' : M S A) (handler : exn → M S A) (s : S) :
  (terminates (body s).1 → body' s = body s) →
  (∀ e t, terminates (handler e t).1) →
  terminates (try_catch body handler s).1 →
  try_catch body' handler s = try_catch body handler s.
Proof.
  unfold terminates, try_catch. intros Hbody Hhandler.
  destruct (body s) as [[a|e|] s'] eqn:E; simpl; intros H; try done;
    by rewrite Hbody.
Qed.

Lemma getFilterable_nested_more rec rec' target key tree visited :
  (terminates (rec target visited).1 → rec' target visited = rec target visited) →
  terminates (getFilterable_nested rec target key tree visited).1 →
  getFilterable_nested rec' target key tree visited =
  getFilterable_nested rec target key tree visited.
Proof.
  unfold terminates. rewrite !getFilterable_nested_eq. intros Hrec.
  destruct (bool_decide (target ∈ visited)); [done|].
  destruct (rec target visited) as [[nested|e|] v] eqn:E; simpl; intros H;
    try done; by rewrite Hrec.
Qed.

Lemma getFilterable_entry_more rec rec' tree entry visited :
  (∀ target visited0,
      terminates (rec target visited0).1 →
      rec' target visited0 = rec target visited0) →
  terminates (getFilterable_entry σ rec tree entry visited).1 →
  getFilterable_entry σ rec' tree entry visited =
  getFilterable_entry σ rec tree entry visited.
Proof.
  destruct entry as [key value]. intros Hrec.
  rewrite !getFilterable_entry_eq.
  destruct (σ !! value) as [v|]; [|done].
  destruct (throwing σ value); [done|].
  destruct (composite_child σ value) as [target|]; [|done].
  destruct (def v); try (apply getFilterable_nested_more, Hrec).
  apply try_catch_more; [|done].
  apply getFilterable_nested_more, Hrec.
Qed.

Lemma getFilterable_more (fuel fuel' : nat) (schema : ref) (visited : WeakSet) :
  (fuel ≤ fuel')%nat → terminates (getFilterable σ fuel schema visited).1 →
  getFilterable σ fuel' schema visited = getFilterable σ fuel schema visited.
Proof.
  revert fuel' schema visited.
  induction fuel as [|fuel IH]; intros fuel' schema visited Hle; [done|].
  destruct fuel' as [|fuel']; [lia|].
  destruct (instanceof_ZodObject σ schema) eqn:Hobj;
    [|by rewrite !getFilterable_not_object].
  apply instanceof_ZodObject_shape in Hobj as [shape Hshape].
  destruct (decide (schema ∈ visited)); [by rewrite !getFilterable_visited|].
  rewrite !(getFilterable_unfold _ _ _ shape) by done.
  apply for_ofM_more. intros tree entry t.
  apply getFilterable_entry_more. intros target visited0. apply IH. lia.
Qed.

Lemma getPath_nested_more rec rec' target fullKeyPath merge paths visited :
  (terminates (rec target fullKeyPath visited).1 →
   rec' target fullKeyPath visited = rec target fullKeyPath visited) →
  terminates (getPath_nested rec target fullKeyPath merge paths visited).1 →
  getPath_nested rec' target fullKeyPath merge paths visited =
  getPath_nested rec target fullKeyPath merge paths visited.
Proof.
  unfold terminates. rewrite !getPath_nested_eq. intros Hrec.
  destruct (bool_decide (target ∈ visited)); [done|].
  destruct (rec target fullKeyPath visited) as [[nested|e|] v] eqn:E; simpl;
    intros H; try done; by rewrite Hrec.
Qed.

Lemma getPath_entry_more rec rec' parentKey paths entry visited :
  (∀ target fullKeyPath visited0,
      terminates (rec target fullKeyPath visited0).1 →
      rec' target fullKeyPath visited0 = rec target fullKeyPath visited0) →
  terminates (getPath_entry σ rec parentKey paths entry visited).1 →
  getPath_entry σ rec' parentKey paths entry visited =
  getPath_entry σ rec parentKey paths entry visited.
Proof.
  destruct entry as [key value]. intros Hrec.
  rewrite !getPath_entry_eq.
  destruct (σ !! value) as [v|]; [|done].
  destruct (throwing σ value); [done|].
  destruct (composite_child σ value) as [target|]; [|done].
  destruct (def v); try (apply getPath_nested_more, Hrec).
  apply try_catch_more; [|done].
  apply getPath_nested_more, Hrec.
Qed.

Lemma getPath_more (fuel fuel' : nat) (schema : ref) (parentKey : list string)
    (visited : WeakSet) :
  (fuel ≤ fuel')%nat → terminates (getPath σ fuel schema parentKey visited).1 →
  getPath σ fuel' schema parentKey visited =
  getPath σ fuel schema parentKey visited.
Proof.
  revert fuel' schema parentKey visited.
  induction fuel as [|fuel IH]; intros fuel' schema parentKey visited Hle;
    [done|].
  destruct fuel' as [|fuel']; [lia|].
  destruct (instanceof_ZodObject σ schema) eqn:Hobj;
    [|by rewrite !getPath_not_object].
  apply instanceof_ZodObject_shape in Hobj as [shape Hshape].
  destruct (decide (schema ∈ visited)); [by rewrite !getPath_visited|].
  rewrite !(getPath_unfold _ _ _ shape) by done.
  apply for_ofM_more. intros paths entry t.
  apply getPath_entry_more. intros target fullKeyPath visited0. apply IH. lia.
Qed.
End fuel_facts.

(** ** Schemas that a getter builds *)

Section built_facts.
Variable σ : heap.

Lemma for_ofM_ext {S A B} (xs : list A) (acc : B) (body body' : B → A → M S B)
    (s : S) :
  (∀ b x t, body b x t = body' b x t) →
  for_ofM xs acc body s = for_ofM xs acc body' s.
Proof.
  intros Hbody. revert acc s.
  induction xs as [|x xs IH]; intros acc s; simpl; [done|].
  unfold bindM. rewrite Hbody.
  destruct (body' acc x s) as [[acc'| |] s']; auto.
Qed.

(** The body of a loop asks of the recursive call its results only. *)
Lemma getFilterable_entry_ext rec rec' tree entry visited :
  (∀ target visited0, rec target visited0 = rec' target visited0) →
  getFilterable_entry σ rec tree entry visited =
  getFilterable_entry σ rec' tree entry visited.
Proof.
  destruct entry as [key value]. intros Hrec.
  assert (∀ target, getFilterable_nested rec target key tree visited =
                    getFilterable_nested rec' target key tree visited) as Hnested
    by (intros target; by rewrite !getFilterable_nested_eq, Hrec).
  rewrite !getFilterable_entry_eq.
  destruct (σ !! value) as [v|]; [|done].
  destruct (throwing σ value); [done|].
  destruct (composite_child σ value) as [target|]; [|done].
  destruct (def v); try apply Hnested.
  unfold try_catch. by rewrite Hnested.
Qed.

Lemma getPath_entry_ext rec rec' parentKey paths entry visited :
  (∀ target fullKeyPath visited0,
      rec target fullKeyPath visited0 = rec' target fullKeyPath visited0) →
  getPath_entry σ rec parentKey paths entry visited =
  getPath_entry σ rec' parentKey paths entry visited.
Proof.
  destruct entry as [key value]. intros Hrec.
  assert (∀ target fullKeyPath merge,
            getPath_nested rec target fullKeyPath merge paths visited =
            getPath_nested rec' target fullKeyPath merge paths visited) as Hnested
    by (intros target fullKeyPath merge; by rewrite !getPath_nested_eq, Hrec).
  rewrite !getPath_entry_eq.
  destruct (σ !! value) as [v|]; [|done].
  destruct (throwing σ value); [done|].
  destruct (composite_child σ value) as [target|]; [|done].
  destruct (def v); try apply Hnested.
  unfold try_catch. by rewrite Hnested.
Qed.

(** When no getter builds its schema, the walker of [Built] is the
    walker. *)
Lemma Built_getFilterable_nil (fuel : nat) (schema : ref) (visited : WeakSet) :
  Built.getFilterable σ [] fuel schema visited =
  getFilterable σ fuel schema visited.
Proof.
  revert schema visited.
  induction fuel as [|fuel IH]; intros schema visited; [done|].
  simpl. unfold bindM, WeakSet_has, Built.WeakSet_add, WeakSet_add, lift.
  destruct (bool_decide (schema ∈ visited)); [done|].
  rewrite bool_decide_eq_false_2 by apply not_elem_of_nil.
  destruct (σ !! schema); [|done].
  destruct (shape_entries σ schema) as [shape| |]; [|done..].
  apply for_ofM_ext. intros tree entry t.
  apply getFilterable_entry_ext. intros target visited0. apply IH.
Qed.

Lemma Built_getPath_nil (fuel : nat) (schema : ref) (parentKey : list string)
    (visited : WeakSet) :
  Built.getPath σ [] fuel schema parentKey visited =
  getPath σ fuel schema parentKey visited.
Proof.
  revert schema parentKey visited.
  induction fuel as [|fuel IH]; intros schema parentKey visited; [done|].
  simpl. unfold bindM, WeakSet_has, Built.WeakSet_add, WeakSet_add, lift.
  destruct (bool_decide (schema ∈ visited)); [done|].
  rewrite bool_decide_eq_false_2 by apply not_elem_of_nil.
  destruct (σ !! schema); [|done].
  destruct (shape_entries σ schema) as [shape| |]; [|done..].
  apply for_ofM_ext. intros paths entry t.
  apply getPath_entry_ext. intros target fullKeyPath visited0. apply IH.
Qed.

(** In a heap whose cycles go through deferred nodes, a chain of calls of
    [getSortable] or of [getQueryable] goes down the addresses. *)
Lemma calls_allocated_before (parent child : ref) :
  cycles_are_deferred σ = true → tc (calls σ) parent child →
  (child < parent)%nat.
Proof.
  intros Hall Hcalls.
  induction Hcalls as [parent child (shape & key & Hshape & Hin & _)
                      |parent middle child (shape & key & Hshape & Hin & _) _ IH].
  - by eapply shape_allocated_before.
  - pose proof (shape_allocated_before σ parent shape key middle Hall Hshape Hin).
    lia.
Qed.

End built_facts.

(** ** Termination when getters build some of the nodes *)

Section built_termination_facts.
Variable σ : heap.
Variable built : list ref.

Lemma built_child_below (parent child : ref) :
  built_in_order σ built = true → built_child σ built parent child →
  (child < parent)%nat.
Proof.
  intros Horder (Hparent & Hchild & shape & key & value & Hshape & Hin & Htarget).
  unfold built_in_order in Horder. rewrite forallb_forall in Horder.
  apply list_elem_of_In, Horder in Hparent.
  unfold built_below in Hparent. rewrite Hshape, forallb_forall in Hparent.
  apply list_elem_of_In, Hparent in Hin. simpl in Hin. rewrite Htarget in Hin.
  rewrite bool_decide_eq_true_2 in Hin by done. by apply Nat.ltb_lt in Hin.
Qed.

(** When the objects that getters build are in order, no cycle is made
    of them. *)
Lemma built_in_order_no_cycle :
  built_in_order σ built = true → ∀ b, ¬ tc (built_child σ built) b b.
Proof.
  intros Horder.
  assert (∀ parent child, tc (built_child σ built) parent child →
                          (child < parent)%nat) as Hlt.
  { intros parent child Hpath.
    induction Hpath as [parent child Hstep|parent middle child Hstep _ IH].
    - by apply built_child_below.
    - pose proof (built_child_below _ _ Horder Hstep). lia. }
  intros b Hcycle. apply Hlt in Hcycle. lia.
Qed.

Lemma on_trail_length (trail : list ref) (schema : ref) :
  on_trail σ built trail schema → (length trail ≤ length σ)%nat.
Proof.
  intros (Hnd & Hall & _).
  rewrite <- (length_seq (length σ) 0).
  apply submseteq_length, NoDup_submseteq; [done|].
  intros x Hx. apply elem_of_seq. destruct (Hall x Hx). lia.
Qed.

(** The calls that a call leads to have a smaller measure. *)
Lemma walk_measure_child (fuel : nat) (schema : ref) shape (key : string)
    (value target : ref) (visited t : WeakSet) (trail : list ref) :
  (∀ b, ¬ tc (built_child σ built) b b) →
  on_trail σ built trail schema →
  (walk_measure σ built trail schema visited < S fuel)%nat →
  shape_entries σ schema = Return shape → schema ∉ visited →
  (if bool_decide (schema ∈ built) then visited else schema :: visited) ⊆ t →
  (key, value) ∈ shape → composite_child σ value = Some target →
  ∃ trail',
    on_trail σ built trail' target ∧
    (walk_measure σ built trail' target t < fuel)%nat.
Proof.
  unfold walk_measure.
  intros Hacyclic Htrail Hfuel Hshape Hseen Hsub Hin Hchild.
  assert (is_Some (σ !! schema)) as Hsome.
  { apply instanceof_ZodObject_is_Some, instanceof_ZodObject_shape. eauto. }
  assert (target < length σ)%nat as Htarget.
  { apply lookup_lt_is_Some, instanceof_ZodObject_is_Some.
    by eapply composite_child_object. }
  pose proof (unvisited_subseteq σ _ _ Hsub) as Hle.
  destruct (decide (target ∈ built)) as [Hbuilt|Hbuilt].
  2:{ exists []. split.
      - split; [apply NoDup_nil_2|]. split; [|done].
        intros x Hx. by apply elem_of_nil in Hx.
      - rewrite (bool_decide_eq_false_2 (target ∈ built)) by done.
        destruct (bool_decide (schema ∈ built)).
        + assert (length (unvisited σ t) * S (length σ) ≤
                  length (unvisited σ visited) * S (length σ))%nat
            by (by apply Nat.mul_le_mono_r).
          lia.
        + pose proof (unvisited_add σ visited schema Hsome Hseen) as Hlt.
          assert (S (length (unvisited σ t)) * S (length σ) ≤
                  length (unvisited σ visited) * S (length σ))%nat
            by (apply Nat.mul_le_mono_r; lia).
          lia. }
  rewrite (bool_decide_eq_true_2 (target ∈ built)) by done.
  destruct (bool_decide (schema ∈ built)) eqn:Hschema.
  - apply bool_decide_eq_true in Hschema.
    destruct Htrail as (Hnd & Hall & Hlast).
    assert (built_child σ built schema target) as Hstep.
    { split; [done|]. split; [done|]. by exists shape, key, value. }
    assert (on_trail σ built (target :: trail) target) as Htrail'.
    { split; [|split].
      - apply NoDup_cons. split; [|done].
        intros Hx. destruct (Hall target Hx) as [_ Hpath].
        apply (Hacyclic target). eapply tc_rtc_l; [exact Hpath|].
        by apply tc_once.
      - intros x [->|Hx]%elem_of_cons; [done|].
        destruct (Hall x Hx) as [Hlt Hpath]. split; [done|].
        by eapply rtc_r.
      - intros _. apply list_elem_of_here. }
    exists (target :: trail). split; [done|].
    apply on_trail_length in Htrail'. simpl in *.
    assert (length (unvisited σ t) * S (length σ) ≤
            length (unvisited σ visited) * S (length σ))%nat
      by (by apply Nat.mul_le_mono_r).
    lia.
  - exists [target]. split.
    + split; [|split].
      * apply NoDup_singleton.
      * intros x ->%list_elem_of_singleton. done.
      * intros _. apply list_elem_of_here.
    + pose proof (unvisited_add σ visited schema Hsome Hseen) as Hlt.
      assert (S (length (unvisited σ t)) * S (length σ) ≤
              length (unvisited σ visited) * S (length σ))%nat
        by (apply Nat.mul_le_mono_r; lia).
      simpl. lia.
Qed.

(** A round of the loop returns when the call that it makes does. *)
Lemma getFilterable_entry_post rec filterable key value visited :
  (∀ target, composite_child σ value = Some target →
             filterable_post visited (rec target visited)) →
  pruned filterable = true →
  filterable_post visited
    (getFilterable_entry σ rec filterable (key, value) visited).
Proof.
  intros Hrec Hpruned.
  assert (filterable_post visited (Return filterable, visited)) as Hsame
    by (exists filterable, visited; done).
  rewrite getFilterable_entry_eq.
  destruct (σ !! value) as [v|]; [|done].
  destruct (throwing σ value); [done|].
  destruct (composite_child σ value) as [target|] eqn:Hchild.
  - assert (filterable_post visited
              (getFilterable_nested rec target key filterable visited))
      as (tree & visited' & Heq & Hpost).
    { rewrite getFilterable_nested_eq.
      destruct (bool_decide (target ∈ visited)); [done|].
      destruct (Hrec target eq_refl) as (nested & visited' & -> & ? & ? & ?).
      exists (keep_nested key nested filterable), visited'.
      split; [done|]. split; [done|]. split; [done|].
      by apply pruned_keep_nested. }
    assert (filterable_post visited
              (getFilterable_nested rec target key filterable visited))
      by (rewrite Heq; by exists tree, visited').
    destruct (def v); try done.
    unfold try_catch. by rewrite Heq in *.
  - exists (if extended v && isFilterable v
            then Js.set key CTrue filterable else filterable), visited.
    split; [done|]. split; [done|]. split; [done|].
    destruct (extended v && isFilterable v); [|done]. by apply pruned_set.
Qed.

Lemma getPath_entry_post rec parentKey paths key value visited :
  (∀ target fullKeyPath,
      composite_child σ value = Some target →
      walk_post (λ _, True) visited (rec target fullKeyPath visited)) →
  walk_post (λ _, True) visited
    (getPath_entry σ rec parentKey paths (key, value) visited).
Proof.
  intros Hrec.
  assert (∀ paths', walk_post (λ _ : list (string * string), True) visited
                      (Return paths', visited)) as Hsame
    by (intros paths'; exists paths', visited; done).
  rewrite getPath_entry_eq.
  destruct (σ !! value) as [v|]; [|done].
  destruct (throwing σ value); [done|].
  destruct (composite_child σ value) as [target|] eqn:Hchild; [|done].
  assert (walk_post (λ _, True) visited
            (getPath_nested rec target (parentKey ++ [key])
               (merge_of σ value key) paths visited))
    as (tree & visited' & Heq & Hpost).
  { rewrite getPath_nested_eq.
    destruct (bool_decide (target ∈ visited)); [done|].
    destruct (Hrec target (parentKey ++ [key])%list eq_refl)
      as (nested & visited' & -> & ? & ? & _).
    by exists (forEach nested paths (merge_of σ value key)), visited'. }
  assert (walk_post (λ _, True) visited
            (getPath_nested rec target (parentKey ++ [key])
               (merge_of σ value key) paths visited))
    by (rewrite Heq; by exists tree, visited').
  destruct (def v); try done.
  unfold try_catch. by rewrite Heq in *.
Qed.

(** [getFilterable] and [getPath] return on every object schema when no
    cycle is made of objects that getters build only. *)
Lemma Built_getFilterable_returns (fuel : nat) (schema : ref) (visited : WeakSet)
    (trail : list ref) :
  (∀ b, ¬ tc (built_child σ built) b b) →
  on_trail σ built trail schema →
  (walk_measure σ built trail schema visited < fuel)%nat →
  instanceof_ZodObject σ schema = true →
  filterable_post visited (Built.getFilterable σ built fuel schema visited).
Proof.
  intros Hacyclic. revert schema visited trail.
  induction fuel as [|fuel IH]; intros schema visited trail Htrail Hfuel Hobj;
    [lia|].
  simpl. unfold bindM at 1. unfold WeakSet_has at 1.
  destruct (bool_decide (schema ∈ visited)) eqn:Hseen.
  { exists [], visited. done. }
  apply bool_decide_eq_false in Hseen.
  unfold bindM at 1. unfold Built.WeakSet_add at 1.
  destruct (instanceof_ZodObject_is_Some _ _ Hobj) as [node Hnode].
  rewrite Hnode.
  apply instanceof_ZodObject_shape in Hobj as [shape Hshape].
  unfold bindM at 1. unfold lift at 1. rewrite Hshape.
  pose proof (λ key value target t,
                walk_measure_child fuel schema shape key value target visited t
                  trail Hacyclic Htrail Hfuel Hshape Hseen) as Hchild.
  destruct (bool_decide (schema ∈ built)) eqn:Hbuilt.
  - destruct (for_ofM_returns
                (λ tree visited',
                   visited ⊆ visited' ∧ (NoDup visited → NoDup visited') ∧
                   pruned tree = true)
                shape [] (getFilterable_entry σ (Built.getFilterable σ built fuel))
                visited) as (tree & visited' & -> & Hsub & Hnd & Hpr).
    + done.
    + intros b [key value] t Hin (Hsub & Hnd & Hpr).
      destruct (getFilterable_entry_post (Built.getFilterable σ built fuel) b key
                  value t) as (tree & t' & -> & ? & ? & ?); [|done|].
      * intros target Htarget.
        destruct (Hchild key value target t) as (trail' & Htrail' & Hlt);
          [done..|].
        apply (IH target t trail'); [done..|].
        by eapply composite_child_object.
      * exists tree, t'. split; [done|]. split; [by etrans|]. split; [|done]. auto.
    + by exists tree, visited'.
  - destruct (for_ofM_returns
                (λ tree visited',
                   schema :: visited ⊆ visited' ∧
                   (NoDup (schema :: visited) → NoDup visited') ∧
                   pruned tree = true)
                shape [] (getFilterable_entry σ (Built.getFilterable σ built fuel))
                (schema :: visited)) as (tree & visited' & -> & Hsub & Hnd & Hpr).
    + done.
    + intros b [key value] t Hin (Hsub & Hnd & Hpr).
      destruct (getFilterable_entry_post (Built.getFilterable σ built fuel) b key
                  value t) as (tree & t' & -> & ? & ? & ?); [|done|].
      * intros target Htarget.
        destruct (Hchild key value target t) as (trail' & Htrail' & Hlt);
          [done..|].
        apply (IH target t trail'); [done..|].
        by eapply composite_child_object.
      * exists tree, t'. split; [done|]. split; [by etrans|]. split; [|done]. auto.
    + exists tree, visited'. split; [done|]. split; [|split; [|done]].
      * intros x Hx. apply Hsub. by apply list_elem_of_further.
      * intros Hv. apply Hnd. by apply NoDup_cons.
Qed.

Lemma Built_getPath_returns (fuel : nat) (schema : ref) (parentKey : list string)
    (visited : WeakSet) (trail : list ref) :
  (∀ b, ¬ tc (built_child σ built) b b) →
  on_trail σ built trail schema →
  (walk_measure σ built trail schema visited < fuel)%nat →
  instanceof_ZodObject σ schema = true →
  walk_post (λ _, True) visited
    (Built.getPath σ built fuel schema parentKey visited).
Proof.
  intros Hacyclic. revert schema parentKey visited trail.
  induction fuel as [|fuel IH];
    intros schema parentKey visited trail Htrail Hfuel Hobj; [lia|].
  simpl. unfold bindM at 1. unfold WeakSet_has at 1.
  destruct (bool_decide (schema ∈ visited)) eqn:Hseen.
  { exists [], visited. done. }
  apply bool_decide_eq_false in Hseen.
  unfold bindM at 1. unfold Built.WeakSet_add at 1.
  destruct (instanceof_ZodObject_is_Some _ _ Hobj) as [node Hnode].
  rewrite Hnode.
  apply instanceof_ZodObject_shape in Hobj as [shape Hshape].
  unfold bindM at 1. unfold lift at 1. rewrite Hshape.
  pose proof (λ key value target t,
                walk_measure_child fuel schema shape key value target visited t
                  trail Hacyclic Htrail Hfuel Hshape Hseen) as Hchild.
  destruct (bool_decide (schema ∈ built)) eqn:Hbuilt.
  - destruct (for_ofM_returns
                (λ (_ : list (string * string)) visited',
                   visited ⊆ visited' ∧ (NoDup visited → NoDup visited'))
                shape [] (getPath_entry σ (Built.getPath σ built fuel) parentKey)
                visited) as (tree & visited' & -> & Hsub & Hnd).
    + done.
    + intros b [key value] t Hin (Hsub & Hnd).
      destruct (getPath_entry_post (Built.getPath σ built fuel) parentKey b key
                  value t) as (tree & t' & -> & ? & ? & _).
      * intros target fullKeyPath Htarget.
        destruct (Hchild key value target t) as (trail' & Htrail' & Hlt);
          [done..|].
        apply (IH target fullKeyPath t trail'); [done..|].
        by eapply composite_child_object.
      * exists tree, t'. split; [done|]. split; [by etrans | auto].
    + by exists tree, visited'.
  - destruct (for_ofM_returns
                (λ (_ : list (string * string)) visited',
                   schema :: visited ⊆ visited' ∧
                   (NoDup (schema :: visited) → NoDup visited'))
                shape [] (getPath_entry σ (Built.getPath σ built fuel) parentKey)
                (schema :: visited)) as (tree & visited' & -> & Hsub & Hnd).
    + done.
    + intros b [key value] t Hin (Hsub & Hnd).
      destruct (getPath_entry_post (Built.getPath σ built fuel) parentKey b key
                  value t) as (tree & t' & -> & ? & ? & _).
      * intros target fullKeyPath Htarget.
        destruct (Hchild key value target t) as (trail' & Htrail' & Hlt);
          [done..|].
        apply (IH target fullKeyPath t trail'); [done..|].
        by eapply composite_child_object.
      * exists tree, t'. split; [done|]. split; [by etrans | auto].
    + exists tree, visited'. split; [done|]. split; [|split; [|done]].
      * intros x Hx. apply Hsub. by apply list_elem_of_further.
      * intros Hv. apply Hnd. by apply NoDup_cons.
Qed.

(** The trail and the measure of a first call: the measure is below the
    square of the size of the heap. *)
Lemma walk_measure_bound (schema : ref) (visited : WeakSet) :
  instanceof_ZodObject σ schema = true →
  ∃ trail,
    on_trail σ built trail schema ∧
    (walk_measure σ built trail schema visited <
     S (length σ) * S (length σ))%nat.
Proof.
  intros Hobj.
  assert (schema < length σ)%nat
    by (by apply lookup_lt_is_Some, instanceof_ZodObject_is_Some).
  pose proof (unvisited_length σ visited).
  assert (length (unvisited σ visited) * S (length σ) ≤
          length σ * S (length σ))%nat by (by apply Nat.mul_le_mono_r).
  exists [schema]. split.
  - split; [apply NoDup_singleton|]. split.
    + intros x ->%list_elem_of_singleton. done.
    + intros _. apply list_elem_of_here.
  - unfold walk_measure. simpl. destruct (bool_decide (schema ∈ built)); lia.
Qed.

End built_termination_facts.

(** The calls of [getFilterable] and of [getPath] on the object that the
    getter of [self_building] builds: each of them comes to the deferred
    node, whose getter builds the next object. *)
Lemma self_building_getFilterable (fuel : nat) :
  Built.getFilterable self_building [1] fuel 1 [2] = (OutOfFuel, [2]).
Proof.
  induction fuel as [|fuel IH]; [done|].
  simpl. unfold bindM at 1. unfold WeakSet_has at 1. simpl.
  unfold bindM at 1. unfold Built.WeakSet_add at 1. simpl.
  unfold bindM at 1. unfold lift at 1. simpl.
  unfold getFilterable_nested. unfold bindM, try_catch, lift, WeakSet_has. simpl.
  by rewrite IH.
Qed.

Lemma self_building_getPath (fuel : nat) (parentKey : list string) :
  Built.getPath self_building [1] fuel 1 parentKey [2] = (OutOfFuel, [2]).
Proof.
  revert parentKey.
  induction fuel as [|fuel IH]; intros parentKey; [done|].
  simpl. unfold bindM at 1. unfold WeakSet_has at 1. simpl.
  unfold bindM at 1. unfold Built.WeakSet_add at 1. simpl.
  unfold bindM at 1. unfold lift at 1. simpl.
  unfold getPath_nested. unfold bindM, try_catch, lift, WeakSet_has. simpl.
  by rewrite IH.
Qed.

(** ** What the trees hold under a name *)

Section lookup_facts.
Variable σ : heap.
Implicit Types (tree : list (string * capability)) (shape : list (string * ref)).

Lemma get_aliases (aliases : list string) tree (k : string) :
  Js.get k (foldl (λ queryable p, Js.set p CTrue queryable) tree aliases) =
    if bool_decide (k ∈ aliases) then Some CTrue else Js.get k tree.
Proof.
  revert tree. induction aliases as [|p aliases IH]; intros tree; simpl; [done|].
  rewrite IH. destruct (decide (k ∈ aliases)) as [Hin|Hin].
  - rewrite (bool_decide_eq_true_2 (k ∈ aliases)) by done.
    rewrite bool_decide_eq_true_2; [done|]. by apply list_elem_of_further.
  - rewrite (bool_decide_eq_false_2 (k ∈ aliases)) by done.
    rewrite get_set. destruct (String.eqb p k) eqn:E.
    + apply String.eqb_eq in E. subst p.
      rewrite bool_decide_eq_true_2; [done | apply list_elem_of_here].
    + apply String.eqb_neq in E. rewrite bool_decide_eq_false_2; [done|].
      rewrite not_elem_of_cons. split; [congruence | done].
Qed.

Lemma split_entry shape (key : string) (value : ref) :
  (key, value) ∈ shape → NoDup (shape.*1) →
  ∃ pre post,
    shape = (pre ++ (key, value) :: post)%list ∧
    (key ∉ pre.*1) ∧ (key ∉ post.*1).
Proof.
  intros Hin Hnd. apply list_elem_of_split in Hin as (pre & post & ->).
  exists pre, post. split; [done|].
  rewrite fmap_app, fmap_cons in Hnd. simpl in Hnd.
  apply NoDup_app in Hnd as (_ & Hpre & Hpost).
  apply NoDup_cons in Hpost as [Hpost _]. split; [|done].
  intros Hk. apply (Hpre key Hk). apply list_elem_of_here.
Qed.

(** *** [getSortable] *)

Lemma getSortable_entry_frame rec tree key value tree' (k : string) :
  getSortable_entry σ rec tree (key, value) = Return tree' → k ≠ key →
  Js.get k tree' = Js.get k tree.
Proof.
  rewrite getSortable_entry_eq. intros Hentry Hk.
  destruct (instanceof_ZodObject σ value).
  - destruct (rec value) as [nested| |]; simpl in Hentry; try done.
    injection Hentry as <-. rewrite get_keep_nested.
    apply not_eq_sym, String.eqb_neq in Hk. by rewrite Hk.
  - destruct (σ !! value); [|done]. injection Hentry as <-.
    destruct (flagged σ isSortable value); [|done].
    by rewrite get_set_ne.
Qed.

Lemma getSortable_loop_frame rec shape tree tree' (k : string) :
  for_of shape tree (getSortable_entry σ rec) = Return tree' → k ∉ (shape.*1) →
  Js.get k tree' = Js.get k tree.
Proof.
  intros Hloop Hk.
  apply (for_of_invariant (λ t, Js.get k t = Js.get k tree) _ _ _ _ eq_refl)
    in Hloop; [done|].
  intros b [key value] b' Hin Hb Hentry. rewrite <- Hb.
  eapply getSortable_entry_frame; [done|].
  intros ->. apply Hk. apply list_elem_of_fmap. by exists (key, value).
Qed.

(** What the result of [getSortable] holds under the key of a child. *)
Lemma getSortable_lookup (fuel : nat) (schema : ref) shape key value tree :
  shape_entries σ schema = Return shape → NoDup (shape.*1) →
  (key, value) ∈ shape →
  getSortable σ (S fuel) schema = Return tree →
  if instanceof_ZodObject σ value then
    ∃ nested, getSortable σ fuel value = Return nested ∧
              Js.get key tree =
                if Js.nonempty nested then Some (CTree nested) else None
  else
    Js.get key tree = if flagged σ isSortable value then Some CTrue else None.
Proof.
  intros Hshape Hnd Hin. simpl. rewrite Hshape. simpl. intros Hloop.
  destruct (split_entry _ _ _ Hin Hnd) as (pre & post & -> & Hpre & Hpost).
  apply for_of_Return_inv in Hloop as (tree1 & tree2 & H1 & H2 & H3).
  apply getSortable_loop_frame with (k := key) in H1; [|done].
  apply getSortable_loop_frame with (k := key) in H3; [|done].
  rewrite H3. simpl in H1. rewrite getSortable_entry_eq in H2.
  destruct (instanceof_ZodObject σ value).
  - destruct (getSortable σ fuel value) as [nested| |]; simpl in H2; try done.
    injection H2 as <-. exists nested. split; [done|].
    rewrite get_keep_nested, String.eqb_refl, H1. simpl.
    by destruct (Js.nonempty nested).
  - destruct (σ !! value); [|done]. injection H2 as <-.
    destruct (flagged σ isSortable value); [|done]. by rewrite get_set_eq.
Qed.

(** *** [getQueryable] *)

Lemma getQueryable_entry_frame rec tree entry tree' (k : string) :
  getQueryable_entry σ rec tree entry = Return tree' →
  k ∉ queryable_writes σ entry →
  Js.get k tree' = Js.get k tree.
Proof.
  destruct entry as [key value]. rewrite getQueryable_entry_eq.
  unfold queryable_writes. simpl. intros Hentry Hk.
  destruct (instanceof_ZodObject σ value).
  - destruct (rec value) as [nested| |]; simpl in Hentry; try done.
    injection Hentry as <-. rewrite get_keep_nested.
    assert (key ≠ k) as Hne
      by (intros ->; apply Hk, list_elem_of_here).
    apply String.eqb_neq in Hne. by rewrite Hne.
  - destruct (σ !! value); [|done]. injection Hentry as <-.
    rewrite get_aliases. by rewrite bool_decide_eq_false_2.
Qed.

Lemma getQueryable_loop_frame rec shape tree tree' (k : string) :
  for_of shape tree (getQueryable_entry σ rec) = Return tree' →
  (∀ entry, entry ∈ shape → k ∉ queryable_writes σ entry) →
  Js.get k tree' = Js.get k tree.
Proof.
  intros Hloop Hk.
  apply (for_of_invariant (λ t, Js.get k t = Js.get k tree) _ _ _ _ eq_refl)
    in Hloop; [done|].
  intros b entry b' Hin Hb Hentry. rewrite <- Hb.
  eapply getQueryable_entry_frame; [done|]. by apply Hk.
Qed.

(** A name recorded as [true] stays so unless an object child has it as
    its key. *)
Lemma getQueryable_loop_true rec shape tree tree' (k : string) :
  for_of shape tree (getQueryable_entry σ rec) = Return tree' →
  Js.get k tree = Some CTrue →
  (∀ entry, entry ∈ shape → instanceof_ZodObject σ entry.2 = true → entry.1 ≠ k) →
  Js.get k tree' = Some CTrue.
Proof.
  intros Hloop Htrue Hk.
  apply (for_of_invariant (λ t, Js.get k t = Some CTrue) _ _ _ _ Htrue)
    in Hloop; [done|].
  intros b [key value] b' Hin Hb. rewrite getQueryable_entry_eq.
  destruct (instanceof_ZodObject σ value) eqn:Hobj.
  - destruct (rec value) as [nested| |]; simpl; try done.
    intros [= <-]. rewrite get_keep_nested.
    pose proof (Hk _ Hin Hobj) as Hne. simpl in Hne.
    apply String.eqb_neq in Hne. by rewrite Hne.
  - destruct (σ !! value); [|done]. intros [= <-].
    rewrite get_aliases. by destruct (bool_decide _).
Qed.

(** The names written by the other children of a shape without duplicate
    keys, when no leaf writes [key] as an alias. *)
Lemma queryable_writes_others (l : list (string * ref)) (key : string) :
  key ∉ (l.*1) →
  (∀ entry, entry ∈ l → instanceof_ZodObject σ entry.2 = false →
            key ∉ queryable_names σ entry.1 entry.2) →
  ∀ entry, entry ∈ l → key ∉ queryable_writes σ entry.
Proof.
  intros Hkey Hleaves entry Hin. unfold queryable_writes.
  destruct (instanceof_ZodObject σ entry.2) eqn:Hobj; [|by apply Hleaves].
  intros Hk. apply list_elem_of_singleton in Hk. apply Hkey.
  apply list_elem_of_fmap. by exists entry.
Qed.

(** What the result of [getQueryable] holds under the key of a child,
    when no other child has that key among its aliases. *)
Lemma getQueryable_lookup (fuel : nat) (schema : ref) shape key value tree :
  shape_entries σ schema = Return shape → NoDup (shape.*1) →
  (key, value) ∈ shape →
  (∀ entry, entry ∈ shape → entry ≠ (key, value) →
            instanceof_ZodObject σ entry.2 = false →
            key ∉ queryable_names σ entry.1 entry.2) →
  getQueryable σ (S fuel) schema = Return tree →
  if instanceof_ZodObject σ value then
    ∃ nested, getQueryable σ fuel value = Return nested ∧
              Js.get key tree =
                if Js.nonempty nested then Some (CTree nested) else None
  else
    Js.get key tree =
      if bool_decide (key ∈ queryable_names σ key value) then Some CTrue
      else None.
Proof.
  intros Hshape Hnd Hin Hothers. simpl. rewrite Hshape. simpl. intros Hloop.
  destruct (split_entry _ _ _ Hin Hnd) as (pre & post & -> & Hpre & Hpost).
  assert (∀ l, l ⊆ (pre ++ (key, value) :: post)%list → key ∉ (l.*1) →
               ∀ entry, entry ∈ l → key ∉ queryable_writes σ entry) as Hframe.
  { intros l Hl Hkl. apply queryable_writes_others; [done|].
    intros entry Hentry. apply Hothers; [by apply Hl|].
    intros ->. apply Hkl. apply list_elem_of_fmap. by exists (key, value). }
  apply for_of_Return_inv in Hloop as (tree1 & tree2 & H1 & H2 & H3).
  apply getQueryable_loop_frame with (k := key) in H1;
    [|apply Hframe; [|done]; intros x Hx; apply elem_of_app; by left].
  apply getQueryable_loop_frame with (k := key) in H3;
    [|apply Hframe; [|done]; intros x Hx; apply elem_of_app; right;
      by apply list_elem_of_further].
  rewrite H3. simpl in H1. rewrite getQueryable_entry_eq in H2.
  destruct (instanceof_ZodObject σ value).
  - destruct (getQueryable σ fuel value) as [nested| |]; simpl in H2; try done.
    injection H2 as <-. exists nested. split; [done|].
    rewrite get_keep_nested, String.eqb_refl, H1. simpl.
    by destruct (Js.nonempty nested).
  - destruct (σ !! value); [|done]. injection H2 as <-.
    rewrite get_aliases. by rewrite H1.
Qed.
End lookup_facts.

(** ** What the result of [getFilterable] holds under a name *)

Section getFilterable_lookup_facts.
Variable σ : heap.
Implicit Types (tree : list (string * capability)) (visited : WeakSet).

Lemma try_catch_Return {S A} (body : M S A) (handler : exn → M S A)
    (s s' : S) (a : A) :
  body s = (Return a, s') → try_catch body handler s = (Return a, s').
Proof. unfold try_catch. by intros ->. Qed.

Lemma getFilterable_loop_returns (fuel : nat) shape tree visited :
  (length (unvisited σ visited) < fuel)%nat → pruned tree = true →
  filterable_post visited
    (for_ofM shape tree (getFilterable_entry σ (getFilterable σ fuel)) visited).
Proof.
  intros Hfuel Hpruned.
  destruct (for_ofM_returns
              (λ tree' visited',
                 visited ⊆ visited' ∧ (NoDup visited → NoDup visited') ∧
                 pruned tree' = true)
              shape tree (getFilterable_entry σ (getFilterable σ fuel)) visited)
    as (tree' & visited' & Heq & ? & ? & ?).
  - done.
  - intros b [key value] t _ (Hsub & Hnd & Hpr).
    pose proof (unvisited_subseteq σ _ _ Hsub).
    destruct (getFilterable_entry_returns σ fuel (getFilterable σ fuel) b key value t)
      as (tree0 & t0 & -> & ? & ? & ?); [|lia|done|].
    + intros target visited0 ? ?. by apply getFilterable_returns.
    + exists tree0, t0. split; [done|]. split; [by etrans|]. split; [|done]. auto.
  - by exists tree', visited'.
Qed.

(** A round of the loop leaves the other names alone. *)
Lemma getFilterable_entry_frame rec tree key value visited tree' visited'
    (k : string) :
  getFilterable_entry σ rec tree (key, value) visited = (Return tree', visited') →
  k ≠ key → Js.get k tree' = Js.get k tree.
Proof.
  intros Hentry Hk. apply not_eq_sym, String.eqb_neq in Hk.
  assert (∀ target r,
            getFilterable_nested rec target key tree visited = r →
            r = (Return tree', visited') ∨
            (∃ e, r = (Throw e, visited') ∧ tree' = tree) →
            Js.get k tree' = Js.get k tree) as Hnested.
  { intros target r <-. rewrite getFilterable_nested_eq.
    destruct (bool_decide (target ∈ visited)).
    - intros [[= <- _]|(e & [=] & _)]. done.
    - destruct (rec target visited) as [[nested|e'|] v0].
      + intros [[= <- _]|(e & [=] & _)]. rewrite get_keep_nested. by rewrite Hk.
      + intros [[=]|(e & _ & ->)]. done.
      + intros [[=]|(e & [=] & _)]. }
  rewrite getFilterable_entry_eq in Hentry.
  destruct (σ !! value) as [v|]; [|by injection Hentry as <- _].
  destruct (throwing σ value); [by injection Hentry as <- _|].
  destruct (composite_child σ value) as [target|].
  - destruct (def v);
      try (eapply Hnested; [reflexivity | left; exact Hentry]).
    unfold try_catch in Hentry.
    destruct (getFilterable_nested rec target key tree visited)
      as [[tree0|e|] v0] eqn:E.
    + eapply Hnested; [exact E | by left].
    + unfold ret in Hentry. injection Hentry as <- <-.
      eapply Hnested; [exact E | right; eauto].
    + done.
  - injection Hentry as <- _.
    destruct (extended v && isFilterable v); [|done].
    rewrite get_set. by rewrite Hk.
Qed.

Lemma getFilterable_loop_frame rec shape tree visited tree' visited' (k : string) :
  for_ofM shape tree (getFilterable_entry σ rec) visited = (Return tree', visited') →
  k ∉ (shape.*1) → Js.get k tree' = Js.get k tree.
Proof.
  intros Hloop Hk.
  apply (for_ofM_invariant (λ t _, Js.get k t = Js.get k tree) _ _ _ _ _ _ eq_refl)
    in Hloop; [done|].
  intros b [key value] t b' t' Hin Hb Hentry. rewrite <- Hb.
  eapply getFilterable_entry_frame; [done|].
  intros ->. apply Hk. apply list_elem_of_fmap. by exists (key, value).
Qed.

(** What the result holds under the key of a child: the visited set
    [visited1] is the one that the loop has reached when it comes to the
    child. *)
Lemma getFilterable_lookup (fuel : nat) (schema : ref) pre key value post
    visited tree visited' :
  (length σ ≤ fuel)%nat →
  shape_entries σ schema = Return (pre ++ (key, value) :: post)%list →
  NoDup ((pre ++ (key, value) :: post)%list.*1) →
  schema ∉ visited →
  getFilterable σ (S fuel) schema visited = (Return tree, visited') →
  ∃ tree1 visited1,
    for_ofM pre [] (getFilterable_entry σ (getFilterable σ fuel))
      (schema :: visited) = (Return tree1, visited1) ∧
    schema :: visited ⊆ visited1 ∧
    match composite_child σ value with
    | Some target =>
        if bool_decide (target ∈ visited1) then Js.get key tree = None
        else
          ∃ nested visited2,
            getFilterable σ fuel target visited1 = (Return nested, visited2) ∧
            Js.get key tree =
              if Js.nonempty nested then Some (CTree nested) else None
    | None =>
        Js.get key tree =
          if negb (throwing σ value) && flagged σ isFilterable value
          then Some CTrue else None
    end.
Proof.
  intros Hfuel Hshape Hnd Hseen Hget.
  rewrite (getFilterable_unfold σ fuel schema _ visited Hshape Hseen) in Hget.
  assert (is_Some (σ !! schema)) as Hsome.
  { apply instanceof_ZodObject_is_Some, instanceof_ZodObject_shape. eauto. }
  pose proof (unvisited_add σ visited schema Hsome Hseen) as Hlt.
  pose proof (unvisited_length σ visited) as Hlen.
  rewrite fmap_app, fmap_cons in Hnd. simpl in Hnd.
  apply NoDup_app in Hnd as (_ & Hpre & Hpost).
  apply NoDup_cons in Hpost as [Hpost _].
  assert (key ∉ pre.*1) as Hpre'
    by (intros Hk; apply (Hpre key Hk); apply list_elem_of_here).
  apply for_ofM_Return_inv in Hget
    as (tree1 & visited1 & tree2 & visited2 & H1 & H2 & H3).
  exists tree1, visited1. split; [done|].
  destruct (getFilterable_loop_returns fuel pre [] (schema :: visited))
    as (t & v & Heq & Hsub & _); [lia | done |].
  rewrite H1 in Heq. injection Heq as <- <-. split; [done|].
  pose proof (unvisited_subseteq σ _ _ Hsub) as Hle.
  apply getFilterable_loop_frame with (k := key) in H1; [|done].
  apply getFilterable_loop_frame with (k := key) in H3; [|done].
  rewrite H3. simpl in H1. rewrite getFilterable_entry_eq in H2.
  unfold flagged.
  destruct (σ !! value) as [v0|] eqn:Hv.
  2:{ assert (composite_child σ value = None) as ->
        by (unfold composite_child; by rewrite Hv).
      injection H2 as <- _. by rewrite andb_false_r. }
  destruct (throwing σ value) eqn:Hthrow.
  { assert (composite_child σ value = None) as ->.
    { unfold composite_child, throwing in *. rewrite Hv in *.
      destruct v0 as [[| |[]|] ? ?]; done. }
    by injection H2 as <- _. }
  destruct (composite_child σ value) as [target|] eqn:Hchild.
  - pose proof (composite_child_object _ _ _ Hchild) as Hobj.
    assert (∀ r, getFilterable_nested (getFilterable σ fuel) target key tree1
                   visited1 = (Return r.1, r.2) →
                 (tree2, visited2) = r) as Hnested.
    { intros [t v] Heq. simpl in Heq.
      destruct (def v0); rewrite ?(try_catch_Return _ _ _ _ _ Heq) in H2;
        rewrite ?Heq in H2; by injection H2 as <- <-. }
    rewrite getFilterable_nested_eq in Hnested.
    destruct (bool_decide (target ∈ visited1)).
    + specialize (Hnested (tree1, visited1) eq_refl).
      by injection Hnested as -> _.
    + destruct (getFilterable_returns σ fuel target visited1)
        as (nested & v2 & Heq & _); [lia | done |].
      rewrite Heq in Hnested |- *.
      specialize (Hnested (keep_nested key nested tree1, v2) eq_refl).
      injection Hnested as -> _. exists nested, v2. split; [done|].
      rewrite get_keep_nested, String.eqb_refl, H1. simpl.
      by destruct (Js.nonempty nested).
  - injection H2 as <- _. simpl.
    destruct (extended v0 && isFilterable v0); [|done]. by rewrite get_set_eq.
Qed.
End getFilterable_lookup_facts.

(** ** The visited set only grows *)

Section growth_facts.
Variable σ : heap.

Lemma for_ofM_grows {A B} (xs : list A) (acc : B)
    (body : B → A → M WeakSet B) (s : WeakSet) out (s' : WeakSet) :
  (∀ b x t out' t', body b x t = (out', t') → t ⊆ t') →
  for_ofM xs acc body s = (out, s') → s ⊆ s'.
Proof.
  intros Hbody. revert acc s.
  induction xs as [|x xs IH]; intros acc s; simpl.
  - by intros [= _ <-].
  - unfold bindM at 1.
    destruct (body acc x s) as [[b|e|] t] eqn:E; apply Hbody in E.
    + intros Hrest. apply IH in Hrest. by etrans.
    + by intros [= _ <-].
    + by intros [= _ <-].
Qed.

Lemma try_catch_grows {A} (body : M WeakSet A) (handler : exn → M WeakSet A)
    (s : WeakSet) out (s' : WeakSet) :
  (∀ o t, body s = (o, t) → s ⊆ t) →
  (∀ e t o t', handler e t = (o, t') → t ⊆ t') →
  try_catch body handler s = (out, s') → s ⊆ s'.
Proof.
  unfold try_catch. intros Hbody Hhandler.
  destruct (body s) as [[a|e|] t] eqn:E; specialize (Hbody _ _ eq_refl).
  - by intros [= _ <-].
  - intros Hh. apply Hhandler in Hh. by etrans.
  - by intros [= _ <-].
Qed.

Lemma getFilterable_nested_grows rec target key tree visited out visited' :
  (∀ o v, rec target visited = (o, v) → visited ⊆ v) →
  getFilterable_nested rec target key tree visited = (out, visited') →
  visited ⊆ visited'.
Proof.
  rewrite getFilterable_nested_eq. intros Hrec.
  destruct (bool_decide (target ∈ visited)); [by intros [= _ <-]|].
  destruct (rec target visited) as [[nested|e|] v] eqn:E;
    specialize (Hrec _ _ eq_refl); by intros [= _ <-].
Qed.

Lemma getFilterable_entry_grows rec tree entry visited out visited' :
  (∀ target visited0 o v, rec target visited0 = (o, v) → visited0 ⊆ v) →
  getFilterable_entry σ rec tree entry visited = (out, visited') →
  visited ⊆ visited'.
Proof.
  destruct entry as [key value]. intros Hrec.
  rewrite getFilterable_entry_eq.
  destruct (σ !! value) as [v|]; [|by intros [= _ <-]].
  destruct (throwing σ value); [by intros [= _ <-]|].
  destruct (composite_child σ value) as [target|]; [|by intros [= _ <-]].
  destruct (def v);
    try (apply getFilterable_nested_grows; intros o v'; apply Hrec).
  apply try_catch_grows.
  - intros o t. apply getFilterable_nested_grows. intros o' v'. apply Hrec.
  - by intros e t o t' [= _ <-].
Qed.

Lemma getFilterable_grows (fuel : nat) (schema : ref) visited out visited' :
  getFilterable σ fuel schema visited = (out, visited') → visited ⊆ visited'.
Proof.
  revert schema visited out visited'.
  induction fuel as [|fuel IH]; intros schema visited out visited';
    [by intros [= _ <-]|].
  simpl. unfold bindM at 1. unfold WeakSet_has at 1.
  destruct (bool_decide (schema ∈ visited)); [by intros [= _ <-]|].
  unfold bindM at 1. unfold WeakSet_add at 1.
  destruct (σ !! schema); [|by intros [= _ <-]].
  unfold bindM at 1. unfold lift at 1.
  destruct (shape_entries σ schema) as [shape|e|];
    [|intros [= _ <-]; intros x Hx; by apply list_elem_of_further..].
  intros Hloop. apply for_ofM_grows in Hloop.
  - intros x Hx. apply Hloop. by apply list_elem_of_further.
  - intros b x t out' t'. apply getFilterable_entry_grows.
    intros target visited0 o v. apply IH.
Qed.

(** A call on a node of the heap leaves the node in the visited set. *)
Lemma getFilterable_marks (fuel : nat) (schema : ref) visited out visited' :
  is_Some (σ !! schema) →
  getFilterable σ (S fuel) schema visited = (out, visited') →
  schema ∈ visited'.
Proof.
  intros [node Hnode]. simpl. unfold bindM at 1. unfold WeakSet_has at 1.
  destruct (bool_decide (schema ∈ visited)) eqn:Hseen;
    [intros [= _ <-]; by apply bool_decide_eq_true in Hseen|].
  unfold bindM at 1. unfold WeakSet_add at 1. rewrite Hnode.
  unfold bindM at 1. unfold lift at 1.
  destruct (shape_entries σ schema) as [shape|e|];
    [|intros [= _ <-]; apply list_elem_of_here..].
  intros Hloop. apply for_ofM_grows in Hloop.
  - apply Hloop, list_elem_of_here.
  - intros b x t out' t'. apply getFilterable_entry_grows.
    intros target visited0 o v. apply getFilterable_grows.
Qed.

Lemma getPath_nested_grows rec target fullKeyPath merge paths visited out
    visited' :
  (∀ o v, rec target fullKeyPath visited = (o, v) → visited ⊆ v) →
  getPath_nested rec target fullKeyPath merge paths visited = (out, visited') →
  visited ⊆ visited'.
Proof.
  rewrite getPath_nested_eq. intros Hrec.
  destruct (bool_decide (target ∈ visited)); [by intros [= _ <-]|].
  destruct (rec target fullKeyPath visited) as [[nested|e|] v] eqn:E;
    specialize (Hrec _ _ eq_refl); by intros [= _ <-].
Qed.

Lemma getPath_entry_grows rec parentKey paths entry visited out visited' :
  (∀ target fullKeyPath visited0 o v,
      rec target fullKeyPath visited0 = (o, v) → visited0 ⊆ v) →
  getPath_entry σ rec parentKey paths entry visited = (out, visited') →
  visited ⊆ visited'.
Proof.
  destruct entry as [key value]. intros Hrec.
  rewrite getPath_entry_eq.
  destruct (σ !! value) as [v|]; [|by intros [= _ <-]].
  destruct (throwing σ value); [by intros [= _ <-]|].
  destruct (composite_child σ value) as [target|]; [|by intros [= _ <-]].
  destruct (def v);
    try (apply getPath_nested_grows; intros o v'; apply Hrec).
  apply try_catch_grows.
  - intros o t. apply getPath_nested_grows. intros o' v'. apply Hrec.
  - by intros e t o t' [= _ <-].
Qed.

Lemma getPath_grows (fuel : nat) (schema : ref) parentKey visited out visited' :
  getPath σ fuel schema parentKey visited = (out, visited') →
  visited ⊆ visited'.
Proof.
  revert schema parentKey visited out visited'.
  induction fuel as [|fuel IH]; intros schema parentKey visited out visited';
    [by intros [= _ <-]|].
  simpl. unfold bindM at 1. unfold WeakSet_has at 1.
  destruct (bool_decide (schema ∈ visited)); [by intros [= _ <-]|].
  unfold bindM at 1. unfold WeakSet_add at 1.
  destruct (σ !! schema); [|by intros [= _ <-]].
  unfold bindM at 1. unfold lift at 1.
  destruct (shape_entries σ schema) as [shape|e|];
    [|intros [= _ <-]; intros x Hx; by apply list_elem_of_further..].
  intros Hloop. apply for_ofM_grows in Hloop.
  - intros x Hx. apply Hloop. by apply list_elem_of_further.
  - intros b x t out' t'. apply getPath_entry_grows.
    intros target fullKeyPath visited0 o v. apply IH.
Qed.

Lemma getPath_marks (fuel : nat) (schema : ref) parentKey visited out visited' :
  is_Some (σ !! schema) →
  getPath σ (S fuel) schema parentKey visited = (out, visited') →
  schema ∈ visited'.
Proof.
  intros [node Hnode]. simpl. unfold bindM at 1. unfold WeakSet_has at 1.
  destruct (bool_decide (schema ∈ visited)) eqn:Hseen;
    [intros [= _ <-]; by apply bool_decide_eq_true in Hseen|].
  unfold bindM at 1. unfold WeakSet_add at 1. rewrite Hnode.
  unfold bindM at 1. unfold lift at 1.
  destruct (shape_entries σ schema) as [shape|e|];
    [|intros [= _ <-]; apply list_elem_of_here..].
  intros Hloop. apply for_ofM_grows in Hloop.
  - apply Hloop, list_elem_of_here.
  - intros b x t out' t'. apply getPath_entry_grows.
    intros target fullKeyPath visited0 o v. apply getPath_grows.
Qed.

(** A round of the loop of [getFilterable] on a composite child leaves
    the object of the child in the visited set. *)
Lemma getFilterable_entry_marks (fuel : nat) tree key value target visited
    tree' visited' :
  composite_child σ value = Some target →
  getFilterable_entry σ (getFilterable σ fuel) tree (key, value) visited =
    (Return tree', visited') →
  target ∈ visited'.
Proof.
  intros Hchild. rewrite getFilterable_entry_eq, Hchild.
  pose proof (composite_child_object _ _ _ Hchild) as Hobj.
  apply instanceof_ZodObject_is_Some in Hobj.
  destruct (σ !! value) as [v|] eqn:Hv;
    [|unfold composite_child in Hchild; by rewrite Hv in Hchild].
  destruct (throwing σ value) eqn:Hthrow.
  { unfold composite_child, throwing in *. rewrite Hv in *.
    destruct v as [[| |[]|] ? ?]; done. }
  assert (∀ out v', getFilterable_nested (getFilterable σ fuel) target key tree
                      visited = (out, v') →
                    out ≠ OutOfFuel → target ∈ v') as Hnested.
  { intros out v'. rewrite getFilterable_nested_eq.
    destruct (bool_decide (target ∈ visited)) eqn:Hseen;
      [intros [= _ <-] _; by apply bool_decide_eq_true in Hseen|].
    destruct fuel as [|fuel']; [by intros [= <- _]|].
    destruct (getFilterable σ (S fuel') target visited) as [o v2] eqn:E.
    apply getFilterable_marks in E; [|done].
    destruct o; by intros [= _ <-]. }
  destruct (def v); try (intros H; by apply Hnested in H).
  unfold try_catch.
  destruct (getFilterable_nested (getFilterable σ fuel) target key tree visited)
    as [[t|e|] v'] eqn:E; pose proof (Hnested _ _ eq_refl) as Hin;
    try done; intros [= _ <-]; by apply Hin.
Qed.
End growth_facts.

(** The same, when getters build some of the nodes. *)

Section built_growth_facts.
Variable σ : heap.
Variable built : list ref.

Lemma Built_getFilterable_grows (fuel : nat) (schema : ref) visited out visited' :
  Built.getFilterable σ built fuel schema visited = (out, visited') →
  visited ⊆ visited'.
Proof.
  revert schema visited out visited'.
  induction fuel as [|fuel IH]; intros schema visited out visited';
    [by intros [= _ <-]|].
  simpl. unfold bindM at 1. unfold WeakSet_has at 1.
  destruct (bool_decide (schema ∈ visited)); [by intros [= _ <-]|].
  unfold bindM at 1. unfold Built.WeakSet_add at 1.
  destruct (σ !! schema); [|by intros [= _ <-]].
  assert (visited ⊆ (if bool_decide (schema ∈ built) then visited
                     else schema :: visited)) as Hsub.
  { destruct (bool_decide (schema ∈ built)); [done|].
    intros x Hx. by apply list_elem_of_further. }
  unfold bindM at 1. unfold lift at 1.
  destruct (shape_entries σ schema) as [shape|e|]; [|by intros [= _ <-]..].
  intros Hloop. apply for_ofM_grows in Hloop.
  - by etrans.
  - intros b x t out' t'. apply getFilterable_entry_grows.
    intros target visited0 o v. apply IH.
Qed.




End built_growth_facts.

(** ** The same, when getters build some of the nodes *)

Section built_lookup_facts.
Variable σ : heap.
Variable built : list ref.
Implicit Types (tree : list (string * capability)) (visited : WeakSet).

Lemma for_ofM_no_throw {S A B} (xs : list A) (acc : B) (body : B → A → M S B)
    (s : S) (e : exn) (s' : S) :
  (∀ b x t e' t', x ∈ xs → body b x t ≠ (Throw e', t')) →
  for_ofM xs acc body s ≠ (Throw e, s').
Proof.
  revert acc s. induction xs as [|x xs IH]; intros acc s Hbody; simpl; [done|].
  unfold bindM at 1.
  destruct (body acc x s) as [[acc'|e'|] s1] eqn:E; [| |done].
  - apply IH. intros b y t e' t' Hy. apply Hbody. by apply list_elem_of_further.
  - exfalso. eapply Hbody; [apply list_elem_of_here | exact E].
Qed.

(** A round of the loop of [getFilterable] throws nothing when the calls
    on objects throw nothing. *)
Lemma getFilterable_entry_no_throw rec tree key value visited e visited' :
  (∀ target visited0 e' v,
      instanceof_ZodObject σ target = true →
      rec target visited0 ≠ (Throw e', v)) →
  getFilterable_entry σ rec tree (key, value) visited ≠ (Throw e, visited').
Proof.
  intros Hrec. rewrite getFilterable_entry_eq.
  destruct (σ !! value) as [v|]; [|done].
  destruct (throwing σ value); [done|].
  destruct (composite_child σ value) as [target|] eqn:Hchild; [|done].
  apply composite_child_object in Hchild.
  assert (∀ e' v', getFilterable_nested rec target key tree visited ≠
                     (Throw e', v')) as Hnested.
  { intros e' v'. rewrite getFilterable_nested_eq.
    destruct (bool_decide (target ∈ visited)); [done|].
    destruct (rec target visited) as [[nested|e0|] v0] eqn:E; [done| |done].
    exfalso. by eapply Hrec. }
  destruct (def v); try apply Hnested.
  unfold try_catch.
  destruct (getFilterable_nested rec target key tree visited)
    as [[t|e0|] v0] eqn:E; [done| |done].
  exfalso. by eapply Hnested.
Qed.

Lemma Built_getFilterable_no_throw (fuel : nat) (schema : ref) visited e visited' :
  instanceof_ZodObject σ schema = true →
  Built.getFilterable σ built fuel schema visited ≠ (Throw e, visited').
Proof.
  revert schema visited e visited'.
  induction fuel as [|fuel IH]; intros schema visited e visited' Hobj; [done|].
  simpl. unfold bindM at 1. unfold WeakSet_has at 1.
  destruct (bool_decide (schema ∈ visited)); [done|].
  unfold bindM at 1. unfold Built.WeakSet_add at 1.
  destruct (instanceof_ZodObject_is_Some _ _ Hobj) as [node ->].
  apply instanceof_ZodObject_shape in Hobj as [shape ->].
  unfold bindM at 1. unfold lift at 1.
  apply for_ofM_no_throw. intros b [key value] t e' t' _.
  apply getFilterable_entry_no_throw. intros target visited0 e0 v. apply IH.
Qed.



(** The call of [getFilterable] on an object that is not in the visited
    set is the loop over its shape, from the set that [visited.add]
    returns. *)
Lemma Built_getFilterable_unfold (fuel : nat) (schema : ref) shape visited :
  shape_entries σ schema = Return shape → schema ∉ visited →
  Built.getFilterable σ built (S fuel) schema visited =
    for_ofM shape [] (getFilterable_entry σ (Built.getFilterable σ built fuel))
      (Built.WeakSet_add σ built schema visited).2.
Proof.
  intros Hshape Hseen. simpl. unfold bindM at 1. unfold WeakSet_has at 1.
  rewrite bool_decide_eq_false_2 by done.
  unfold bindM at 1. unfold Built.WeakSet_add.
  assert (is_Some (σ !! schema)) as [node Hnode].
  { apply instanceof_ZodObject_is_Some, instanceof_ZodObject_shape. eauto. }
  rewrite Hnode. unfold bindM at 1. unfold lift at 1. by rewrite Hshape.
Qed.

(** What the result holds under the key of a child: the visited set
    [visited1] is the one that the loop has reached when it comes to the
    child. *)
Lemma Built_getFilterable_lookup (fuel : nat) (schema : ref) pre key value post
    visited tree visited' :
  shape_entries σ schema = Return (pre ++ (key, value) :: post)%list →
  NoDup ((pre ++ (key, value) :: post)%list.*1) →
  schema ∉ visited →
  Built.getFilterable σ built (S fuel) schema visited = (Return tree, visited') →
  ∃ tree1 visited1,
    for_ofM pre [] (getFilterable_entry σ (Built.getFilterable σ built fuel))
      (Built.WeakSet_add σ built schema visited).2 = (Return tree1, visited1) ∧
    (Built.WeakSet_add σ built schema visited).2 ⊆ visited1 ∧
    match composite_child σ value with
    | Some target =>
        if bool_decide (target ∈ visited1) then Js.get key tree = None
        else
          ∃ nested visited2,
            Built.getFilterable σ built fuel target visited1 =
              (Return nested, visited2) ∧
            Js.get key tree =
              if Js.nonempty nested then Some (CTree nested) else None
    | None =>
        Js.get key tree =
          if negb (throwing σ value) && flagged σ isFilterable value
          then Some CTrue else None
    end.
Proof.
  intros Hshape Hnd Hseen Hget.
  rewrite (Built_getFilterable_unfold fuel schema _ visited Hshape Hseen) in Hget.
  rewrite fmap_app, fmap_cons in Hnd. simpl in Hnd.
  apply NoDup_app in Hnd as (_ & Hpre & Hpost).
  apply NoDup_cons in Hpost as [Hpost _].
  assert (key ∉ pre.*1) as Hpre'
    by (intros Hk; apply (Hpre key Hk); apply list_elem_of_here).
  apply for_ofM_Return_inv in Hget
    as (tree1 & visited1 & tree2 & visited2 & H1 & H2 & H3).
  exists tree1, visited1. split; [done|]. split.
  { apply for_ofM_grows in H1; [done|].
    intros b x t out' t'. apply getFilterable_entry_grows.
    intros target visited0 o v. apply Built_getFilterable_grows. }
  apply getFilterable_loop_frame with (k := key) in H1; [|done].
  apply getFilterable_loop_frame with (k := key) in H3; [|done].
  rewrite H3. simpl in H1. rewrite getFilterable_entry_eq in H2.
  unfold flagged.
  destruct (σ !! value) as [v0|] eqn:Hv.
  2:{ assert (composite_child σ value = None) as ->
        by (unfold composite_child; by rewrite Hv).
      injection H2 as <- _. by rewrite andb_false_r. }
  destruct (throwing σ value) eqn:Hthrow.
  { assert (composite_child σ value = None) as ->.
    { unfold composite_child, throwing in *. rewrite Hv in *.
      destruct v0 as [[| |[]|] ? ?]; done. }
    by injection H2 as <- _. }
  destruct (composite_child σ value) as [target|] eqn:Hchild.
  - pose proof (composite_child_object _ _ _ Hchild) as Hobj.
    assert (∃ v, getFilterable_nested (Built.getFilterable σ built fuel) target
                   key tree1 visited1 = (Return tree2, v)) as [v Hnested].
    { destruct (def v0); eauto.
      unfold try_catch in H2.
      destruct (getFilterable_nested (Built.getFilterable σ built fuel) target
                  key tree1 visited1) as [[t|e|] v] eqn:E; [| |done].
      - injection H2 as <- _. eauto.
      - exfalso. revert E. rewrite getFilterable_nested_eq.
        destruct (bool_decide (target ∈ visited1)); [done|].
        destruct (Built.getFilterable σ built fuel target visited1)
          as [[nested|e0|] v1] eqn:E0; [done| |done].
        by apply Built_getFilterable_no_throw in E0. }
    rewrite getFilterable_nested_eq in Hnested.
    destruct (bool_decide (target ∈ visited1)).
    + by injection Hnested as <- _.
    + destruct (Built.getFilterable σ built fuel target visited1)
        as [[nested|e0|] v1]; [|done..].
      injection Hnested as <- _. exists nested, v1. split; [done|].
      rewrite get_keep_nested, String.eqb_refl, H1. simpl.
      by destruct (Js.nonempty nested).
  - injection H2 as <- _. simpl.
    destruct (extended v0 && isFilterable v0); [|done]. by rewrite get_set_eq.
Qed.

End built_lookup_facts.

(** ** Dotted keys *)

Section string_facts.
Implicit Types (s t : string) (a : Ascii.ascii).

Lemma is_dot a : (Ascii.N_of_ascii a =? 46)%N = Ascii.eqb a dot.
Proof. destruct a as [[] [] [] [] [] [] [] []]; reflexivity. Qed.

Lemma append_cons a s t : String a s +:+ t = String a (s +:+ t).
Proof. reflexivity. Qed.

Lemma append_empty_l s : EmptyString +:+ s = s.
Proof. reflexivity. Qed.

Lemma append_empty_r s : s +:+ EmptyString = s.
Proof.
  induction s as [|a s IH]; [done|]. by rewrite append_cons, IH.
Qed.

Lemma append_snoc acc a s : (acc +:+ String a EmptyString) +:+ s = acc +:+ String a s.
Proof.
  induction acc as [|c acc IH]; [done|]. by rewrite !append_cons, IH.
Qed.

Lemma last_segment_from_dot_free acc s :
  dot_free s = true → Js.last_segment_from acc s = acc +:+ s.
Proof.
  unfold dot_free. revert acc. induction s as [|a s IH]; intros acc; simpl.
  - intros _. by rewrite append_empty_r.
  - rewrite is_dot. destruct (Ascii.eqb a dot); [done|]. intros Hs.
    rewrite IH by done. apply append_snoc.
Qed.

Lemma last_segment_dot_free s : dot_free s = true → Js.last_segment s = s.
Proof. intros Hs. unfold Js.last_segment. by rewrite last_segment_from_dot_free. Qed.

Lemma last_segment_from_dotted acc s t :
  dot_free t = true → Js.last_segment_from acc (s +:+ "." +:+ t) = t.
Proof.
  intros Ht. revert acc. induction s as [|a s IH]; intros acc.
  - rewrite append_empty_l, append_cons. simpl.
    by rewrite last_segment_from_dot_free.
  - rewrite append_cons. simpl.
    destruct (Ascii.N_of_ascii a =? 46)%N; apply IH.
Qed.

Lemma last_segment_dotted s t :
  dot_free t = true → Js.last_segment (s +:+ "." +:+ t) = t.
Proof. apply last_segment_from_dotted. Qed.

Lemma includes_app (c : Ascii.ascii) s t :
  Js.includes c (s +:+ t) = Js.includes c s || Js.includes c t.
Proof.
  induction s as [|a s IH]; [done|]. rewrite append_cons. simpl.
  destruct (Ascii.eqb a c); [done | apply IH].
Qed.

Lemma dotted_not_dot_free s t : dot_free (s +:+ "." +:+ t) = false.
Proof.
  unfold dot_free. rewrite includes_app, append_cons. simpl.
  by rewrite orb_true_r.
Qed.

Lemma dotted_ne s t u : dot_free u = true → u ≠ s +:+ "." +:+ t.
Proof. intros Hu ->. by rewrite dotted_not_dot_free in Hu. Qed.

Lemma append_inj s t u : s +:+ t = s +:+ u → t = u.
Proof.
  induction s as [|a s IH]; [done|]. rewrite !append_cons. intros [= H]. auto.
Qed.

Lemma dotted_inj s t u : s +:+ "." +:+ t = s +:+ "." +:+ u → t = u.
Proof. intros H. apply append_inj in H. by injection H. Qed.

Lemma join_singleton s : Js.join [s] = s.
Proof. reflexivity. Qed.

Lemma join_pair s t : Js.join [s; t] = s +:+ "." +:+ t.
Proof. reflexivity. Qed.
End string_facts.

(** ** Records, continued *)

Section record_entries.
Context {V : Type}.
Implicit Types (k : string) (v : V) (o : list (string * V)).

Lemma elem_of_set k v k' v' o :
  (k', v') ∈ Js.set k v o → (k' = k ∧ v' = v) ∨ (k', v') ∈ o.
Proof.
  induction o as [|[k0 v0] o IH]; simpl.
  - intros H. apply list_elem_of_singleton in H. injection H as -> ->. by left.
  - destruct (String.eqb k k0) eqn:E.
    + intros [[= -> ->]|H]%elem_of_cons; [by left|].
      right. by apply list_elem_of_further.
    + destruct (Js.before k k0).
      * intros [[= -> ->]|H]%elem_of_cons; [by left | by right].
      * intros [[= -> ->]|H]%elem_of_cons; [right; apply list_elem_of_here|].
        destruct (IH H) as [?|?]; [by left|]. right. by apply list_elem_of_further.
Qed.

End record_entries.

(** ** The path index *)

Section getPath_index_facts.
Variable σ : heap.
Implicit Types (paths : list (string * string)) (shape : list (string * ref)).

Lemma leaf_path_eq parentKey key v paths :
  leaf_path parentKey key v paths =
  Js.set (leaf_key parentKey key v) (physical_path parentKey key v) paths.
Proof.
  unfold leaf_path, leaf_key, physical_path, isPath.
  destruct (description_path v); simpl; [by destruct (extended v)|].
  by rewrite andb_false_r.
Qed.

Lemma leaf_key_root key v : leaf_key [] key v = key.
Proof. unfold leaf_key. by destruct (extended v && isPath v). Qed.

Lemma leaf_key_nested parent key v :
  leaf_key [parent] key v = key ∨ leaf_key [parent] key v = parent +:+ "." +:+ key.
Proof. unfold leaf_key. destruct (extended v && isPath v); [by right | by left]. Qed.

Lemma short_key_leaf_key parent key v :
  dot_free key = true →
  short_key parent (leaf_key [parent] key v) = parent +:+ "." +:+ key.
Proof.
  intros Hkey. unfold short_key.
  destruct (leaf_key_nested parent key v) as [-> | ->].
  - by rewrite last_segment_dot_free.
  - by rewrite last_segment_dotted.
Qed.

Lemma getPath_entry_leaf rec parentKey paths key value visited :
  leaf_child σ (key, value) = true →
  getPath_entry σ rec parentKey paths (key, value) visited =
    (Return (leaf_paths σ parentKey [(key, value)] paths), visited).
Proof.
  intros Hleaf. rewrite getPath_entry_eq.
  unfold leaf_child, leaf_paths in *. simpl in *.
  destruct (σ !! value) as [v|]; [|done].
  destruct (throwing σ value); [done|].
  destruct (composite_child σ value); [done|]. by rewrite leaf_path_eq.
Qed.

Lemma leaf_paths_app parentKey shape shape' paths :
  leaf_paths σ parentKey (shape ++ shape') paths =
  leaf_paths σ parentKey shape' (leaf_paths σ parentKey shape paths).
Proof. unfold leaf_paths. by rewrite foldl_app. Qed.

(** The loop over a shape of leaves. *)
Lemma getPath_loop_leaves rec parentKey shape paths visited :
  (∀ entry, entry ∈ shape → leaf_child σ entry = true) →
  for_ofM shape paths (getPath_entry σ rec parentKey) visited =
    (Return (leaf_paths σ parentKey shape paths), visited).
Proof.
  revert paths. induction shape as [|[key value] shape IH]; intros paths Hleaves.
  - reflexivity.
  - cbn [for_ofM]. unfold bindM at 1.
    rewrite getPath_entry_leaf by (apply Hleaves, list_elem_of_here).
    rewrite IH; [done|]. intros entry Hentry.
    by apply Hleaves, list_elem_of_further.
Qed.

Lemma leaf_paths_frame parentKey shape paths (x : string) :
  (∀ entry v, entry ∈ shape → σ !! entry.2 = Some v →
              leaf_key parentKey entry.1 v ≠ x) →
  Js.get x (leaf_paths σ parentKey shape paths) = Js.get x paths.
Proof.
  revert paths. induction shape as [|[key value] shape IH]; intros paths Hkeys;
    [done|].
  change (leaf_paths σ parentKey ((key, value) :: shape) paths)
    with (leaf_paths σ parentKey shape (leaf_paths σ parentKey [(key, value)] paths)).
  rewrite IH.
  - unfold leaf_paths. simpl. destruct (σ !! value) as [v|] eqn:Hv; [|done].
    apply get_set_ne. apply (Hkeys (key, value) v); [apply list_elem_of_here | done].
  - intros entry v Hentry. apply Hkeys. by apply list_elem_of_further.
Qed.

Lemma leaf_paths_entries parentKey shape paths (nk np : string) :
  (nk, np) ∈ leaf_paths σ parentKey shape paths →
  (nk, np) ∈ paths ∨
  ∃ key value v,
    (key, value) ∈ shape ∧ σ !! value = Some v ∧
    nk = leaf_key parentKey key v ∧ np = physical_path parentKey key v.
Proof.
  revert paths. induction shape as [|[key value] shape IH]; intros paths;
    [by left|].
  change (leaf_paths σ parentKey ((key, value) :: shape) paths)
    with (leaf_paths σ parentKey shape (leaf_paths σ parentKey [(key, value)] paths)).
  intros Hin. apply IH in Hin as [Hin|(k & val & v & Hk & ?)].
  - unfold leaf_paths in Hin. simpl in Hin.
    destruct (σ !! value) as [v|] eqn:Hv; [|by left].
    apply elem_of_set in Hin as [[-> ->]|Hin]; [|by left].
    right. exists key, value, v. split; [apply list_elem_of_here | done].
  - right. exists k, val, v. split; [by apply list_elem_of_further | done].
Qed.

Lemma leaf_paths_lookup parentKey pre key value post v paths :
  σ !! value = Some v →
  (∀ entry v', entry ∈ post → σ !! entry.2 = Some v' →
               leaf_key parentKey entry.1 v' ≠ leaf_key parentKey key v) →
  Js.get (leaf_key parentKey key v)
    (leaf_paths σ parentKey (pre ++ (key, value) :: post) paths) =
  Some (physical_path parentKey key v).
Proof.
  intros Hv Hpost.
  rewrite leaf_paths_app.
  change (leaf_paths σ parentKey ((key, value) :: post) ?p)
    with (leaf_paths σ parentKey post (leaf_paths σ parentKey [(key, value)] p)).
  rewrite leaf_paths_frame by done.
  unfold leaf_paths at 1. simpl. rewrite Hv. apply get_set_eq.
Qed.

Lemma merge_object_get key paths (nk np x : string) :
  Js.get x (merge_object key paths (nk, np)) =
    if String.eqb (short_key key nk) x || String.eqb nk x then Some np
    else Js.get x paths.
Proof.
  unfold merge_object. rewrite !get_set.
  by destruct (String.eqb (short_key key nk) x).
Qed.

(** The value that a merge leaves under a name that some entries write,
    all with the same value. *)
Lemma forEach_hit {A V} (merge : list (string * V) → A → list (string * V))
    (hits : A → bool) (value : A → V) (x : string) (y : V) (N : list A)
    (paths : list (string * V)) :
  (∀ acc e, Js.get x (merge acc e) =
            if hits e then Some (value e) else Js.get x acc) →
  (∃ e, e ∈ N ∧ hits e = true) →
  (∀ e, e ∈ N → hits e = true → value e = y) →
  Js.get x (forEach N paths merge) = Some y.
Proof.
  intros Hmerge. unfold forEach.
  induction N as [|e N IH] using rev_ind; intros (e0 & Hin & Hhit) Hvalue.
  - by apply elem_of_nil in Hin.
  - rewrite foldl_app. simpl. rewrite Hmerge.
    destruct (hits e) eqn:He.
    + f_equal. apply Hvalue; [|done]. apply elem_of_app. right.
      apply list_elem_of_here.
    + apply IH.
      * exists e0. split; [|done].
        apply elem_of_app in Hin as [?|Hin]; [done|].
        apply list_elem_of_singleton in Hin. congruence.
      * intros e' Hin'. apply Hvalue. apply elem_of_app. by left.
Qed.

Lemma NoDup_fst_inj {A} (l : list (string * A)) (k : string) (a b : A) :
  NoDup (l.*1) → (k, a) ∈ l → (k, b) ∈ l → a = b.
Proof.
  intros Hnd Ha Hb. apply (get_NoDup k a l Hnd) in Ha.
  apply (get_NoDup k b l Hnd) in Hb. congruence.
Qed.
End getPath_index_facts.

(** ** Operand validation *)

Section validation_facts.
Variable errorMap : issue → string.

Lemma validateOperatorInput_own name schema value lines :
  Js.get name sequelizeOperatorValidators = Some schema →
  validateOperatorInput errorMap name value lines =
    match issues_of schema value with
    | [] => (Return (Some true, None), lines)
    | issues =>
        (Return (None, Some (ErrObject (ZodError issues))),
         (lines ++ [join_comma (issue_message errorMap <$> issues)])%list)
    end.
Proof.
  intros Hget. unfold validateOperatorInput, read. rewrite Hget. simpl.
  unfold try_catch, bindM, lift, call_parse, parse.
  by destruct (issues_of schema value).
Qed.

Lemma validateOperatorInput_inherited name value lines :
  Js.get name sequelizeOperatorValidators = None →
  name ∈ Object_prototype →
  validateOperatorInput errorMap name value lines = (Throw TypeError, lines).
Proof.
  intros Hget Hin. unfold validateOperatorInput, read. rewrite Hget.
  by rewrite bool_decide_eq_true_2.
Qed.

Lemma validateOperatorInput_undefined name value lines :
  Js.get name sequelizeOperatorValidators = None →
  name ∉ Object_prototype →
  validateOperatorInput errorMap name value lines =
    (Throw (Error ("Unsupported operator: " +:+ name)), lines).
Proof.
  intros Hget Hin. unfold validateOperatorInput, read. rewrite Hget.
  by rewrite bool_decide_eq_false_2.
Qed.

Lemma issues_of_any_items (items : list jsval) :
  mjoin (issues_of v_any <$> items) = [].
Proof. induction items as [|item items IH]; [done | by simpl in *]. Qed.

(** The table has an entry for each operator of the vocabulary, and its
    schema accepts the operands of the tabulated shape, no other. *)
Lemma table_entry (op : operator) :
  ∃ schema,
    Js.get (operator_name op) sequelizeOperatorValidators = Some schema ∧
    ∀ value, issues_of schema value = [] ↔ shape_contract op value = true.
Proof.
  destruct op; (eexists; split; [reflexivity|]); intros value;
    destruct value as [| |b|x|s|time|items|fields]; simpl;
    try (split; (done || discriminate));
    try (destruct x; simpl; split; (done || discriminate));
    try (destruct time; simpl; split; (done || discriminate));
    try (rewrite issues_of_any_items; done);
    try (unfold no_percent; destruct (Js.includes percent s); simpl; split;
         (done || discriminate));
    try (destruct items as [|i1 [|i2 [|i3 rest]]]; simpl; split;
         (done || discriminate)).
Qed.

Lemma operator_name_inj op op' : operator_name op = operator_name op' → op = op'.
Proof. destruct op, op'; simpl; intros [=]; reflexivity. Qed.

Lemma operator_of_name_name op : operator_of_name (operator_name op) = Some op.
Proof. by destruct op. Qed.

Lemma operator_of_name_Some name op :
  operator_of_name name = Some op → name = operator_name op.
Proof.
  unfold operator_of_name. intros H. apply find_some in H as [_ H].
  apply String.eqb_eq in H. done.
Qed.

(** The names of the table are the names of the vocabulary. *)
Lemma table_names name :
  Js.get name sequelizeOperatorValidators = None ↔ operator_of_name name = None.
Proof.
  split.
  - intros Hget. destruct (operator_of_name name) as [op|] eqn:E; [|done].
    apply operator_of_name_Some in E. subst name.
    destruct (table_entry op) as (schema & Hs & _). congruence.
  - intros Hnone. destruct (Js.get name sequelizeOperatorValidators) eqn:E; [|done].
    apply get_In in E. unfold sequelizeOperatorValidators in E.
    repeat (apply elem_of_cons in E as [[= -> _]|E]; [discriminate Hnone|]).
    by apply elem_of_nil in E.
Qed.
End validation_facts.

(** ** Filter validation *)

Section options_facts.
Variable errorMap : issue → string.

Lemma Object_keys_not_nullish value :
  nullish value = false → ∃ names, Object_keys value = Return names.
Proof. destruct value; simpl; intros; try discriminate; eauto. Qed.

Lemma read_operator op :
  truthy (read sequelizeOperatorValidators (operator_name op)) = true.
Proof.
  destruct (table_entry op) as (schema & Hget & _).
  unfold read. by rewrite Hget.
Qed.

Lemma read_Undefined name :
  operator_of_name name = None → name ∉ Object_prototype →
  read sequelizeOperatorValidators name = Undefined.
Proof.
  intros Hop Hproto. apply table_names in Hop. unfold read.
  rewrite Hop. by rewrite bool_decide_eq_false_2.
Qed.

Lemma for_of_returning_cons {S A R} (x : A) (xs : list A)
    (body : A → M S (option R)) (after : M S R) (s : S) :
  for_of_returning (x :: xs) body after s =
    match body x s with
    | (Return (Some r), s') => (Return r, s')
    | (Return None, s') => for_of_returning xs body after s'
    | (Throw e, s') => (Throw e, s')
    | (OutOfFuel, s') => (OutOfFuel, s')
    end.
Proof.
  simpl. unfold bindM. destruct (body x s) as [[[r|]|e|] s']; reflexivity.
Qed.

(** The loop goes past an accepted entry, leaving the console alone. *)
Lemma validateOptions_entry_accepted fields key value lines :
  Js.has "hasOwnProperty" fields = false →
  accepted fields (key, value) = true →
  validateOptions_entry errorMap fields (key, value) lines =
  (Return None, lines).
Proof.
  intros Hshadow Hacc. unfold validateOptions_entry, hasOwnProperty.
  rewrite Hshadow. unfold accepted in Hacc.
  destruct (operator_of_name key) as [op|] eqn:Hop.
  - apply operator_of_name_Some in Hop. subst key.
    unfold bindM at 1. unfold lift at 1.
    rewrite read_operator, andb_false_r.
    destruct (table_entry op) as (schema & Hget & Hshape).
    unfold bindM. rewrite (validateOperatorInput_own _ _ _ _ _ Hget).
    apply Hshape in Hacc. rewrite Hacc. reflexivity.
  - apply andb_true_iff in Hacc as [Hacc Hnull].
    apply andb_true_iff in Hacc as [Hknown Hproto].
    apply negb_true_iff in Hproto, Hnull.
    apply bool_decide_eq_false in Hproto.
    rewrite (read_Undefined _ Hop Hproto), Hknown.
    destruct (Object_keys_not_nullish _ Hnull) as [names Hnames].
    unfold bindM, lift. simpl. rewrite Hnames.
    by destruct (0 <? length names)%nat.
Qed.

Lemma validateOptions_entry_unknown fields key value lines :
  Js.has "hasOwnProperty" fields = false →
  Js.has key fields = false →
  operator_of_name key = None → key ∉ Object_prototype →
  validateOptions_entry errorMap fields (key, value) lines =
  (Return (Some (invalid_key key)), lines).
Proof.
  intros Hshadow Hknown Hop Hproto. unfold validateOptions_entry, hasOwnProperty.
  rewrite Hshadow, Hknown, (read_Undefined _ Hop Hproto). reflexivity.
Qed.

Lemma validateOptions_entry_throws fields entry lines e :
  (validateOptions_entry errorMap fields entry lines).1 = Throw e →
  e = TypeError.
Proof.
  destruct entry as [key value]. unfold validateOptions_entry, hasOwnProperty.
  destruct (Js.has "hasOwnProperty" fields); [by intros [= <-]|].
  unfold bindM at 1. unfold lift at 1.
  destruct (negb (Js.has key fields) &&
            negb (truthy (read sequelizeOperatorValidators key))); [done|].
  destruct (truthy (read sequelizeOperatorValidators key)) eqn:Htruthy.
  - unfold bindM, validateOperatorInput. rewrite Htruthy. simpl.
    unfold try_catch, bindM, lift, call_parse.
    destruct (read sequelizeOperatorValidators key) as [schema| |];
      simpl; [|by intros [= <-] | done].
    unfold parse. by destruct (issues_of schema value).
  - unfold bindM, lift.
    destruct value; simpl; try done; try (by intros [= <-]);
      repeat match goal with
             | |- context [(0 <? ?n)%nat] => destruct (0 <? n)%nat
             | |- context [negb ?b] => destruct (negb b)
             end; done.
Qed.

Lemma validateOptions_all_accepted cf fm lines :
  Js.has "hasOwnProperty" (nestedToDotObject fm) = false →
  forallb (accepted (nestedToDotObject fm)) cf = true →
  validateOptions errorMap cf fm lines = (Return (Some true, None), lines).
Proof.
  intros Hshadow. unfold validateOptions.
  induction cf as [|[key value] cf IH]; [done|]. simpl forallb.
  intros [Hacc Hrest]%andb_true_iff.
  rewrite for_of_returning_cons, validateOptions_entry_accepted by done.
  auto.
Qed.

Lemma validateOptions_first_unknown pre key value post fm lines :
  Js.has "hasOwnProperty" (nestedToDotObject fm) = false →
  forallb (accepted (nestedToDotObject fm)) pre = true →
  Js.has key (nestedToDotObject fm) = false →
  operator_of_name key = None → key ∉ Object_prototype →
  validateOptions errorMap (pre ++ (key, value) :: post) fm lines =
  (Return (invalid_key key), lines).
Proof.
  intros Hshadow Hpre Hknown Hop Hproto. unfold validateOptions.
  induction pre as [|[k v] pre IH]; simpl app.
  - by rewrite for_of_returning_cons, validateOptions_entry_unknown.
  - simpl in Hpre. apply andb_true_iff in Hpre as [Hacc Hpre].
    rewrite for_of_returning_cons, validateOptions_entry_accepted by done.
    auto.
Qed.

(** [validateOptions] raises nothing but the [TypeError]s of the
    runtime. *)
Lemma validateOptions_throws cf fm lines e :
  (validateOptions errorMap cf fm lines).1 = Throw e → e = TypeError.
Proof.
  unfold validateOptions. revert lines.
  induction cf as [|entry cf IH]; intros lines; [done|].
  rewrite for_of_returning_cons.
  pose proof (validateOptions_entry_throws (nestedToDotObject fm) entry lines)
    as Hentry.
  destruct (validateOptions_entry errorMap (nestedToDotObject fm) entry lines)
    as [[[r|]|e'|] lines']; simpl in *; [done | apply IH | | done].
  intros [= <-]. auto.
Qed.
Lemma validateOptions_entry_outcomes fields key value lines out lines' :
  validateOptions_entry errorMap fields (key, value) lines = (out, lines') →
  out = Return None ∨ out = Return (Some (invalid_key key)) ∨
  (∃ issues, out = Return (Some (None, Some (ErrObject (ZodError issues))))) ∨
  out = Throw TypeError.
Proof.
  unfold validateOptions_entry, hasOwnProperty.
  destruct (Js.has "hasOwnProperty" fields);
    [intros [= <- _]; right; right; right; done|].
  unfold bindM at 1. unfold lift at 1.
  destruct (negb (Js.has key fields) &&
            negb (truthy (read sequelizeOperatorValidators key)));
    [intros [= <- _]; right; left; done|].
  destruct (truthy (read sequelizeOperatorValidators key)) eqn:Htruthy.
  - unfold bindM, validateOperatorInput. rewrite Htruthy. simpl.
    unfold try_catch, bindM, lift, call_parse.
    destruct (read sequelizeOperatorValidators key) as [schema| |];
      simpl; [|intros [= <- _]; right; right; right; done | done].
    unfold parse. destruct (issues_of schema value) as [|i issues]; simpl;
      intros [= <- _]; [left; done | right; right; left; eauto].
  - unfold bindM, lift.
    destruct value; simpl;
      repeat match goal with
             | |- context [(0 <? ?n)%nat] => destruct (0 <? n)%nat
             | |- context [negb ?b] => destruct (negb b)
             end; simpl; intros [= <- _];
      (left; done) || (right; left; done) || (right; right; right; done).
Qed.

Lemma validateOptions_outcomes cf fm lines :
  let out := (validateOptions errorMap cf fm lines).1 in
  out = Return (Some true, None) ∨
  (∃ key, key ∈ Js.keys cf ∧ out = Return (invalid_key key)) ∨
  (∃ issues, out = Return (None, Some (ErrObject (ZodError issues)))) ∨
  out = Throw TypeError.
Proof.
  unfold validateOptions. revert lines.
  cbv zeta. induction cf as [|[key value] cf IH]; intros lines; [left; done|].
  rewrite for_of_returning_cons.
  pose proof (validateOptions_entry_outcomes (nestedToDotObject fm) key value
                lines) as Hentry.
  destruct (validateOptions_entry errorMap (nestedToDotObject fm) (key, value)
              lines) as [[[r|]|e'|] lines']; simpl;
    specialize (Hentry _ _ eq_refl).
  - destruct Hentry as [H|[H|[[issues H]|H]]]; try discriminate.
    + injection H as ->. right; left. exists key. split; [|done].
      apply list_elem_of_here.
    + injection H as ->. right; right; left. eauto.
  - destruct (IH lines') as [H|[(k & Hk & H)|[H|H]]]; auto.
    right; left. exists k. split; [|done]. by apply list_elem_of_further.
  - destruct Hentry as [H|[H|[[issues H]|H]]]; try discriminate.
    injection H as ->. right; right; right; done.
  - destruct Hentry as [H|[H|[[issues H]|H]]]; discriminate.
Qed.
End options_facts.

(** ** The tests of the repository

    The model gives the results that [tests/get-queryable.spec.ts]
    expects. *)

Example test_no_queryable_fields :
  getQueryable test_none_queryable 3 2 = Return [].
Proof. reflexivity. Qed.

Example test_empty_nested_objects_not_included :
  getQueryable test_empty_nested 5 4 =
    Return [("name", CTrue); ("settings", CTree [("theme", CTrue)])].
Proof. reflexivity. Qed.

Example test_schemas_with_arrays :
  getQueryable test_arrays 6 5 = Return [("name", CTrue)].
Proof. reflexivity. Qed.

Example test_path_mapping :
  getQueryable path_mapping 5 4 =
    Return [("name", CTrue); ("email", CTrue);
            ("profile", CTree [("bio", CTrue); ("age", CTrue)])].
Proof. reflexivity. Qed.

Example test_only_nested_objects :
  getQueryable test_only_nested 5 4 =
    Return [("profile",
             CTree [("details", CTree [("info", CTree [("data", CTrue)])])])].
Proof. reflexivity. Qed.

Example test_lazy_fields_that_are_not_objects :
  getQueryable test_lazy_leaves 5 4 = Return [("name", CTrue)].
Proof. reflexivity. Qed.

(** ** Results on the validators *)

(** C5: for every operator of the vocabulary, [validateOperatorInput]
    returns [[true, null]] on an operand of the operator's shape and,
    on any other operand, returns [[null, err]] where [err] is the
    [ZodError] that carries the (non-empty) list of shape mismatches,
    whose messages it writes to the console; in particular a string with a
    ['%'] in it fails for [like], [notLike], [iLike] and [notILike]. *)
Theorem validateOperatorInput_shape_contract
    (errorMap : issue → string) (op : operator) (value : jsval)
    (lines : list string) :
  ((shape_contract op value = true ∧
    validateOperatorInput errorMap (operator_name op) value lines =
      (Return (Some true, None), lines)) ∨
   (shape_contract op value = false ∧
    ∃ issues, issues ≠ [] ∧
      validateOperatorInput errorMap (operator_name op) value lines =
        (Return (None, Some (ErrObject (ZodError issues))),
         (lines ++ [join_comma (issue_message errorMap <$> issues)])%list))) ∧
  (like_operator op = true →
   ∀ s, Js.includes percent s = true →
     validateOperatorInput errorMap (operator_name op) (JString s) lines =
       (Return (None, Some (ErrObject (ZodError [custom like_message]))),
        (lines ++ [like_message])%list)).
Proof.
  split.
  - destruct (table_entry op) as (schema & Hget & Hshape).
    rewrite (validateOperatorInput_own errorMap _ _ value lines Hget).
    destruct (issues_of schema value) as [|i issues] eqn:Hissues.
    + left. split; [by apply Hshape | done].
    + right. split.
      * destruct (shape_contract op value) eqn:Hc; [|done].
        apply Hshape in Hc. congruence.
      * exists (i :: issues). done.
  - intros Hlike s Hs.
    destruct op; try discriminate Hlike;
      (erewrite validateOperatorInput_own by reflexivity);
      simpl; unfold no_percent; rewrite Hs; reflexivity.
Qed.

Lemma validateOperatorInput_shape_contract_witness :
  validateOperatorInput (λ _, "Invalid input") "like" (JString "abc%") [] =
    (Return (None, Some (ErrObject (ZodError [custom like_message]))),
     [like_message]).
Proof.
  exact (proj2 (validateOperatorInput_shape_contract
                  (λ _, "Invalid input") op_like (JString "abc%") [])
               eq_refl "abc%" eq_refl).
Defined.

(** C6, at the input where the code departs from it: [name] is a field
    of the model and its value [{foo: 1}] has the unrecognized key [foo],
    yet [validateOptions] answers [[true, null]]. *)
Theorem validateOptions_nested_unknown_key_passes
    (errorMap : issue → string) (lines : list string) :
  validateOptions errorMap
    [("name", JObject [("foo", JNumber (Finite 1 0))])]
    [("name", JBool true)] lines =
  (Return (Some true, None), lines).
Proof. reflexivity. Qed.

(** C7, at an input where the code departs from it: the key [constructor]
    of the payload [{constructor: 1}] is no field of the model [{name:
    true}] and no operator of the vocabulary, and [validateOptions] does
    not return [[null, "Invalid key: constructor"]]: it throws a
    [TypeError].  The lookup [sequelizeOperatorValidators[key]] finds
    [Object.prototype.constructor], so that the key passes the first test
    as an operator would; [validateOperatorInput] then calls [parse] on
    what is no schema and its handler reads [err.errors] of the [TypeError]
    that this raises. *)
Theorem validateOptions_throws_on_invalid_key
    (errorMap : issue → string) (lines : list string) :
  Js.has "constructor" (nestedToDotObject [("name", JBool true)]) = false ∧
  operator_of_name "constructor" = None ∧
  validateOptions errorMap [("constructor", JNumber (Finite 1 0))]
    [("name", JBool true)] lines =
  (Throw TypeError, lines).
Proof. split; [reflexivity|]. split; reflexivity. Qed.

(** C8 as stated fails: in the payload [{like: 'a%', bogus: 1}] the key
    [bogus] is no field of the model [{name: true}] and no operator, and
    the result is not [[null, "Invalid key: bogus"]]: the loop stops at
    [like], whose operand is refused. *)
Lemma validateOptions_unknown_key_not_reported :
  Js.has "bogus" (nestedToDotObject [("name", JBool true)]) = false ∧
  operator_of_name "bogus" = None ∧
  (validateOptions (λ _, "Invalid input")
     [("like", JString "a%"); ("bogus", JNumber (Finite 1 0))]
     [("name", JBool true)] []).1 ≠ Return (invalid_key "bogus").
Proof. split; [reflexivity|]. split; [reflexivity|]. discriminate. Qed.

(** C8, amended: when no field of the model is named [hasOwnProperty],
    the first key of the payload that is neither a field of the
    dot-flattened model, nor an operator, nor a member of
    [Object.prototype] makes [validateOptions] return [[null, "Invalid
    key: <key>"]], provided every entry before it is accepted; and a
    payload whose entries are all accepted yields [[true, null]].  An entry
    is accepted when its key is an operator and its value an operand of
    the shape of the operator, or when its key is no operator, is a field
    of the dot-flattened model, is no member of [Object.prototype], and its
    value is neither [null] nor [undefined]. *)
Theorem validateOptions_first_invalid_key
    (errorMap : issue → string)
    (clientFilter filterMap : list (string * jsval)) (lines : list string) :
  Js.has "hasOwnProperty" (nestedToDotObject filterMap) = false →
  (∀ before key value after,
      clientFilter = (before ++ (key, value) :: after)%list →
      forallb (accepted (nestedToDotObject filterMap)) before = true →
      Js.has key (nestedToDotObject filterMap) = false →
      operator_of_name key = None →
      key ∉ Object_prototype →
      validateOptions errorMap clientFilter filterMap lines =
        (Return (invalid_key key), lines)) ∧
  (forallb (accepted (nestedToDotObject filterMap)) clientFilter = true →
   validateOptions errorMap clientFilter filterMap lines =
     (Return (Some true, None), lines)).
Proof.
  intros Hshadow. split.
  - intros pre key value post -> Hpre Hknown Hop Hproto.
    by apply validateOptions_first_unknown.
  - by apply validateOptions_all_accepted.
Qed.

Lemma validateOptions_first_invalid_key_witness :
  validateOptions (λ _, "Invalid input")
    [("gt", JNumber (Finite 3 0)); ("name", JString "x");
     ("bogus", JNumber (Finite 1 0)); ("worse", JNull)]
    [("name", JBool true)] [] =
    (Return (invalid_key "bogus"), []) ∧
  validateOptions (λ _, "Invalid input")
    [("gt", JNumber (Finite 3 0)); ("name", JString "x")]
    [("name", JBool true)] [] =
    (Return (Some true, None), []).
Proof.
  split.
  - refine (proj1 (validateOptions_first_invalid_key (λ _, "Invalid input")
                     [("gt", JNumber (Finite 3 0)); ("name", JString "x");
                      ("bogus", JNumber (Finite 1 0)); ("worse", JNull)]
                     [("name", JBool true)] [] eq_refl)
                  [("gt", JNumber (Finite 3 0)); ("name", JString "x")]
                  "bogus" (JNumber (Finite 1 0)) [("worse", JNull)]
                  eq_refl eq_refl eq_refl eq_refl _).
    apply (bool_decide_eq_false_1 ("bogus" ∈ Object_prototype)). reflexivity.
  - exact (proj2 (validateOptions_first_invalid_key (λ _, "Invalid input")
                    [("gt", JNumber (Finite 3 0)); ("name", JString "x")]
                    [("name", JBool true)] [] eq_refl) eq_refl).
Defined.

(** ** Results on the walker *)

(** C1 as stated fails.  In [const N = z.lazy(() => z.object({next: N}))],
    under the key [n] of the root [z.object({n: N})], the getter builds an
    object at each call, which the visited set does not hold: [getFilterable]
    and [getPath] enter it, come to [next], call the getter again, and so
    on; whatever the fuel, they do not come to an end.  The cycle of this
    schema is made of the object that the getter builds and of nothing
    else. *)
Lemma self_building_never_returns :
  (∀ fuel, (Built.getFilterable self_building [1] fuel 2 []).1 = OutOfFuel) ∧
  (∀ fuel parentKey,
      (Built.getPath self_building [1] fuel 2 parentKey []).1 = OutOfFuel) ∧
  tc (built_child self_building [1]) 1 1.
Proof.
  split; [|split].
  - intros [|fuel]; [done|].
    simpl. unfold bindM, WeakSet_has, Built.WeakSet_add, lift. simpl.
    unfold getFilterable_nested. unfold bindM, try_catch, lift, WeakSet_has. simpl.
    by rewrite self_building_getFilterable.
  - intros [|fuel] parentKey; [done|].
    simpl. unfold bindM, WeakSet_has, Built.WeakSet_add, lift. simpl.
    unfold getPath_nested. unfold bindM, try_catch, lift, WeakSet_has. simpl.
    by rewrite self_building_getPath.
  - apply tc_once. split; [apply list_elem_of_here|].
    split; [apply list_elem_of_here|].
    exists [("next", 0)], "next", 0. split; [reflexivity|].
    split; [apply list_elem_of_here | reflexivity].
Qed.

(** C1, amended: when no cycle of the schema is made only of objects that
    getters build (every cycle goes through an object built outside of the
    getters, which every call of a getter returns as it is),
    [getFilterable] and [getPath] terminate once their fuel is at least the
    square of the size of the heap plus one, whatever the other references
    between the nodes.  They
    never enter an object twice: the visited set, which lists the objects
    entered that no getter builds, stays free of duplicates, and an object
    that a getter builds is another object each time; and a call on an
    object that is already in the set answers the empty result and leaves
    the set as it is.  [getSortable] and [getQueryable], which call no
    getter and keep no visited set, terminate on every heap whose cycles go
    through deferred nodes, and no node is met twice on a chain of their
    calls. *)
Theorem traversals_terminate (σ : heap) (built : list ref) (fuel : nat)
    (schema : ref) (parentKey : list string) (visited : WeakSet) :
  (∀ b, ¬ tc (built_child σ built) b b) →
  (S (length σ) * S (length σ) ≤ fuel)%nat → NoDup visited →
  (∃ out visited',
      Built.getFilterable σ built fuel schema visited = (out, visited') ∧
      terminates out ∧ NoDup visited' ∧ visited ⊆ visited' ∧
      (schema ∈ visited → out = Return [] ∧ visited' = visited)) ∧
  (∃ out visited',
      Built.getPath σ built fuel schema parentKey visited = (out, visited') ∧
      terminates out ∧ NoDup visited' ∧ visited ⊆ visited' ∧
      (schema ∈ visited → out = Return [] ∧ visited' = visited)) ∧
  (cycles_are_deferred σ = true →
   terminates (getSortable σ fuel schema) ∧
   terminates (getQueryable σ fuel schema) ∧
   ∀ node, ¬ tc (calls σ) node node).
Proof.
  intros Horder Hfuel Hnd.
  assert (length σ < fuel)%nat as Hsize by lia.
  destruct fuel as [|fuel']; [lia|].
  assert (∀ B (r : outcome (list B) * WeakSet),
            (instanceof_ZodObject σ schema = true → walk_post (λ _, True) visited r) →
            (schema ∈ visited → r = (Return [], visited)) →
            (instanceof_ZodObject σ schema = false → schema ∉ visited →
             ∃ visited', r = (Throw TypeError, visited') ∧ visited ⊆ visited' ∧
                         (NoDup visited → NoDup visited')) →
            ∃ out visited',
              r = (out, visited') ∧ terminates out ∧ NoDup visited' ∧
              visited ⊆ visited' ∧
              (schema ∈ visited → out = Return [] ∧ visited' = visited))
    as Hcases.
  { intros B r Hobject Hvisited Hother.
    destruct (decide (schema ∈ visited)) as [Hin|Hin].
    - rewrite (Hvisited Hin). exists (Return []), visited.
      by repeat (split; [done|]).
    - destruct (instanceof_ZodObject σ schema) eqn:Hobj.
      + destruct (Hobject eq_refl) as (a & visited' & -> & Hsub & Hnd' & _).
        exists (Return a), visited'.
        split; [done|]. split; [done|]. split; [auto|]. by split.
      + destruct (Hother eq_refl Hin) as (visited' & -> & Hsub & Hnd').
        exists (Throw TypeError), visited'.
        split; [done|]. split; [done|]. split; [auto|]. by split. }
  assert (visited ⊆ (match σ !! schema with
                     | Some _ =>
                         if bool_decide (schema ∈ built) then visited
                         else schema :: visited
                     | None => visited
                     end) ∧
          (schema ∉ visited → NoDup visited →
           NoDup (match σ !! schema with
                  | Some _ =>
                      if bool_decide (schema ∈ built) then visited
                      else schema :: visited
                  | None => visited
                  end))) as Hadd.
  { destruct (σ !! schema); [|done].
    destruct (bool_decide (schema ∈ built)); [done|]. split.
    - intros x Hx. by apply list_elem_of_further.
    - intros Hin Hv. by apply NoDup_cons. }
  split; [|split].
  - apply Hcases.
    + intros Hobj.
      destruct (walk_measure_bound σ built schema visited Hobj)
        as (trail & Htrail & Hbound).
      destruct (Built_getFilterable_returns σ built (S fuel') schema visited
                  trail)
        as (tree & visited' & -> & Hsub & Hnd' & _); [done..|lia|done|].
      by exists tree, visited'.
    + intros Hin. simpl. unfold bindM, WeakSet_has.
      by rewrite bool_decide_eq_true_2.
    + intros Hobj Hin. apply instanceof_ZodObject_false in Hobj.
      simpl. unfold bindM, WeakSet_has, Built.WeakSet_add, lift.
      rewrite bool_decide_eq_false_2 by done. rewrite Hobj.
      destruct Hadd as [Hsub Hnd'].
      destruct (σ !! schema); eexists; (split; [reflexivity|]); split; auto.
  - apply Hcases.
    + intros Hobj.
      destruct (walk_measure_bound σ built schema visited Hobj)
        as (trail & Htrail & Hbound).
      destruct (Built_getPath_returns σ built (S fuel') schema parentKey visited
                  trail)
        as (paths & visited' & -> & Hsub & Hnd' & _); [done..|lia|done|].
      by exists paths, visited'.
    + intros Hin. simpl. unfold bindM, WeakSet_has.
      by rewrite bool_decide_eq_true_2.
    + intros Hobj Hin. apply instanceof_ZodObject_false in Hobj.
      simpl. unfold bindM, WeakSet_has, Built.WeakSet_add, lift.
      rewrite bool_decide_eq_false_2 by done. rewrite Hobj.
      destruct Hadd as [Hsub Hnd'].
      destruct (σ !! schema); eexists; (split; [reflexivity|]); split; auto.
  - intros Hall. split; [|split].
    + by apply getSortable_terminates_heap.
    + by apply getQueryable_terminates_heap.
    + intros node Hcycle.
      apply calls_allocated_before in Hcycle; [lia | done].
Qed.

Lemma traversals_terminate_witness :
  (∃ out visited',
      Built.getFilterable cycle_through_built [2] 36 4 [] = (out, visited') ∧
      terminates out ∧ NoDup visited') ∧
  (∃ out visited',
      Built.getPath cycle_through_built [2] 36 4 [] [] = (out, visited') ∧
      terminates out ∧ NoDup visited') ∧
  terminates (getSortable cycle_through_built 36 4) ∧
  terminates (getQueryable cycle_through_built 36 4) ∧
  ¬ tc (calls cycle_through_built) 4 4.
Proof.
  destruct (traversals_terminate cycle_through_built [2] 36 4 [] []
              (built_in_order_no_cycle cycle_through_built [2] eq_refl)
              (le_n 36) (@NoDup_nil_2 ref))
    as ((out1 & v1 & H1 & T1 & N1 & _) & (out2 & v2 & H2 & T2 & N2 & _) & H3).
  destruct (H3 eq_refl) as (T3 & T4 & Hpath).
  split; [by exists out1, v1|]. split; [by exists out2, v2|].
  split; [done|]. split; [done|]. apply Hpath.
Defined.






(** C3 as stated fails: in [{items: z.array(z.object({name: capable})),
    owner: z.lazy(() => z.object({name: capable}))}] the flagged leaf
    inside the array child [items] appears in the result of
    [getFilterable], under [items], and neither in that of [getSortable]
    nor in that of [getQueryable]; and the same holds of the flagged leaf
    inside the deferred child [owner]. *)
Lemma getSortable_getQueryable_skip_array_and_lazy :
  (getFilterable array_and_lazy 7 5 []).1 =
    Return [("items", CTree [("name", CTrue)]);
            ("owner", CTree [("name", CTrue)])] ∧
  getSortable array_and_lazy 7 5 = Return [] ∧
  getQueryable array_and_lazy 7 5 = Return [].
Proof. repeat split. Qed.

(** C3, amended: [getFilterable] descends into every composite child that
    is not yet in the visited set (a plain object, a deferred node that
    resolves to an object or to an array of objects, an array of objects)
    and records the recursive result, when it is not empty, under the key
    of the child, whichever nodes the getters build; the loop starts from
    the visited set that [visited.add(schema)] leaves.  [getSortable] and
    [getQueryable] descend into the children that are plain objects; an
    array, of objects or not, is a leaf to them as is every other child
    that is no deferred node: it is recorded (as [true]) only if it carries
    the flag itself.  For [getQueryable] this is what the result holds
    under the key when no other child has the key among its path aliases.
    What [getSortable] and [getQueryable] make of a deferred child is not
    part of the statement. *)
Theorem traversals_descend (σ : heap) (fuel : nat) (schema : ref)
    (before after : list (string * ref)) (key : string) (value : ref) :
  shape_entries σ schema = Return (before ++ (key, value) :: after)%list →
  NoDup ((before ++ (key, value) :: after)%list.*1) →
  (∀ built visited tree visited',
      schema ∉ visited →
      Built.getFilterable σ built (S fuel) schema visited =
        (Return tree, visited') →
      ∃ tree1 visited1,
        for_ofM before []
          (getFilterable_entry σ (Built.getFilterable σ built fuel))
          (Built.WeakSet_add σ built schema visited).2 =
          (Return tree1, visited1) ∧
        (Built.WeakSet_add σ built schema visited).2 ⊆ visited1 ∧
        match composite_child σ value with
        | Some target =>
            if bool_decide (target ∈ visited1) then Js.get key tree = None
            else
              ∃ nested visited2,
                Built.getFilterable σ built fuel target visited1 =
                  (Return nested, visited2) ∧
                Js.get key tree =
                  if Js.nonempty nested then Some (CTree nested) else None
        | None =>
            Js.get key tree =
              if negb (throwing σ value) && flagged σ isFilterable value
              then Some CTrue else None
        end) ∧
  (∀ tree,
      getSortable σ (S fuel) schema = Return tree →
      if instanceof_ZodObject σ value then
        ∃ nested, getSortable σ fuel value = Return nested ∧
                  Js.get key tree =
                    if Js.nonempty nested then Some (CTree nested) else None
      else
        deferred σ value = false →
        Js.get key tree =
          if flagged σ isSortable value then Some CTrue else None) ∧
  (∀ tree,
      (∀ entry, entry ∈ (before ++ after)%list →
                instanceof_ZodObject σ entry.2 = false →
                key ∉ queryable_names σ entry.1 entry.2) →
      getQueryable σ (S fuel) schema = Return tree →
      if instanceof_ZodObject σ value then
        ∃ nested, getQueryable σ fuel value = Return nested ∧
                  Js.get key tree =
                    if Js.nonempty nested then Some (CTree nested) else None
      else
        deferred σ value = false →
        Js.get key tree =
          if bool_decide (key ∈ queryable_names σ key value) then Some CTrue
          else None).
Proof.
  intros Hshape Hnd.
  assert ((key, value) ∈ (before ++ (key, value) :: after)%list) as Hin
    by (apply elem_of_app; right; apply list_elem_of_here).
  split; [|split].
  - intros built visited tree visited' Hseen Hget.
    by eapply Built_getFilterable_lookup.
  - intros tree Hget.
    pose proof (getSortable_lookup σ fuel schema _ key value tree Hshape Hnd
                  Hin Hget) as Hlookup.
    by destruct (instanceof_ZodObject σ value).
  - intros tree Hothers Hget.
    assert (if instanceof_ZodObject σ value then
              ∃ nested, getQueryable σ fuel value = Return nested ∧
                        Js.get key tree =
                          if Js.nonempty nested then Some (CTree nested)
                          else None
            else
              Js.get key tree =
                if bool_decide (key ∈ queryable_names σ key value)
                then Some CTrue else None) as Hlookup.
    { eapply getQueryable_lookup; [done..| |done].
      intros entry Hentry Hne. apply Hothers.
      apply elem_of_app in Hentry as [Hentry|Hentry];
        [apply elem_of_app; by left|].
      apply elem_of_cons in Hentry as [->|Hentry]; [done|].
      apply elem_of_app; by right. }
    by destruct (instanceof_ZodObject σ value).
Qed.

Lemma traversals_descend_witness :
  (∃ tree1 visited1,
      for_ofM [] []
        (getFilterable_entry array_and_lazy
           (Built.getFilterable array_and_lazy [3] 6))
        [5] = (Return tree1, visited1) ∧
      Js.get "items"
        [("items", CTree [("name", CTrue)]); ("owner", CTree [("name", CTrue)])] =
        Some (CTree [("name", CTrue)])) ∧
  Js.get "items" (@nil (string * capability)) = None.
Proof.
  destruct (traversals_descend array_and_lazy 6 5 [] [("owner", 4)] "items" 2
              eq_refl)
    as (Hfilter & Hsort & Hquery).
  { apply (bool_decide_unpack _). exact I. }
  split.
  - destruct (Hfilter [3] [] _ _ (not_elem_of_nil 5) eq_refl)
      as (tree1 & visited1 & Hloop & _ & Hkey).
    exists tree1, visited1. split; [exact Hloop|].
    vm_compute in Hloop. injection Hloop as <- <-.
    destruct Hkey as (nested & visited2 & Hn & Hkey).
    vm_compute in Hn. injection Hn as <- <-. exact Hkey.
  - exact (Hsort [] eq_refl eq_refl).
Defined.

(** C4 as stated fails.  In [{a: capable.path(['b']), b:
    capable.path(['a'])}] the result of [getQueryable] has an entry under
    [a], the declared key of a leaf that is aliased to [b]; and in [{mail:
    capable.path(['email']), email: {x: capable}}] it does not map the
    alias [email] to [true]. *)
Lemma getQueryable_alias_collisions :
  getQueryable alias_swap 3 2 = Return [("b", CTrue); ("a", CTrue)] ∧
  getQueryable alias_then_object 4 3 = Return [("email", CTree [("x", CTrue)])].
Proof. split; reflexivity. Qed.

(** C4, amended: for a schema without duplicate keys and a child that is a
    queryable leaf, the result of [getQueryable] maps each path alias of
    the leaf to [true] unless a later sibling that is an object has the
    alias as its key, and it has no entry under the declared key of the
    leaf unless that key is a path alias of some child; a queryable leaf
    without path alias is mapped to [true] under its declared key. *)
Theorem getQueryable_path_alias (σ : heap) (fuel : nat) (schema : ref)
    (before after : list (string * ref)) (key : string) (value : ref)
    (tree : list (string * capability)) :
  shape_entries σ schema = Return (before ++ (key, value) :: after)%list →
  NoDup ((before ++ (key, value) :: after)%list.*1) →
  instanceof_ZodObject σ value = false →
  flagged σ isQueryable value = true →
  getQueryable σ (S fuel) schema = Return tree →
  match σ !! value ≫= description_path with
  | Some aliases =>
      (∀ alias, alias ∈ aliases →
         (∀ entry, entry ∈ after → instanceof_ZodObject σ entry.2 = true →
                   entry.1 ≠ alias) →
         Js.get alias tree = Some CTrue) ∧
      ((∀ entry, entry ∈ (before ++ (key, value) :: after)%list →
                 instanceof_ZodObject σ entry.2 = false →
                 key ∉ queryable_names σ entry.1 entry.2) →
       Js.get key tree = None)
  | None => Js.get key tree = Some CTrue
  end.
Proof.
  intros Hshape Hnd Hobj Hflag Hget.
  assert ((key, value) ∈ (before ++ (key, value) :: after)%list) as Hin
    by (apply elem_of_app; right; apply list_elem_of_here).
  pose proof Hget as Hloop. simpl in Hloop. rewrite Hshape in Hloop.
  simpl in Hloop.
  apply for_of_Return_inv in Hloop as (tree1 & tree2 & H1 & H2 & H3).
  rewrite getQueryable_entry_eq, Hobj in H2.
  assert (is_Some (σ !! value)) as [v Hv].
  { unfold flagged in Hflag. destruct (σ !! value); [eauto | done]. }
  rewrite Hv in H2. injection H2 as <-.
  unfold queryable_names in H3. rewrite Hflag, Hv in H3. rewrite Hv.
  simpl in *. destruct (description_path v) as [aliases|] eqn:Hpath.
  - split.
    + intros alias Halias Hafter.
      eapply getQueryable_loop_true; [exact H3| |done].
      rewrite get_aliases. by rewrite bool_decide_eq_true_2.
    + intros Hothers.
      pose proof (getQueryable_lookup σ fuel schema _ key value tree
                    Hshape Hnd Hin) as Hlookup.
      rewrite Hobj in Hlookup. rewrite Hlookup; [| |done].
      * rewrite bool_decide_eq_false_2; [done|]. by apply (Hothers (key, value)).
      * intros entry Hentry _. by apply Hothers.
  - eapply getQueryable_loop_true; [exact H3| |].
    + simpl. by rewrite get_set_eq.
    + intros entry Hentry _ Heq.
      rewrite fmap_app, fmap_cons in Hnd. simpl in Hnd.
      apply NoDup_app in Hnd as (_ & _ & Hpost).
      apply NoDup_cons in Hpost as [Hpost _]. apply Hpost.
      rewrite <- Heq. apply list_elem_of_fmap. by exists entry.
Qed.

Lemma getQueryable_path_alias_witness :
  Js.get "email"
    [("name", CTrue); ("email", CTrue);
     ("profile", CTree [("bio", CTrue); ("age", CTrue)])] = Some CTrue ∧
  Js.get "mail"
    [("name", CTrue); ("email", CTrue);
     ("profile", CTree [("bio", CTrue); ("age", CTrue)])] = None ∧
  Js.get "name"
    [("name", CTrue); ("email", CTrue);
     ("profile", CTree [("bio", CTrue); ("age", CTrue)])] = Some CTrue.
Proof.
  assert (NoDup ([("id", 1); ("name", 0); ("mail", 2); ("profile", 3)].*1))
    as Hnd by (apply (bool_decide_unpack _); exact I).
  destruct (getQueryable_path_alias path_mapping 5 4 [("id", 1); ("name", 0)]
              [("profile", 3)] "mail" 2 _ eq_refl Hnd eq_refl eq_refl eq_refl)
    as [Halias Hkey].
  split; [|split].
  - apply (Halias "email"); [apply list_elem_of_here|].
    intros entry Hentry _.
    apply list_elem_of_singleton in Hentry as ->. discriminate.
  - apply Hkey. intros entry Hentry.
    repeat (apply elem_of_cons in Hentry as [->|Hentry];
            [intros _; apply (bool_decide_unpack _); exact I|]).
    by apply elem_of_nil in Hentry.
  - exact (getQueryable_path_alias path_mapping 5 4 [("id", 1)]
             [("mail", 2); ("profile", 3)] "name" 0 _ eq_refl Hnd eq_refl eq_refl
             eq_refl).
Defined.

(** C9, at inputs where the code departs from it.  In the schema of the
    path-mapping test, [{id, name, mail:
    z.string().queryable().path(['email']), profile: {bio, website,
    age}}], the leaf [mail] declares a path alias and the index maps [mail]
    to [email], yet no entry maps the alias target [email] to itself.  The
    branches of [getPath] for an array of objects do write
    [paths[nestedPath] = nestedPath]: in [{id, items: z.array(z.object({sku,
    label: z.string().path(['title'])}))}] the alias target [items.title] is
    mapped to itself.  And in [{a: {b: {c: string}}}] the dotted key
    [a.b.c] of the leaf is no key of the index: a parent writes the keys of
    its child anew as its own key, a dot and their last segment. *)
Theorem getPath_misses_alias_target_and_deep_key :
  (getPath path_mapping 6 4 [] []).1 =
    Return [("id", "id"); ("name", "name"); ("mail", "email");
            ("bio", "profile.bio"); ("profile.bio", "profile.bio");
            ("website", "profile.website");
            ("profile.website", "profile.website");
            ("age", "profile.age"); ("profile.age", "profile.age")] ∧
  (getPath order_items 6 4 [] []).1 =
    Return [("id", "id"); ("sku", "items.sku"); ("items.sku", "items.sku");
            ("items.label", "items.title"); ("items.title", "items.title")] ∧
  (getPath deep_schema 5 3 [] []).1 =
    Return [("c", "a.b.c"); ("a.c", "a.b.c"); ("b.c", "a.b.c")].
Proof. split; [reflexivity|]. split; reflexivity. Qed.

(** The index of an object schema at the root, with distinct keys, whose
    children after the child [key] are leaves:
    - if the child [key] is a leaf, the index maps [key] to its physical
      path: [key] itself, or the segments of its path alias joined by dots;
    - if the child [key] is a plain object that is not yet visited and
      whose children are leaves with distinct keys, all keys at hand being
      free of dots, the index maps the dotted key [key.sub] of each leaf
      [sub] of the child to its physical path: [key.sub], or [key] and the
      segments of the path alias joined by dots;
    - if all the children are leaves, the index holds nothing under any
      other name than the keys of the children. *)
Lemma getPath_index (σ : heap) (fuel : nat) (schema : ref)
    (before after : list (string * ref)) (key : string) (value : ref)
    (v : ZodType) (visited : WeakSet) (paths : list (string * string))
    (visited' : WeakSet) :
  (length σ ≤ fuel)%nat →
  shape_entries σ schema = Return (before ++ (key, value) :: after)%list →
  NoDup ((before ++ (key, value) :: after)%list.*1) →
  schema ∉ visited →
  (∀ entry, entry ∈ after → leaf_child σ entry = true) →
  σ !! value = Some v →
  getPath σ (S fuel) schema [] visited = (Return paths, visited') →
  (leaf_child σ (key, value) = true →
   Js.get key paths = Some (physical_path [] key v)) ∧
  (∀ paths1 visited1 before' sub value' after' v',
      for_ofM before [] (getPath_entry σ (getPath σ fuel) [])
        (schema :: visited) = (Return paths1, visited1) →
      value ∉ visited1 →
      shape_entries σ value = Return (before' ++ (sub, value') :: after')%list →
      NoDup ((before' ++ (sub, value') :: after')%list.*1) →
      (∀ entry, entry ∈ (before' ++ (sub, value') :: after')%list →
                leaf_child σ entry = true ∧ dot_free entry.1 = true) →
      (∀ entry, entry ∈ after → dot_free entry.1 = true) →
      σ !! value' = Some v' →
      Js.get (key +:+ "." +:+ sub) paths = Some (physical_path [key] sub v')) ∧
  ((∀ entry, entry ∈ before → leaf_child σ entry = true) →
   leaf_child σ (key, value) = true →
   ∀ x, x ∉ ((before ++ (key, value) :: after)%list.*1) → Js.get x paths = None).
Proof.
  intros Hfuel Hshape Hnd Hseen Hafter Hv Hget.
  pose proof Hget as Hloop.
  rewrite (getPath_unfold σ fuel schema _ [] visited Hshape Hseen) in Hloop.
  pose proof Hnd as Hnd'. rewrite fmap_app, fmap_cons in Hnd'. simpl in Hnd'.
  apply NoDup_app in Hnd' as (_ & Hpre & Hpost).
  apply NoDup_cons in Hpost as [Hpost _].
  assert (∀ x, (∀ entry, entry ∈ after → entry.1 ≠ x) →
               ∀ p, Js.get x (leaf_paths σ [] after p) = Js.get x p) as Hframe.
  { intros x Hx p. apply leaf_paths_frame. intros entry v0 Hentry _.
    rewrite leaf_key_root. by apply Hx. }
  split; [|split].
  - intros Hleaf.
    apply for_ofM_Return_inv in Hloop
      as (paths1 & visited1 & paths2 & visited2 & H1 & H2 & H3).
    rewrite getPath_entry_leaf in H2 by done. injection H2 as <- <-.
    rewrite getPath_loop_leaves in H3 by done. injection H3 as <- _.
    rewrite Hframe.
    + unfold leaf_paths. simpl. rewrite Hv, leaf_key_root. apply get_set_eq.
    + intros entry Hentry Heq. apply Hpost. rewrite <- Heq.
      apply list_elem_of_fmap. by exists entry.
  - intros paths1 visited1 before' sub value' after' v' Hbefore Hfresh Hshape'
      Hnd1 Hleaves Hdots Hv'.
    apply for_ofM_Return_inv in Hloop
      as (paths1' & visited1' & paths2 & visited2 & H1 & H2 & H3).
    rewrite Hbefore in H1. injection H1 as <- <-.
    rewrite getPath_loop_leaves in H3 by done. injection H3 as <- _.
    rewrite Hframe.
    2:{ intros entry Hentry. apply dotted_ne. by apply Hdots. }
    (* the round of the child *)
    assert (instanceof_ZodObject σ value = true) as Hobj
      by (apply instanceof_ZodObject_shape; eauto).
    rewrite getPath_entry_eq, Hv in H2.
    assert (throwing σ value = false) as Hthrow.
    { unfold throwing, instanceof_ZodObject in *. rewrite Hv in *.
      by destruct v as [[] ? ?]. }
    assert (composite_child σ value = Some value) as Hchild.
    { unfold composite_child, composite, instanceof_ZodObject in *.
      rewrite Hv in *. by destruct v as [[] ? ?]. }
    assert (merge_of σ value key = merge_object key) as Hmerge.
    { unfold merge_of, instanceof_ZodObject in *. rewrite Hv in *.
      by destruct v as [[] ? ?]. }
    rewrite Hthrow, Hchild, Hmerge in H2.
    assert (getPath_nested (getPath σ fuel) value [key] (merge_object key) paths1
              visited1 = (Return paths2, visited2)) as Hnested.
    { unfold instanceof_ZodObject in Hobj. rewrite Hv in Hobj.
      by destruct v as [[] ? ?]. }
    clear H2. rewrite getPath_nested_eq in Hnested.
    rewrite bool_decide_eq_false_2 in Hnested by done.
    assert (is_Some (σ !! schema)) as Hsome.
    { apply instanceof_ZodObject_is_Some, instanceof_ZodObject_shape. eauto. }
    apply lookup_lt_is_Some in Hsome.
    destruct fuel as [|fuel']; [lia|].
    rewrite (getPath_unfold σ fuel' value _ [key] visited1 Hshape' Hfresh)
      in Hnested.
    rewrite getPath_loop_leaves in Hnested by (intros e He; by apply Hleaves).
    injection Hnested as <- _.
    assert (dot_free sub = true) as Hsub.
    { apply (Hleaves (sub, value')). apply elem_of_app. right.
      apply list_elem_of_here. }
    apply (forEach_hit _
             (λ e, String.eqb (short_key key e.1) (key +:+ "." +:+ sub) ||
                   String.eqb e.1 (key +:+ "." +:+ sub))
             snd).
    + intros acc [nk np]. apply merge_object_get.
    + exists (leaf_key [key] sub v', physical_path [key] sub v'). split.
      * apply get_In. apply leaf_paths_lookup; [done|].
        intros entry v0 Hentry Hv0 Heq.
        assert (entry.1 ≠ sub) as Hne.
        { intros Hsame. rewrite fmap_app, fmap_cons in Hnd1. simpl in Hnd1.
          apply NoDup_app in Hnd1 as (_ & _ & Hnd1).
          apply NoDup_cons in Hnd1 as [Hnd1 _]. apply Hnd1. rewrite <- Hsame.
          apply list_elem_of_fmap. by exists entry. }
        assert (dot_free entry.1 = true) as Hdot.
        { apply Hleaves. apply elem_of_app. right.
          by apply list_elem_of_further. }
        destruct (leaf_key_nested key entry.1 v0) as [H0|H0];
          destruct (leaf_key_nested key sub v') as [H1|H1];
          rewrite H0, H1 in Heq.
        -- done.
        -- by apply dotted_ne in Heq.
        -- symmetry in Heq. by apply dotted_ne in Heq.
        -- by apply dotted_inj in Heq.
      * simpl. rewrite short_key_leaf_key by done. by rewrite String.eqb_refl.
    + intros [nk np] Hin Hhit. simpl in *.
      apply leaf_paths_entries in Hin as [Hin|(k & val & v0 & Hk & Hv0 & -> & ->)];
        [by apply elem_of_nil in Hin|].
      assert (dot_free k = true) as Hdot by (by apply (Hleaves (k, val))).
      rewrite short_key_leaf_key in Hhit by done.
      assert (k = sub) as ->.
      { apply orb_true_iff in Hhit as [Hhit|Hhit]; apply String.eqb_eq in Hhit.
        - by apply dotted_inj in Hhit.
        - destruct (leaf_key_nested key k v0) as [H0|H0]; rewrite H0 in Hhit.
          + by apply dotted_ne in Hhit.
          + by apply dotted_inj in Hhit. }
      assert (val = value') as ->.
      { eapply (NoDup_fst_inj _ sub); [exact Hnd1 | done |].
        apply elem_of_app. right. apply list_elem_of_here. }
      congruence.
  - intros Hbefore Hleaf x Hx.
    rewrite getPath_loop_leaves in Hloop.
    2:{ intros entry [Hentry|Hentry]%elem_of_app; [by apply Hbefore|].
        apply elem_of_cons in Hentry as [->|Hentry]; [done | by apply Hafter]. }
    injection Hloop as <- _.
    rewrite leaf_paths_frame; [done|].
    intros entry v0 Hentry _. rewrite leaf_key_root. intros <-.
    apply Hx. apply list_elem_of_fmap. by exists entry.
Qed.

(** * The other helpers *)

(** ** Splitting and joining dotted keys *)

Section split_facts.
Implicit Types (s t acc : string) (path : list string).

Lemma split_from_dot_free acc s :
  dot_free s = true → Str.split_from acc s = [acc +:+ s].
Proof.
  unfold dot_free. revert acc. induction s as [|a s IH]; intros acc; simpl.
  - intros _. by rewrite append_empty_r.
  - rewrite is_dot. destruct (Ascii.eqb a dot); [done|]. intros Hs.
    rewrite IH by done. by rewrite append_snoc.
Qed.

Lemma split_from_dotted acc s t :
  dot_free s = true →
  Str.split_from acc (s +:+ "." +:+ t) = (acc +:+ s) :: Str.split t.
Proof.
  unfold dot_free. revert acc. induction s as [|a s IH]; intros acc.
  - intros _. rewrite append_empty_l, append_cons. simpl.
    by rewrite append_empty_r.
  - rewrite append_cons. simpl. rewrite is_dot.
    destruct (Ascii.eqb a dot); [done|]. intros Hs.
    rewrite IH by done. by rewrite append_snoc.
Qed.

(** Splitting undoes joining, for segments without dots. *)
Lemma split_join path :
  path ≠ [] → Forall (λ s, dot_free s = true) path →
  Str.split (Js.join path) = path.
Proof.
  intros Hne Hall. induction Hall as [|s path Hs Hall IH]; [done|].
  destruct path as [|s' path].
  - simpl. unfold Str.split. by rewrite split_from_dot_free.
  - change (Js.join (s :: s' :: path))
      with (s +:+ "." +:+ Js.join (s' :: path)).
    unfold Str.split at 1. rewrite split_from_dotted by done.
    rewrite append_empty_l. f_equal. by apply IH.
Qed.

Lemma split_from_last acc s :
  last (Str.split_from acc s) = Some (Js.last_segment_from acc s).
Proof.
  revert acc. induction s as [|a s IH]; intros acc; simpl; [done|].
  destruct (Ascii.N_of_ascii a =? 46)%N; [|apply IH].
  specialize (IH EmptyString).
  destruct (Str.split_from EmptyString s); [done | exact IH].
Qed.

(** [s.split('.').pop()] is the last element of [s.split('.')]. *)
Lemma last_split s : last (Str.split s) = Some (Js.last_segment s).
Proof. apply split_from_last. Qed.

Lemma dotted_nonempty s t : s +:+ "." +:+ t ≠ EmptyString.
Proof. by destruct s. Qed.

Lemma dotted_inj_l s s' t t' :
  dot_free s = true → dot_free s' = true →
  s +:+ "." +:+ t = s' +:+ "." +:+ t' → s = s' ∧ t = t'.
Proof.
  unfold dot_free. revert s'.
  induction s as [|a s IH]; intros [|a' s']; simpl;
    rewrite ?append_empty_l, ?append_cons.
  - intros _ _ [= H]. split; [done | exact H].
  - intros _ Hs' [= <- _]. simpl in Hs'. done.
  - intros Hs _ [= -> _]. simpl in Hs. done.
  - intros Hs Hs' [= -> H].
    destruct (Ascii.eqb a' dot); [done|].
    destruct (IH s' Hs Hs' H) as [-> ->]. done.
Qed.
End split_facts.

(** ** Records written key by key *)

Section assignment_facts.
Context {V : Type}.
Implicit Types (x : string) (v : V) (ws acc : list (string * V)).

(** A key that is written holds one of the values written under it;
    a key that is not keeps what it held. *)
Lemma get_assignments x ws acc :
  (x ∉ (ws.*1) →
   Js.get x (foldl (λ r e, Js.set e.1 e.2 r) acc ws) = Js.get x acc) ∧
  (x ∈ (ws.*1) →
   ∃ v, Js.get x (foldl (λ r e, Js.set e.1 e.2 r) acc ws) = Some v ∧
        (x, v) ∈ ws).
Proof.
  induction ws as [|[k w] ws IH] using rev_ind; [split; [done | by inv 1]|].
  rewrite foldl_app, fmap_app. simpl. rewrite get_set.
  destruct IH as [IHout IHin]. split.
  - intros Hx. apply not_elem_of_app in Hx as [Hx Hk].
    apply not_elem_of_cons in Hk as [Hk _].
    destruct (String.eqb_spec k x); [done|]. auto.
  - intros Hx. destruct (String.eqb_spec k x) as [->|Hne].
    + exists w. split; [done|]. apply elem_of_app. right. apply list_elem_of_here.
    + apply elem_of_app in Hx as [Hx|Hx].
      * destruct (IHin Hx) as (v & Hv & Hin). exists v. split; [done|].
        apply elem_of_app. by left.
      * apply list_elem_of_singleton in Hx. simpl in Hx. congruence.
Qed.

Lemma get_assigned x v ws :
  Js.get x (foldl (λ r e, Js.set e.1 e.2 r) [] ws) = Some v → (x, v) ∈ ws.
Proof.
  intros Hget. destruct (get_assignments x ws []) as [Hout Hin].
  destruct (decide (x ∈ (ws.*1))) as [Hx|Hx].
  - destruct (Hin Hx) as (v' & Hv' & Hmem). congruence.
  - rewrite Hout in Hget by done. done.
Qed.
End assignment_facts.

Lemma foldl_reverse {A B} (f : B → A → B) (b : B) (l : list A) :
  foldl f b (reverse l) = foldr (λ x acc, f acc x) b l.
Proof.
  induction l as [|x l IH]; [done|].
  rewrite reverse_cons, foldl_app. simpl. by rewrite IH.
Qed.

(** ** [nestedToDotObject] *)

Section nestedToDotObject_facts.
Implicit Types (obj nested : list (string * jsval)).

Lemma nestedToDotObject_inner (key : string) nested result :
  forEach nested result (fun result '(nestedKey, nestedValue) =>
    Js.set (key +:+ "." +:+ nestedKey) nestedValue result) =
  foldl (λ r e, Js.set e.1 e.2 r) result
    ((λ inner, (key +:+ "." +:+ inner.1, inner.2)) <$> nested).
Proof.
  unfold forEach. revert result.
  induction nested as [|[nk nv] nested IH]; intros result; [done|].
  simpl. apply IH.
Qed.

Lemma nestedToDotObject_from obj result :
  forEach obj result (fun result '(key, value) =>
    match value with
    | JObject nested =>
        forEach nested result (fun result '(nestedKey, nestedValue) =>
          Js.set (key +:+ "." +:+ nestedKey) nestedValue result)
    | JDate _ => result
    | _ => Js.set key value result
    end) =
  foldl (λ r e, Js.set e.1 e.2 r) result (flat_entries obj).
Proof.
  unfold flat_entries. revert result.
  induction obj as [|[key value] obj IH]; intros result; [done|].
  rewrite bind_cons, foldl_app. unfold forEach at 1. simpl foldl at 1.
  unfold forEach in IH. rewrite IH. f_equal.
  destruct value; try reflexivity. apply nestedToDotObject_inner.
Qed.

(** [nestedToDotObject] makes the writes of [flat_entries], nothing
    else. *)
Lemma nestedToDotObject_flat_entries obj :
  nestedToDotObject obj = foldl (λ r e, Js.set e.1 e.2 r) [] (flat_entries obj).
Proof. apply nestedToDotObject_from. Qed.

Lemma elem_of_flat_entries obj (x : string) (v : jsval) :
  (x, v) ∈ flat_entries obj ↔
  ((x, v) ∈ obj ∧ spread v = false) ∨
  (∃ key nested nestedKey,
      x = key +:+ "." +:+ nestedKey ∧ (key, JObject nested) ∈ obj ∧
      (nestedKey, v) ∈ nested).
Proof.
  unfold flat_entries. rewrite list_elem_of_bind. split.
  - intros ([key value] & Hin & Hobj). simpl in Hin.
    destruct value;
      try (apply list_elem_of_singleton in Hin as [= -> ->]; by left).
    + by apply elem_of_nil in Hin.
    + apply list_elem_of_fmap in Hin as ([nk nv] & [= -> ->] & Hin).
      right. by exists key, fields, nk.
  - intros [[Hin Hspread]|(key & nested & nk & -> & Hin & Hnested)].
    + exists (x, v). split; [|done]. simpl.
      destruct v; try discriminate Hspread; apply list_elem_of_here.
    + exists (key, JObject nested). split; [|done]. simpl.
      apply list_elem_of_fmap. by exists (nk, v).
Qed.

Lemma spread_object nested : spread (JObject nested) = true.
Proof. reflexivity. Qed.
End nestedToDotObject_facts.

(** ** [dotToNestedObject] *)

Lemma dotToNestedObject_join (path : list string) (value : jsval) :
  Forall (λ s, dot_free s = true) path → Js.join path ≠ EmptyString →
  dotToNestedObject (Js.join path) value = chain path (or_true value).
Proof.
  intros Hall Hne. unfold dotToNestedObject.
  destruct (Js.join path) as [|a s] eqn:Hjoin; [done|].
  rewrite <- Hjoin, split_join; [|by intros ->|done].
  apply foldl_reverse.
Qed.

(** ** [setNestedKey] *)

Section setNestedKey_facts.
Implicit Types (obj : list (string * capability)) (path : list string).

Lemma setNestedKey_cons obj (key next : string) path (value : capability) :
  setNestedKey obj (key :: next :: path) value =
    match Js.get key obj with
    | None =>
        let* inner := setNestedKey [] (next :: path) value in
        Return (Js.set key (CTree inner) obj)
    | Some (CTree current) =>
        let* inner := setNestedKey current (next :: path) value in
        Return (Js.set key (CTree inner) obj)
    | Some CTrue => Throw TypeError
    end.
Proof. reflexivity. Qed.

Lemma get_path_cons (key : string) path fields :
  get_path (key :: path) (CTree fields) = Js.get key fields ≫= get_path path.
Proof. reflexivity. Qed.

Lemma get_path_CTrue path (c : capability) :
  get_path path CTrue = Some c → path = [].
Proof. by destruct path. Qed.

(** From the empty object, [setNestedKey] builds the chain of the path. *)
Lemma setNestedKey_empty path (value : capability) :
  path ≠ [] →
  ∃ obj', setNestedKey [] path value = Return obj' ∧
          CTree obj' = foldr (λ key acc, CTree [(key, acc)]) value path.
Proof.
  induction path as [|key [|next path] IH]; [done| |]; intros _.
  - by exists [(key, value)].
  - destruct IH as (inner & Hinner & Hchain); [done|].
    rewrite setNestedKey_cons. simpl Js.get. rewrite Hinner. simpl bind.
    eexists. split; [reflexivity|]. simpl Js.set.
    change (foldr (λ key acc, CTree [(key, acc)]) value (key :: next :: path))
      with (CTree [(key, foldr (λ key acc, CTree [(key, acc)]) value
                           (next :: path))]).
    by rewrite <- Hchain.
Qed.

Lemma to_js_chain path :
  to_js (foldr (λ key acc, CTree [(key, acc)]) CTrue path) =
  chain path (JBool true).
Proof. induction path as [|key path IH]; [done|]. simpl. by rewrite IH. Qed.
End setNestedKey_facts.

(** ** Results on the helpers *)

(** X1: [isPlainObject] never throws, and answers [true] for the object
    literals only: [false] for [null] (whose [typeof] is ['object']), for
    an array, for a date and for every primitive value. *)
Theorem isPlainObject_object_literals (val : jsval) :
  isPlainObject val =
    Return match val with JObject _ => true | _ => false end.
Proof. destruct val; reflexivity. Qed.

(** X2: [nestedToDotObject] flattens one level.  For an object with
    distinct keys without dots: a key whose value is no object (a
    primitive, [null], an array) keeps its value, and a key whose value is
    an object (a date included) is no key of the result; each key
    [nestedKey] of an object under [key] is found under [key.nestedKey]
    with its value, be that value an object or not; and the result holds
    nothing else. *)
Theorem nestedToDotObject_lookup (obj : list (string * jsval)) :
  NoDup (obj.*1) →
  (∀ key value, (key, value) ∈ obj → dot_free key = true) →
  (∀ key value,
      (key, value) ∈ obj →
      Js.get key (nestedToDotObject obj) =
        if spread value then None else Some value) ∧
  (∀ key nested nestedKey nestedValue,
      (key, JObject nested) ∈ obj → NoDup (nested.*1) →
      (nestedKey, nestedValue) ∈ nested →
      Js.get (key +:+ "." +:+ nestedKey) (nestedToDotObject obj) =
        Some nestedValue) ∧
  (∀ x v,
      Js.get x (nestedToDotObject obj) = Some v →
      ((x, v) ∈ obj ∧ spread v = false) ∨
      (∃ key nested nestedKey,
          x = key +:+ "." +:+ nestedKey ∧ (key, JObject nested) ∈ obj ∧
          (nestedKey, v) ∈ nested)).
Proof.
  intros Hnd Hdots. rewrite nestedToDotObject_flat_entries.
  assert (∀ x v, Js.get x (foldl (λ r e, Js.set e.1 e.2 r) []
                             (flat_entries obj)) = Some v →
                 ((x, v) ∈ obj ∧ spread v = false) ∨
                 (∃ key nested nestedKey,
                     x = key +:+ "." +:+ nestedKey ∧
                     (key, JObject nested) ∈ obj ∧ (nestedKey, v) ∈ nested))
    as Hsound.
  { intros x v Hget. by apply elem_of_flat_entries, get_assigned. }
  split; [|split; [|exact Hsound]].
  - intros key value Hin.
    destruct (Js.get key (foldl _ _ _)) as [v|] eqn:Hget.
    + destruct (Hsound _ _ Hget) as [[Hin' Hflat]|(k & n & nk & -> & _)].
      * rewrite (NoDup_fst_inj _ _ _ _ Hnd Hin Hin'). by rewrite Hflat.
      * apply Hdots in Hin. by rewrite dotted_not_dot_free in Hin.
    + destruct (spread value) eqn:Hflat; [done|].
      destruct (get_assignments key (flat_entries obj) []) as [_ Hwritten].
      destruct Hwritten as (v & Hv & _); [|congruence].
      apply list_elem_of_fmap. exists (key, value). split; [done|].
      apply elem_of_flat_entries. by left.
  - intros key nested nk nv Hin Hnested Hnk.
    destruct (get_assignments (key +:+ "." +:+ nk) (flat_entries obj) [])
      as [_ Hwritten].
    destruct Hwritten as (v & Hv & Hmem).
    { apply list_elem_of_fmap. exists (key +:+ "." +:+ nk, nv). split; [done|].
      apply elem_of_flat_entries. right. eauto 6. }
    rewrite Hv. f_equal.
    apply elem_of_flat_entries in Hmem
      as [[Hin' _]|(k' & n' & nk' & Heq & Hin' & Hnk')].
    + apply Hdots in Hin'. by rewrite dotted_not_dot_free in Hin'.
    + apply dotted_inj_l in Heq as [<- <-]; [|by eapply Hdots..].
      assert (JObject n' = JObject nested) as [= ->]
        by (by eapply (NoDup_fst_inj obj key)).
      by eapply (NoDup_fst_inj nested nk).
Qed.

Lemma nestedToDotObject_lookup_witness :
  Js.get "name"
    (nestedToDotObject
       [("name", JBool true);
        ("profile", JObject [("bio", JBool true);
                             ("links", JObject [("web", JBool true)])])]) =
    Some (JBool true) ∧
  Js.get "profile"
    (nestedToDotObject
       [("name", JBool true);
        ("profile", JObject [("bio", JBool true);
                             ("links", JObject [("web", JBool true)])])]) =
    None ∧
  Js.get "profile.links"
    (nestedToDotObject
       [("name", JBool true);
        ("profile", JObject [("bio", JBool true);
                             ("links", JObject [("web", JBool true)])])]) =
    Some (JObject [("web", JBool true)]).
Proof.
  destruct (nestedToDotObject_lookup
              [("name", JBool true);
               ("profile", JObject [("bio", JBool true);
                                    ("links", JObject [("web", JBool true)])])])
    as (Htop & Hnested & _).
  { apply (bool_decide_unpack _). exact I. }
  { intros key value Hin.
    repeat (apply elem_of_cons in Hin as [[= -> _]|Hin]; [reflexivity|]).
    by apply elem_of_nil in Hin. }
  split; [|split].
  - apply (Htop "name" (JBool true)). apply list_elem_of_here.
  - apply (Htop "profile"
             (JObject [("bio", JBool true);
                       ("links", JObject [("web", JBool true)])])).
    apply list_elem_of_further, list_elem_of_here.
  - apply (Hnested "profile"
             [("bio", JBool true); ("links", JObject [("web", JBool true)])]
             "links" (JObject [("web", JBool true)])).
    + apply list_elem_of_further, list_elem_of_here.
    + apply (bool_decide_unpack _). exact I.
    + apply list_elem_of_further, list_elem_of_here.
Defined.

(** X3: for segments without dots, [dotToNestedObject] of their dotted
    key is the chain of one-key objects that holds the value at its end,
    the value being [true] when none (or [undefined]) is given; and it is
    the empty object when the dotted key is the empty string, whatever the
    value. *)
Theorem dotToNestedObject_chain (path : list string) (value : jsval) :
  Forall (λ s, dot_free s = true) path →
  dotToNestedObject (Js.join path) value =
    if String.eqb (Js.join path) EmptyString then JObject []
    else chain path (or_true value).
Proof.
  intros Hall. destruct (String.eqb_spec (Js.join path) EmptyString) as [->|Hne].
  - reflexivity.
  - by apply dotToNestedObject_join.
Qed.

Lemma dotToNestedObject_chain_witness :
  dotToNestedObject "user.profile.role" JUndefined =
    JObject [("user", JObject [("profile", JObject [("role", JBool true)])])].
Proof.
  apply (dotToNestedObject_chain ["user"; "profile"; "role"] JUndefined).
  repeat constructor.
Defined.

(** X4: flattening undoes nesting for a dotted key of two segments:
    [nestedToDotObject(dotToNestedObject('key.sub', value))] is [{'key.sub':
    value}].  With further segments the first two are joined again and the
    others stay nested; a key of one segment comes back when its value is
    no object. *)
Theorem nestedToDotObject_dotToNestedObject
    (key sub : string) (rest : list string) (value : jsval) :
  dot_free key = true → dot_free sub = true →
  Forall (λ s, dot_free s = true) rest →
  (∃ fields,
      dotToNestedObject (Js.join (key :: sub :: rest)) value = JObject fields ∧
      nestedToDotObject fields =
        [(key +:+ "." +:+ sub, chain rest (or_true value))]) ∧
  (key ≠ EmptyString → spread (or_true value) = false →
   ∃ fields,
      dotToNestedObject key value = JObject fields ∧
      nestedToDotObject fields = [(key, or_true value)]).
Proof.
  intros Hkey Hsub Hrest. split.
  - rewrite dotToNestedObject_join; [|by repeat constructor|].
    + eexists. split; reflexivity.
    + change (Js.join (key :: sub :: rest))
        with (key +:+ "." +:+ Js.join (sub :: rest)).
      apply dotted_nonempty.
  - intros Hne Hflat.
    pose proof (dotToNestedObject_join [key] value) as Hchain.
    rewrite join_singleton in Hchain.
    rewrite Hchain; [|by repeat constructor|done].
    eexists. split; [reflexivity|].
    unfold nestedToDotObject, forEach. simpl.
    by destruct (or_true value).
Qed.

Lemma nestedToDotObject_dotToNestedObject_witness :
  ∃ fields,
    dotToNestedObject "profile.bio" (JString "x") = JObject fields ∧
    nestedToDotObject fields = [("profile.bio", JString "x")].
Proof.
  exact (proj1 (nestedToDotObject_dotToNestedObject "profile" "bio" []
                  (JString "x") eq_refl eq_refl (Forall_nil_2 _))).
Defined.

(** X5: what [setNestedKey] writes can be read back.  When
    [setNestedKey(obj, path, value)] returns, for a non-empty path whose
    keys [Object.prototype] does not have, [obj] holds [value] at the end
    of the path, and its properties other than the first key of the path
    are as they were. *)
Theorem setNestedKey_get_path
    (obj : list (string * capability)) (path : list string)
    (value : capability) (obj' : list (string * capability)) :
  path ≠ [] → Forall (λ key, key ∉ Object_prototype) path →
  setNestedKey obj path value = Return obj' →
  get_path path (CTree obj') = Some value ∧
  ∀ k, head path ≠ Some k → Js.get k obj' = Js.get k obj.
Proof.
  intros Hne _. revert obj obj' Hne.
  induction path as [|key [|next path] IH]; intros obj obj' Hne; [done| |].
  - intros [= <-]. split.
    + rewrite get_path_cons, get_set_eq. done.
    + intros k Hk. apply get_set_ne. intros ->. done.
  - rewrite setNestedKey_cons. intros Hset.
    assert (∃ current inner,
               setNestedKey current (next :: path) value = Return inner ∧
               obj' = Js.set key (CTree inner) obj) as (current & inner & Hin & ->).
    { destruct (Js.get key obj) as [[|current]|]; [done| |].
      - destruct (setNestedKey current (next :: path) value) as [inner| |] eqn:E;
          [|done..].
        injection Hset as <-. eauto.
      - destruct (setNestedKey [] (next :: path) value) as [inner| |] eqn:E;
          [|done..].
        injection Hset as <-. eauto. }
    split.
    + rewrite get_path_cons, get_set_eq. simpl.
      by apply (IH current inner).
    + intros k Hk. apply get_set_ne. intros ->. done.
Qed.

Lemma setNestedKey_get_path_witness :
  get_path ["profile"; "bio"]
    (CTree [("name", CTrue); ("profile", CTree [("age", CTrue); ("bio", CTrue)])]) =
    Some CTrue ∧
  Js.get "name"
    [("name", CTrue); ("profile", CTree [("age", CTrue); ("bio", CTrue)])] =
    Some CTrue.
Proof.
  destruct (setNestedKey_get_path
              [("name", CTrue); ("profile", CTree [("age", CTrue)])]
              ["profile"; "bio"] CTrue
              [("name", CTrue); ("profile", CTree [("age", CTrue); ("bio", CTrue)])])
    as [Hread Hothers].
  - discriminate.
  - repeat constructor; apply (bool_decide_unpack _); exact I.
  - reflexivity.
  - split; [exact Hread|]. apply (Hothers "name"). discriminate.
Defined.

(** X6: [setNestedKey] fails, with a [TypeError], exactly when a proper
    prefix of the path leads to the value [true], on which no property can
    be written; otherwise it returns.  (The keys of the path are ones that
    [Object.prototype] does not have.) *)
Theorem setNestedKey_throws
    (obj : list (string * capability)) (path : list string)
    (value : capability) :
  Forall (λ key, key ∉ Object_prototype) path →
  ((∃ pre post, path = (pre ++ post)%list ∧ pre ≠ [] ∧ post ≠ [] ∧
                get_path pre (CTree obj) = Some CTrue) →
   setNestedKey obj path value = Throw TypeError) ∧
  ((¬ ∃ pre post, path = (pre ++ post)%list ∧ pre ≠ [] ∧ post ≠ [] ∧
                  get_path pre (CTree obj) = Some CTrue) →
   ∃ obj', setNestedKey obj path value = Return obj').
Proof.
  intros _. revert obj.
  induction path as [|key [|next path] IH]; intros obj.
  - split; [|by eexists].
    intros (pre & post & Heq & Hpre & _). by destruct pre.
  - split; [|by eexists].
    intros (pre & post & Heq & Hpre & Hpost & _).
    destruct pre as [|? [|? ?]], post; done.
  - rewrite setNestedKey_cons. split.
    + intros (pre & post & Heq & Hpre & Hpost & Hget).
      destruct pre as [|k pre]; [done|]. injection Heq as <- Heq.
      rewrite get_path_cons in Hget.
      destruct (Js.get key obj) as [[|current]|]; [done| |done].
      simpl in Hget.
      rewrite (proj1 (IH current)); [done|].
      destruct pre as [|k' pre]; [done|]. by exists (k' :: pre), post.
    + intros Hfree.
      destruct (Js.get key obj) as [[|current]|] eqn:Hkey.
      * destruct Hfree. exists [key], (next :: path).
        rewrite get_path_cons, Hkey. done.
      * destruct (proj2 (IH current)) as [inner ->]; [|by eexists].
        intros (pre & post & Heq & Hpre & Hpost & Hget). apply Hfree.
        exists (key :: pre), post. rewrite Heq, get_path_cons, Hkey. done.
      * destruct (setNestedKey_empty (next :: path) value) as (inner & -> & _);
          [done | by eexists].
Qed.

Lemma setNestedKey_throws_witness :
  setNestedKey [("profile", CTrue)] ["profile"; "bio"] CTrue = Throw TypeError.
Proof.
  apply (setNestedKey_throws [("profile", CTrue)] ["profile"; "bio"] CTrue).
  - repeat constructor; apply (bool_decide_unpack _); exact I.
  - by exists ["profile"], ["bio"].
Defined.

(** X7: on the empty object [setNestedKey] builds what
    [dotToNestedObject] builds: for a non-empty path of segments without
    dots that [Object.prototype] does not have, the dotted key not being
    the empty string, [setNestedKey({}, path, true)] returns, and leaves
    in its object the value of [dotToNestedObject(path.join('.'))]. *)
Theorem setNestedKey_dotToNestedObject (path : list string) :
  path ≠ [] → Js.join path ≠ EmptyString →
  Forall (λ s, dot_free s = true) path →
  Forall (λ key, key ∉ Object_prototype) path →
  ∃ obj', setNestedKey [] path CTrue = Return obj' ∧
          to_js (CTree obj') = dotToNestedObject (Js.join path) JUndefined.
Proof.
  intros Hne Hjoin Hdots _.
  destruct (setNestedKey_empty path CTrue Hne) as (obj' & Hset & Hchain).
  exists obj'. split; [done|].
  by rewrite Hchain, to_js_chain, dotToNestedObject_join.
Qed.

Lemma setNestedKey_dotToNestedObject_witness :
  ∃ obj', setNestedKey [] ["profile"; "bio"] CTrue = Return obj' ∧
          to_js (CTree obj') = dotToNestedObject "profile.bio" JUndefined.
Proof.
  apply (setNestedKey_dotToNestedObject ["profile"; "bio"]).
  - discriminate.
  - discriminate.
  - repeat constructor.
  - repeat constructor; apply (bool_decide_unpack _); exact I.
Defined.

(** X8: each method of the annotator sets its own annotation and keeps
    the three others, so that chained annotations add up and the last
    value given for an annotation is the one that is read; a path alias
    makes [isPath] true even when the list of its segments is empty. *)
Theorem annotations_round_trip
    (t : ZodType) (value : bool) (aliases : list string) :
  annotations (set_filterable value t) =
    (value, isSortable t, isQueryable t, description_path t) ∧
  annotations (set_sortable value t) =
    (isFilterable t, value, isQueryable t, description_path t) ∧
  annotations (set_queryable value t) =
    (isFilterable t, isSortable t, value, description_path t) ∧
  annotations (set_path aliases t) =
    (isFilterable t, isSortable t, isQueryable t, Some aliases) ∧
  isPath (set_path aliases t) = true.
Proof.
  unfold annotations, isFilterable, isSortable, isQueryable, isPath,
    description_path, flag.
  destruct t as [d [desc|] e]; simpl; repeat split; reflexivity.
Qed.

(** * The validators, continued *)

Section options_more_facts.
Variable errorMap : issue → string.
Implicit Types (fields cf fm : list (string * jsval)) (lines : list string).

Lemma operator_of_name_prototype (name : string) :
  name ∈ Object_prototype → operator_of_name name = None.
Proof.
  unfold Object_prototype. intros Hin.
  repeat (apply elem_of_cons in Hin as [->|Hin]; [reflexivity|]).
  by apply elem_of_nil in Hin.
Qed.

Lemma read_Inherited (name : string) :
  name ∈ Object_prototype → read sequelizeOperatorValidators name = Inherited.
Proof.
  intros Hin. unfold read.
  rewrite (proj2 (table_names name)) by (by apply operator_of_name_prototype).
  by rewrite bool_decide_eq_true_2.
Qed.

(** The entries that the loop has accepted change nothing. *)
Lemma validateOptions_skip pre rest fm lines :
  Js.has "hasOwnProperty" (nestedToDotObject fm) = false →
  forallb (accepted (nestedToDotObject fm)) pre = true →
  validateOptions errorMap (pre ++ rest) fm lines =
  validateOptions errorMap rest fm lines.
Proof.
  intros Hshadow. unfold validateOptions.
  induction pre as [|[key value] pre IH]; [done|]. simpl forallb.
  intros [Hacc Hpre]%andb_true_iff. simpl app.
  rewrite for_of_returning_cons, validateOptions_entry_accepted by done.
  auto.
Qed.

Lemma validateOptions_entry_prototype fields key value lines :
  Js.has "hasOwnProperty" fields = false → key ∈ Object_prototype →
  validateOptions_entry errorMap fields (key, value) lines =
  (Throw TypeError, lines).
Proof.
  intros Hshadow Hproto. unfold validateOptions_entry, hasOwnProperty.
  rewrite Hshadow, (read_Inherited _ Hproto). unfold bindM at 1. unfold lift at 1.
  simpl truthy. rewrite andb_false_r. unfold bindM. cbn [truthy].
  rewrite validateOperatorInput_inherited; [done| |done].
  apply table_names. by apply operator_of_name_prototype.
Qed.

Lemma validateOptions_entry_nullish fields key value lines :
  Js.has "hasOwnProperty" fields = false → Js.has key fields = true →
  operator_of_name key = None → key ∉ Object_prototype →
  nullish value = true →
  validateOptions_entry errorMap fields (key, value) lines =
  (Throw TypeError, lines).
Proof.
  intros Hshadow Hknown Hop Hproto Hnull.
  unfold validateOptions_entry, hasOwnProperty.
  rewrite Hshadow, Hknown, (read_Undefined _ Hop Hproto).
  by destruct value.
Qed.

Lemma validateOptions_entry_raising fields entry lines :
  Js.has "hasOwnProperty" fields = false → raising fields entry = true →
  validateOptions_entry errorMap fields entry lines = (Throw TypeError, lines).
Proof.
  intros Hshadow Hraise. destruct entry as [key value]. simpl in Hraise.
  destruct (decide (key ∈ Object_prototype)) as [Hproto|Hproto];
    [by apply validateOptions_entry_prototype|].
  rewrite bool_decide_eq_false_2 in Hraise by done. simpl in Hraise.
  destruct (operator_of_name key) eqn:Hop; [done|].
  apply andb_true_iff in Hraise as [Hknown Hnull].
  by apply validateOptions_entry_nullish.
Qed.

Lemma validateOptions_entry_refused fields (op : operator) value lines :
  Js.has "hasOwnProperty" fields = false →
  shape_contract op value = false →
  ∃ issues,
    issues ≠ [] ∧
    validateOptions_entry errorMap fields (operator_name op, value) lines =
    (Return (Some (None, Some (ErrObject (ZodError issues)))),
     (lines ++ [join_comma (issue_message errorMap <$> issues)])%list).
Proof.
  intros Hshadow Hshape. unfold validateOptions_entry, hasOwnProperty.
  rewrite Hshadow. unfold bindM at 1. unfold lift at 1.
  rewrite read_operator, andb_false_r.
  destruct (table_entry op) as (schema & Hget & Hcontract).
  unfold bindM. rewrite (validateOperatorInput_own _ _ _ _ _ Hget).
  destruct (issues_of schema value) as [|i issues] eqn:Hissues.
  - apply Hcontract in Hissues. congruence.
  - by exists (i :: issues).
Qed.

(** An entry that is not [raising] makes the loop go on or return. *)
Lemma validateOptions_entry_returns fields entry lines :
  Js.has "hasOwnProperty" fields = false → raising fields entry = false →
  ∃ returned lines',
    validateOptions_entry errorMap fields entry lines =
    (Return returned, lines').
Proof.
  intros Hshadow Hraise. destruct entry as [key value]. simpl in Hraise.
  apply orb_false_iff in Hraise as [Hproto Hraise].
  apply bool_decide_eq_false in Hproto.
  destruct (operator_of_name key) as [op|] eqn:Hop.
  - apply operator_of_name_Some in Hop. subst key.
    unfold validateOptions_entry, hasOwnProperty.
    rewrite Hshadow. unfold bindM at 1. unfold lift at 1.
    rewrite read_operator, andb_false_r.
    destruct (table_entry op) as (schema & Hget & _).
    unfold bindM. rewrite (validateOperatorInput_own _ _ _ _ _ Hget).
    destruct (issues_of schema value); eauto.
  - destruct (Js.has key fields) eqn:Hknown.
    + simpl in Hraise.
      rewrite validateOptions_entry_accepted; [eauto|done|].
      unfold accepted. rewrite Hop, Hknown, Hraise.
      by rewrite bool_decide_eq_false_2.
    + rewrite validateOptions_entry_unknown by done. eauto.
Qed.

(** The console gets a line from an entry exactly when the entry makes
    the loop return a [ZodError]. *)
Lemma validateOptions_entry_console fields entry lines out lines' :
  validateOptions_entry errorMap fields entry lines = (out, lines') →
  (lines' = lines ∧
   ∀ issues, out ≠ Return (Some (None, Some (ErrObject (ZodError issues))))) ∨
  (∃ issues,
      out = Return (Some (None, Some (ErrObject (ZodError issues)))) ∧
      lines' = (lines ++ [join_comma (issue_message errorMap <$> issues)])%list).
Proof.
  destruct entry as [key value]. unfold validateOptions_entry, hasOwnProperty.
  destruct (Js.has "hasOwnProperty" fields); [intros [= <- <-]; by left|].
  unfold bindM at 1. unfold lift at 1.
  destruct (negb (Js.has key fields) &&
            negb (truthy (read sequelizeOperatorValidators key)));
    [intros [= <- <-]; by left|].
  destruct (truthy (read sequelizeOperatorValidators key)) eqn:Htruthy.
  - unfold bindM, validateOperatorInput. rewrite Htruthy. simpl.
    unfold try_catch, bindM, lift, call_parse.
    destruct (read sequelizeOperatorValidators key) as [schema| |];
      simpl; [|intros [= <- <-]; by left | done].
    unfold parse. destruct (issues_of schema value) as [|i issues]; simpl;
      intros [= <- <-]; [by left | right; eauto].
  - unfold bindM, lift.
    destruct value; simpl;
      repeat match goal with
             | |- context [(0 <? ?n)%nat] => destruct (0 <? n)%nat
             | |- context [negb ?b] => destruct (negb b)
             end; simpl; intros [= <- <-]; by left.
Qed.
End options_more_facts.

(** ** Further results on the validators *)

(** X9: for a name that is no operator of the table,
    [validateOperatorInput] throws and writes nothing to the console:
    [Error("Unsupported operator: <name>")], except for the names that
    [Object.prototype] has ([constructor], [toString], ...), which pass the
    test of the table and on which the call of [parse] fails with a
    [TypeError]. *)
Theorem validateOperatorInput_unsupported
    (errorMap : issue → string) (name : string) (value : jsval)
    (lines : list string) :
  operator_of_name name = None →
  validateOperatorInput errorMap name value lines =
    (Throw (if bool_decide (name ∈ Object_prototype) then TypeError
            else Error ("Unsupported operator: " +:+ name)), lines).
Proof.
  intros Hop. apply table_names in Hop.
  destruct (decide (name ∈ Object_prototype)).
  - rewrite bool_decide_eq_true_2 by done.
    by apply validateOperatorInput_inherited.
  - rewrite bool_decide_eq_false_2 by done.
    by apply validateOperatorInput_undefined.
Qed.

Lemma validateOperatorInput_unsupported_witness :
  validateOperatorInput (λ _, "Invalid input") "regexp" (JString "a") [] =
    (Throw (Error "Unsupported operator: regexp"), []) ∧
  validateOperatorInput (λ _, "Invalid input") "toString" (JString "a") [] =
    (Throw TypeError, []).
Proof.
  split.
  - exact (validateOperatorInput_unsupported (λ _, "Invalid input") "regexp"
             (JString "a") [] eq_refl).
  - exact (validateOperatorInput_unsupported (λ _, "Invalid input") "toString"
             (JString "a") [] eq_refl).
Defined.

(** X10: an operator at the top level of the payload is checked whatever
    the fields of the model are, as long as none of them is named
    [hasOwnProperty].  When the entries before it are accepted and its
    operand is not of the operator's shape, [validateOptions] returns
    [[null, err]] with the [ZodError] of the operand, writes the one line
    of its messages to the console, and does not look at the entries that
    follow. *)
Theorem validateOptions_first_refused_operand
    (errorMap : issue → string)
    (before after filterMap : list (string * jsval))
    (op : operator) (value : jsval) (lines : list string) :
  Js.has "hasOwnProperty" (nestedToDotObject filterMap) = false →
  forallb (accepted (nestedToDotObject filterMap)) before = true →
  shape_contract op value = false →
  ∃ issues,
    issues ≠ [] ∧
    validateOptions errorMap (before ++ (operator_name op, value) :: after)
      filterMap lines =
    (Return (None, Some (ErrObject (ZodError issues))),
     (lines ++ [join_comma (issue_message errorMap <$> issues)])%list).
Proof.
  intros Hshadow Hbefore Hshape.
  destruct (validateOptions_entry_refused errorMap (nestedToDotObject filterMap)
              op value lines Hshadow Hshape) as (issues & Hne & Hentry).
  exists issues. split; [done|].
  rewrite validateOptions_skip by done. unfold validateOptions.
  by rewrite for_of_returning_cons, Hentry.
Qed.

Lemma validateOptions_first_refused_operand_witness :
  ∃ issues,
    issues ≠ [] ∧
    validateOptions (λ _, "Invalid input")
      [("name", JString "x"); ("between", JArray [JNumber (Finite 1 0)]);
       ("bogus", JNull)]
      [("name", JBool true)] [] =
    (Return (None, Some (ErrObject (ZodError issues))),
     [join_comma (issue_message (λ _, "Invalid input") <$> issues)]).
Proof.
  exact (validateOptions_first_refused_operand (λ _, "Invalid input")
           [("name", JString "x")] [("bogus", JNull)] [("name", JBool true)]
           op_between (JArray [JNumber (Finite 1 0)]) [] eq_refl eq_refl eq_refl).
Defined.

(** X11: the value under a field of the model is never examined.  When
    no field of the model is named [hasOwnProperty], for a key of the
    dot-flattened model that is no operator and that [Object.prototype]
    does not have, any value but [null] and [undefined] is accepted, an
    operator with a refused operand included: the same operand that, under
    the operator at the top level, makes [validateOptions] return an
    error. *)
Theorem validateOptions_field_value_unchecked
    (errorMap : issue → string) (filterMap : list (string * jsval))
    (field : string) (value : jsval) (lines : list string) :
  Js.has "hasOwnProperty" (nestedToDotObject filterMap) = false →
  Js.has field (nestedToDotObject filterMap) = true →
  operator_of_name field = None → field ∉ Object_prototype →
  (nullish value = false →
   validateOptions errorMap [(field, value)] filterMap lines =
     (Return (Some true, None), lines)) ∧
  (∀ op operand,
      shape_contract op operand = false →
      validateOptions errorMap [(field, JObject [(operator_name op, operand)])]
        filterMap lines = (Return (Some true, None), lines) ∧
      ∃ issues,
        (validateOptions errorMap [(operator_name op, operand)] filterMap
           lines).1 = Return (None, Some (ErrObject (ZodError issues)))).
Proof.
  intros Hshadow Hknown Hop Hproto.
  assert (∀ v, nullish v = false →
               validateOptions errorMap [(field, v)] filterMap lines =
                 (Return (Some true, None), lines)) as Hany.
  { intros v Hv. apply validateOptions_all_accepted; [done|].
    simpl. rewrite Hop, Hknown, Hv.
    by rewrite bool_decide_eq_false_2. }
  split; [apply Hany|].
  intros op operand Hshape. split; [by apply Hany|].
  destruct (validateOptions_entry_refused errorMap (nestedToDotObject filterMap)
              op operand lines Hshadow Hshape) as (issues & _ & Hentry).
  exists issues. unfold validateOptions.
  by rewrite for_of_returning_cons, Hentry.
Qed.

Lemma validateOptions_field_value_unchecked_witness :
  validateOptions (λ _, "Invalid input")
    [("name", JObject [("like", JString "a%")])] [("name", JBool true)] [] =
    (Return (Some true, None), []) ∧
  ∃ issues,
    (validateOptions (λ _, "Invalid input") [("like", JString "a%")]
       [("name", JBool true)] []).1 =
    Return (None, Some (ErrObject (ZodError issues))).
Proof.
  refine (proj2 (validateOptions_field_value_unchecked (λ _, "Invalid input")
                   [("name", JBool true)] "name" JNull [] eq_refl eq_refl
                   eq_refl _)
                op_like (JString "a%") eq_refl).
  apply (bool_decide_unpack _). exact I.
Defined.

(** X12: [validateOptions] does not return but fails with a [TypeError]
    on the first entry, after accepted ones, whose key is a name that
    [Object.prototype] has, or whose key is a field of the model (and no
    operator) with the value [null] or [undefined]: [Object.keys] raises on
    such a value, and the inherited member taken for an operator schema has
    no [parse].  Nothing is written to the console. *)
Theorem validateOptions_raising_entry
    (errorMap : issue → string)
    (before after filterMap : list (string * jsval))
    (key : string) (value : jsval) (lines : list string) :
  Js.has "hasOwnProperty" (nestedToDotObject filterMap) = false →
  forallb (accepted (nestedToDotObject filterMap)) before = true →
  raising (nestedToDotObject filterMap) (key, value) = true →
  validateOptions errorMap (before ++ (key, value) :: after) filterMap lines =
    (Throw TypeError, lines).
Proof.
  intros Hshadow Hbefore Hraise.
  rewrite validateOptions_skip by done. unfold validateOptions.
  by rewrite for_of_returning_cons, validateOptions_entry_raising.
Qed.

Lemma validateOptions_raising_entry_witness :
  validateOptions (λ _, "Invalid input") [("name", JNull)]
    [("name", JBool true)] [] = (Throw TypeError, []) ∧
  validateOptions (λ _, "Invalid input")
    [("name", JString "x"); ("constructor", JNumber (Finite 1 0))]
    [("name", JBool true)] [] = (Throw TypeError, []).
Proof.
  split.
  - exact (validateOptions_raising_entry (λ _, "Invalid input") [] []
             [("name", JBool true)] "name" JNull [] eq_refl eq_refl eq_refl).
  - exact (validateOptions_raising_entry (λ _, "Invalid input")
             [("name", JString "x")] [] [("name", JBool true)] "constructor"
             (JNumber (Finite 1 0)) [] eq_refl eq_refl eq_refl).
Defined.

(** X13: conversely, when no field of the model is named
    [hasOwnProperty], no key of the payload is a name that
    [Object.prototype] has, and no field of the model holds [null] or
    [undefined] in the payload, [validateOptions] returns a result tuple:
    it does not throw. *)
Theorem validateOptions_returns_a_tuple
    (errorMap : issue → string)
    (clientFilter filterMap : list (string * jsval)) (lines : list string) :
  Js.has "hasOwnProperty" (nestedToDotObject filterMap) = false →
  forallb (λ entry, negb (raising (nestedToDotObject filterMap) entry))
    clientFilter = true →
  ∃ result lines',
    validateOptions errorMap clientFilter filterMap lines =
    (Return result, lines').
Proof.
  intros Hshadow. unfold validateOptions. revert lines.
  induction clientFilter as [|entry cf IH]; intros lines; [by eexists _, _|].
  simpl forallb. intros [Hentry Hrest]%andb_true_iff.
  apply negb_true_iff in Hentry.
  destruct (validateOptions_entry_returns errorMap _ entry lines Hshadow Hentry)
    as ([r|] & lines' & Heq);
    rewrite for_of_returning_cons, Heq; [by eexists _, _ | by apply IH].
Qed.

Lemma validateOptions_returns_a_tuple_witness :
  ∃ result lines',
    validateOptions (λ _, "Invalid input")
      [("eq", JNull); ("name", JString "x"); ("bogus", JNull)]
      [("name", JBool true)] [] = (Return result, lines').
Proof.
  exact (validateOptions_returns_a_tuple (λ _, "Invalid input")
           [("eq", JNull); ("name", JString "x"); ("bogus", JNull)]
           [("name", JBool true)] [] eq_refl eq_refl).
Defined.

(** X14: when the dot-flattened model has a field named
    [hasOwnProperty], the property hides the method of that name, and
    [validateOptions] fails with a [TypeError] on every payload that is
    not empty; on the empty payload it returns [[true, null]]. *)
Theorem validateOptions_shadowed_hasOwnProperty
    (errorMap : issue → string)
    (clientFilter filterMap : list (string * jsval)) (lines : list string) :
  Js.has "hasOwnProperty" (nestedToDotObject filterMap) = true →
  validateOptions errorMap clientFilter filterMap lines =
    (match clientFilter with
     | [] => Return (Some true, None)
     | _ => Throw TypeError
     end, lines).
Proof.
  intros Hshadow. destruct clientFilter as [|[key value] cf]; [done|].
  unfold validateOptions. rewrite for_of_returning_cons.
  unfold validateOptions_entry, hasOwnProperty. by rewrite Hshadow.
Qed.

Lemma validateOptions_shadowed_hasOwnProperty_witness :
  validateOptions (λ _, "Invalid input") [("name", JString "x")]
    [("name", JBool true); ("hasOwnProperty", JBool true)] [] =
    (Throw TypeError, []).
Proof.
  exact (validateOptions_shadowed_hasOwnProperty (λ _, "Invalid input")
           [("name", JString "x")]
           [("name", JBool true); ("hasOwnProperty", JBool true)] [] eq_refl).
Defined.

(** X15: [validateOptions] writes to the console exactly when it returns
    a [ZodError], and then one line, the messages of the error joined by
    commas; an invalid key, a success and a [TypeError] leave the console
    as it was. *)
Theorem validateOptions_console
    (errorMap : issue → string)
    (clientFilter filterMap : list (string * jsval))
    (lines : list string) (out : outcome tuple) (lines' : list string) :
  validateOptions errorMap clientFilter filterMap lines = (out, lines') →
  (lines' = lines ∧
   ∀ issues, out ≠ Return (None, Some (ErrObject (ZodError issues)))) ∨
  (∃ issues,
      out = Return (None, Some (ErrObject (ZodError issues))) ∧
      lines' = (lines ++ [join_comma (issue_message errorMap <$> issues)])%list).
Proof.
  unfold validateOptions. revert lines.
  induction clientFilter as [|entry cf IH]; intros lines.
  - intros [= <- <-]. by left.
  - rewrite for_of_returning_cons.
    pose proof (validateOptions_entry_console errorMap
                  (nestedToDotObject filterMap) entry lines) as Hentry.
    destruct (validateOptions_entry errorMap (nestedToDotObject filterMap)
                entry lines) as [[[r|]|e|] lines1];
      specialize (Hentry _ _ eq_refl).
    + intros [= <- <-].
      destruct Hentry as [[-> Hne]|(issues & [= ->] & ->)].
      * left. split; [done|]. intros issues [= ->]. by eapply Hne.
      * right. eauto.
    + destruct Hentry as [[-> _]|(issues & [=] & _)]. apply IH.
    + intros [= <- <-]. destruct Hentry as [[-> _]|(issues & [=] & _)].
      by left.
    + intros [= <- <-]. destruct Hentry as [[-> _]|(issues & [=] & _)].
      by left.
Qed.

Lemma validateOptions_console_witness :
  (validateOptions (λ _, "Invalid input")
     [("name", JString "x"); ("bogus", JNull)] [("name", JBool true)]
     ["earlier"]).2 = ["earlier"].
Proof.
  destruct (validateOptions_console (λ _, "Invalid input")
              [("name", JString "x"); ("bogus", JNull)] [("name", JBool true)]
              ["earlier"] _ _ eq_refl) as [[Hlines _]|(issues & Hout & _)].
  - exact Hlines.
  - discriminate Hout.
Defined.

(** ** Nested fields of the model, in [validateOptions] *)

Section nested_field_facts.

Lemma operator_name_dot_free (op : operator) : dot_free (operator_name op) = true.
Proof. by destruct op. Qed.

Lemma operator_of_name_dotted (s t : string) :
  operator_of_name (s +:+ "." +:+ t) = None.
Proof.
  destruct (operator_of_name (s +:+ "." +:+ t)) as [op|] eqn:Hop; [|done].
  apply operator_of_name_Some in Hop.
  pose proof (operator_name_dot_free op) as Hdot.
  by rewrite <- Hop, dotted_not_dot_free in Hdot.
Qed.

Lemma prototype_dot_free (name : string) :
  name ∈ Object_prototype → dot_free name = true.
Proof.
  unfold Object_prototype. intros Hin.
  repeat (apply elem_of_cons in Hin as [->|Hin]; [reflexivity|]).
  by apply elem_of_nil in Hin.
Qed.

Lemma dotted_not_prototype (s t : string) : s +:+ "." +:+ t ∉ Object_prototype.
Proof.
  intros Hin. apply prototype_dot_free in Hin.
  by rewrite dotted_not_dot_free in Hin.
Qed.

(** A name without dot is a key of the flattened model only if it is a
    key of the model. *)
Lemma nestedToDotObject_has_dot_free (obj : list (string * jsval)) (x : string) :
  dot_free x = true → x ∉ (obj.*1) → Js.has x (nestedToDotObject obj) = false.
Proof.
  intros Hx Hnot. unfold Js.has.
  destruct (Js.get x (nestedToDotObject obj)) as [v|] eqn:Hget; [|done].
  rewrite nestedToDotObject_flat_entries in Hget.
  apply get_assigned, elem_of_flat_entries in Hget
    as [[Hin _]|(k & n & nk & -> & _)].
  - destruct Hnot. apply list_elem_of_fmap. by exists (x, v).
  - by rewrite dotted_not_dot_free in Hx.
Qed.
End nested_field_facts.

(** X24: the fields of a nested model are addressed by their dotted key,
    one level deep.  For a model with distinct keys without dots, none of
    them [hasOwnProperty], and a key [key] of it (no operator, no name that
    [Object.prototype] has) that holds an object with distinct keys without
    dots, one of them [sub]: the payload key [key] alone is an invalid key;
    the payload key [key.sub] is accepted with any value but [null] and
    [undefined]; and a payload key [key.sub.leaf], one level further down,
    is an invalid key, whatever the object under [sub] holds. *)
Theorem validateOptions_nested_fields
    (errorMap : issue → string) (filterMap nested : list (string * jsval))
    (key sub : string) (held value : jsval) (lines : list string) :
  NoDup (filterMap.*1) →
  (∀ k v, (k, v) ∈ filterMap → dot_free k = true) →
  "hasOwnProperty" ∉ (filterMap.*1) →
  (key, JObject nested) ∈ filterMap →
  NoDup (nested.*1) →
  (∀ k v, (k, v) ∈ nested → dot_free k = true) →
  (sub, held) ∈ nested →
  operator_of_name key = None → key ∉ Object_prototype →
  validateOptions errorMap [(key, value)] filterMap lines =
    (Return (invalid_key key), lines) ∧
  (nullish value = false →
   validateOptions errorMap [(key +:+ "." +:+ sub, value)] filterMap lines =
     (Return (Some true, None), lines)) ∧
  (∀ leaf,
      validateOptions errorMap
        [(key +:+ "." +:+ sub +:+ "." +:+ leaf, value)] filterMap lines =
      (Return (invalid_key (key +:+ "." +:+ sub +:+ "." +:+ leaf)), lines)).
Proof.
  intros Hnd Hdots Hown Hin Hnd' Hdots' Hsub Hop Hproto.
  assert (Js.has "hasOwnProperty" (nestedToDotObject filterMap) = false)
    as Hshadow by (by apply nestedToDotObject_has_dot_free).
  assert (∀ x v, Js.get x (nestedToDotObject filterMap) = Some v →
                 ((x, v) ∈ filterMap ∧ spread v = false) ∨
                 (∃ k n nk, x = k +:+ "." +:+ nk ∧ (k, JObject n) ∈ filterMap ∧
                            (nk, v) ∈ n)) as Hsound.
  { intros x v Hget. rewrite nestedToDotObject_flat_entries in Hget.
    by apply elem_of_flat_entries, get_assigned. }
  split; [|split].
  - apply (validateOptions_first_unknown errorMap [] key value []); try done.
    unfold Js.has.
    destruct (Js.get key (nestedToDotObject filterMap)) as [v|] eqn:Hget; [|done].
    destruct (Hsound _ _ Hget) as [[Hin' Hflat]|(k & n & nk & Heq & _)].
    + by rewrite <- (NoDup_fst_inj _ _ _ _ Hnd Hin Hin') in Hflat.
    + apply Hdots in Hin. by rewrite Heq, dotted_not_dot_free in Hin.
  - intros Hvalue. apply validateOptions_all_accepted; [done|].
    simpl. rewrite operator_of_name_dotted, Hvalue.
    rewrite (bool_decide_eq_false_2 _ (dotted_not_prototype key sub)).
    rewrite !andb_true_r. unfold Js.has.
    destruct (get_assignments (key +:+ "." +:+ sub) (flat_entries filterMap) [])
      as [_ Hwritten].
    rewrite nestedToDotObject_flat_entries.
    destruct Hwritten as (v & -> & _); [|done].
    apply list_elem_of_fmap. exists (key +:+ "." +:+ sub, held). split; [done|].
    apply elem_of_flat_entries. right. by exists key, nested, sub.
  - intros leaf.
    apply (validateOptions_first_unknown errorMap [] _ value []); try done.
    + unfold Js.has.
      destruct (Js.get _ (nestedToDotObject filterMap)) as [v|] eqn:Hget; [|done].
      destruct (Hsound _ _ Hget) as [[Hin' _]|(k & n & nk & Heq & Hk & Hnk)].
      * apply Hdots in Hin'. by rewrite dotted_not_dot_free in Hin'.
      * apply dotted_inj_l in Heq as [<- <-]; [|by eapply Hdots..].
        assert (JObject n = JObject nested) as [= ->]
          by (by eapply (NoDup_fst_inj filterMap key)).
        apply Hdots' in Hnk. by rewrite dotted_not_dot_free in Hnk.
    + apply operator_of_name_dotted.
    + apply dotted_not_prototype.
Qed.

Lemma validateOptions_nested_fields_witness :
  validateOptions (λ _, "Invalid input") [("profile", JString "x")]
    [("name", JBool true);
     ("profile", JObject [("bio", JBool true);
                          ("links", JObject [("web", JBool true)])])] [] =
    (Return (invalid_key "profile"), []) ∧
  validateOptions (λ _, "Invalid input") [("profile.bio", JString "x")]
    [("name", JBool true);
     ("profile", JObject [("bio", JBool true);
                          ("links", JObject [("web", JBool true)])])] [] =
    (Return (Some true, None), []) ∧
  validateOptions (λ _, "Invalid input") [("profile.links.web", JString "x")]
    [("name", JBool true);
     ("profile", JObject [("bio", JBool true);
                          ("links", JObject [("web", JBool true)])])] [] =
    (Return (invalid_key "profile.links.web"), []).
Proof.
  assert (∀ sub held,
             (sub, held) ∈ [("bio", JBool true);
                            ("links", JObject [("web", JBool true)])] →
             validateOptions (λ _, "Invalid input") [("profile", JString "x")]
               [("name", JBool true);
                ("profile", JObject [("bio", JBool true);
                                     ("links", JObject [("web", JBool true)])])]
               [] = (Return (invalid_key "profile"), []) ∧
             (nullish (JString "x") = false →
              validateOptions (λ _, "Invalid input")
                [("profile" +:+ "." +:+ sub, JString "x")]
                [("name", JBool true);
                 ("profile", JObject [("bio", JBool true);
                                      ("links", JObject [("web", JBool true)])])]
                [] = (Return (Some true, None), [])) ∧
             (∀ leaf,
                 validateOptions (λ _, "Invalid input")
                   [("profile" +:+ "." +:+ sub +:+ "." +:+ leaf, JString "x")]
                   [("name", JBool true);
                    ("profile", JObject [("bio", JBool true);
                                         ("links", JObject [("web", JBool true)])])]
                   [] =
                 (Return (invalid_key ("profile" +:+ "." +:+ sub +:+ "." +:+ leaf)),
                  []))) as H.
  { intros sub held Hsub.
    apply (validateOptions_nested_fields (λ _, "Invalid input") _
             [("bio", JBool true); ("links", JObject [("web", JBool true)])]
             "profile" sub held).
    - apply (bool_decide_unpack _). exact I.
    - intros k v Hin.
      repeat (apply elem_of_cons in Hin as [[= -> _]|Hin]; [reflexivity|]).
      by apply elem_of_nil in Hin.
    - apply (bool_decide_unpack _). exact I.
    - apply list_elem_of_further, list_elem_of_here.
    - apply (bool_decide_unpack _). exact I.
    - intros k v Hin.
      repeat (apply elem_of_cons in Hin as [[= -> _]|Hin]; [reflexivity|]).
      by apply elem_of_nil in Hin.
    - exact Hsub.
    - reflexivity.
    - apply (bool_decide_unpack _). exact I. }
  split; [|split].
  - exact (proj1 (H "bio" (JBool true) (list_elem_of_here _ _))).
  - exact (proj1 (proj2 (H "bio" (JBool true) (list_elem_of_here _ _))) eq_refl).
  - exact (proj2 (proj2 (H "links" (JObject [("web", JBool true)])
                           (list_elem_of_further _ _ _ (list_elem_of_here _ _))))
                 "web").
Defined.

(** * The schema walker, continued *)

Lemma for_of_ext {A B} (xs : list A) (acc : B) (body body' : B → A → outcome B) :
  (∀ b x, body b x = body' b x) → for_of xs acc body = for_of xs acc body'.
Proof.
  intros Hbody. revert acc.
  induction xs as [|x xs IH]; intros acc; simpl; [done|].
  rewrite Hbody. destruct (body' acc x); simpl; auto.
Qed.

(** ** Further results on the walker *)

(** With a deferred node under two keys, the result of [getFilterable]
    has an entry under the second key when the getter builds its object,
    which is then another object at each call, and none when the getter
    returns a schema built outside of it, which is in the visited set at
    the second call. *)
Example built_object_is_entered_twice :
  (Built.getFilterable owner_twice [1] 5 3 []).1 =
    Return [("a", CTree [("name", CTrue)]); ("b", CTree [("name", CTrue)])] ∧
  (Built.getFilterable address_twice [] 5 3 []).1 =
    Return [("a", CTree [("street", CTrue)])].
Proof. split; reflexivity. Qed.

(** A getter that builds its object changes nothing to the results as
    long as the object is entered once. *)
Example built_object_entered_once :
  (Built.getFilterable array_and_lazy [3] 7 5 []).1 =
    (getFilterable array_and_lazy 7 5 []).1 ∧
  (Built.getPath array_and_lazy [3] 7 5 [] []).1 =
    (getPath array_and_lazy 7 5 [] []).1 ∧
  (Built.getFilterable deferred_owner [2] 6 4 []).1 =
    (getFilterable deferred_owner 6 4 []).1 ∧
  (Built.getPath deferred_owner [2] 6 4 [] []).1 =
    (getPath deferred_owner 6 4 [] []).1.
Proof. repeat split. Qed.

(** A cycle that goes through an object built outside of the getters
    ends there: the object that the getter of [next] builds is entered, and
    its child [back] leads to the root, which is in the visited set. *)
Example built_object_in_a_cycle :
  (Built.getFilterable cycle_through_built [2] 36 4 []).1 =
    Return [("name", CTrue)] ∧
  (Built.getPath cycle_through_built [2] 36 4 [] []).1 =
    Return [("name", "name")].
Proof. split; reflexivity. Qed.



(** X17: a traversal leaves its schema in the visited set that it was
    given, which only grows: when [getFilterable] or [getPath] returns,
    the set holds what it held before and the schema, so that a further
    call on the same schema with the same set returns the empty result. *)
Theorem traversal_marks_its_schema (σ : heap) (fuel fuel' : nat) (schema : ref)
    (parentKey parentKey' : list string) (visited : WeakSet) :
  (∀ tree visited',
      getFilterable σ fuel schema visited = (Return tree, visited') →
      visited ⊆ visited' ∧ schema ∈ visited' ∧
      getFilterable σ (S fuel') schema visited' = (Return [], visited')) ∧
  (∀ paths visited',
      getPath σ fuel schema parentKey visited = (Return paths, visited') →
      visited ⊆ visited' ∧ schema ∈ visited' ∧
      getPath σ (S fuel') schema parentKey' visited' = (Return [], visited')).
Proof.
  split.
  - intros tree visited' Hget.
    assert (schema ∈ visited') as Hin.
    { destruct fuel as [|fuel0]; [done|].
      destruct (decide (schema ∈ visited)) as [Hseen|Hseen].
      - rewrite getFilterable_visited in Hget by done. by injection Hget as _ <-.
      - eapply getFilterable_marks; [|exact Hget].
        simpl in Hget. unfold bindM at 1 in Hget. unfold WeakSet_has at 1 in Hget.
        rewrite bool_decide_eq_false_2 in Hget by done.
        unfold bindM at 1 in Hget. unfold WeakSet_add at 1 in Hget.
        destruct (σ !! schema); [eauto | done]. }
    split; [by eapply getFilterable_grows|]. split; [done|].
    by apply getFilterable_visited.
  - intros paths visited' Hget.
    assert (schema ∈ visited') as Hin.
    { destruct fuel as [|fuel0]; [done|].
      destruct (decide (schema ∈ visited)) as [Hseen|Hseen].
      - rewrite getPath_visited in Hget by done. by injection Hget as _ <-.
      - eapply getPath_marks; [|exact Hget].
        simpl in Hget. unfold bindM at 1 in Hget. unfold WeakSet_has at 1 in Hget.
        rewrite bool_decide_eq_false_2 in Hget by done.
        unfold bindM at 1 in Hget. unfold WeakSet_add at 1 in Hget.
        destruct (σ !! schema); [eauto | done]. }
    split; [by eapply getPath_grows|]. split; [done|].
    by apply getPath_visited.
Qed.

Lemma traversal_marks_its_schema_witness :
  getFilterable nested_schema 1 4 [3; 2; 4] = (Return [], [3; 2; 4]) ∧
  getPath nested_schema 1 4 ["parent"] [3; 2; 4] = (Return [], [3; 2; 4]).
Proof.
  destruct (traversal_marks_its_schema nested_schema 6 0 4 [] ["parent"] [])
    as [Hfilter Hpath].
  split.
  - exact (proj2 (proj2 (Hfilter _ _ eq_refl))).
  - exact (proj2 (proj2 (Hpath _ _ eq_refl))).
Defined.

(** X18: the trees hold no name of their own making.  A name that is no
    key of the shape of the schema is no key of the result of
    [getSortable] and of [getFilterable], nor of the result of
    [getQueryable] unless it is a path alias of a queryable child. *)
Theorem traversal_keys_come_from_the_shape (σ : heap) (fuel : nat)
    (schema : ref) (shape : list (string * ref)) (name : string) :
  shape_entries σ schema = Return shape →
  name ∉ (shape.*1) →
  (∀ tree, getSortable σ (S fuel) schema = Return tree →
           Js.get name tree = None) ∧
  (∀ visited tree visited',
      getFilterable σ (S fuel) schema visited = (Return tree, visited') →
      Js.get name tree = None) ∧
  (∀ tree,
      (∀ entry, entry ∈ shape → instanceof_ZodObject σ entry.2 = false →
                name ∉ queryable_names σ entry.1 entry.2) →
      getQueryable σ (S fuel) schema = Return tree →
      Js.get name tree = None).
Proof.
  intros Hshape Hname. split; [|split].
  - intros tree Hget. simpl in Hget. rewrite Hshape in Hget. simpl in Hget.
    by apply getSortable_loop_frame with (k := name) in Hget.
  - intros visited tree visited' Hget.
    destruct (decide (schema ∈ visited)) as [Hseen|Hseen].
    + rewrite getFilterable_visited in Hget by done. by injection Hget as <- _.
    + rewrite (getFilterable_unfold σ fuel schema _ visited Hshape Hseen) in Hget.
      by apply getFilterable_loop_frame with (k := name) in Hget.
  - intros tree Haliases Hget. simpl in Hget. rewrite Hshape in Hget.
    simpl in Hget.
    apply getQueryable_loop_frame with (k := name) in Hget; [done|].
    by apply queryable_writes_others.
Qed.

Lemma traversal_keys_come_from_the_shape_witness :
  Js.get "email" [("name", CTrue); ("profile", CTree [("bio", CTrue)])] = None.
Proof.
  destruct (traversal_keys_come_from_the_shape nested_schema 5 4
              [("id", 1); ("name", 0); ("profile", 2); ("settings", 3)] "email"
              eq_refl) as (Hsort & _ & _).
  - apply (bool_decide_unpack _). exact I.
  - by apply Hsort.
Defined.

(** X19: [getQueryable] is [getSortable] on the other flag, but for the
    path aliases: on a schema graph where no node declares a path alias
    and where the queryable nodes are the sortable ones, the two return
    the same tree. *)
Theorem getQueryable_without_aliases (σ : heap) (fuel : nat) (schema : ref) :
  (∀ r v, σ !! r = Some v →
          isQueryable v = isSortable v ∧ description_path v = None) →
  getQueryable σ fuel schema = getSortable σ fuel schema.
Proof.
  intros Hflags. revert schema.
  induction fuel as [|fuel IH]; intros schema; [done|]. simpl.
  destruct (shape_entries σ schema) as [shape| |]; simpl; [|done..].
  apply for_of_ext. intros tree [key value].
  rewrite getQueryable_entry_eq, getSortable_entry_eq, IH.
  destruct (instanceof_ZodObject σ value); [done|].
  unfold queryable_names, flagged.
  destruct (σ !! value) as [v|] eqn:Hv; [|done]. simpl.
  destruct (Hflags _ _ Hv) as [-> ->].
  by destruct (extended v && isSortable v).
Qed.

Lemma getQueryable_without_aliases_witness :
  getQueryable nested_schema 6 4 = getSortable nested_schema 6 4.
Proof.
  apply getQueryable_without_aliases.
  intros [|[|[|[|[|r]]]]] v [= <-]; by split.
Defined.

(** ** Children that are arrays of objects, in the path index *)

Section getPath_array_facts.
Variable σ : heap.

Lemma array_child_merge (value target : ref) (key : string) :
  array_child σ value = Some target →
  ∃ v, σ !! value = Some v ∧ throwing σ value = false ∧
       composite_child σ value = Some target ∧
       (merge_of σ value key = merge_array key ∨
        merge_of σ value key = merge_lazy_array key).
Proof.
  unfold array_child, composite_child, composite, merge_of, throwing,
    instanceof_ZodObject.
  destruct (σ !! value) as [[d desc e]|] eqn:Hv; [|done].
  destruct d as [shape|type|[lv|]|]; simpl.
  - unfold array_of_object. rewrite Hv. done.
  - intros Harray. eexists. split; [done|]. split; [done|]. split; [done|].
    by left.
  - intros Harray. eexists. split; [done|]. split; [done|].
    unfold array_of_object in *.
    destruct (σ !! lv) as [[[] ? ?]|]; try done.
    split; [done|]. by right.
  - done.
  - unfold array_of_object. rewrite Hv. done.
Qed.

(** What a callback of an array child writes, and what it leaves. *)
Lemma merge_array_get (key : string) merge paths (nk np x : string) :
  merge = merge_array key ∨ merge = merge_lazy_array key →
  Js.get x (merge paths (nk, np)) =
    if Js.has x (merge [] (nk, np)) then Some np else Js.get x paths.
Proof.
  unfold Js.has.
  intros [-> | ->]; unfold merge_array, merge_lazy_array;
    rewrite !get_set; simpl;
    repeat match goal with
           | |- context [String.eqb ?a ?b] => destruct (String.eqb a b)
           end; reflexivity.
Qed.

Lemma merge_array_writes (key : string) merge (nk np x : string) :
  merge = merge_array key ∨ merge = merge_lazy_array key →
  Js.has x (merge [] (nk, np)) = true →
  x = nk ∨ x = short_key key nk ∨ x = np.
Proof.
  unfold Js.has.
  intros [-> | ->]; unfold merge_array, merge_lazy_array;
    rewrite !get_set; simpl;
    repeat match goal with
           | |- context [String.eqb ?a ?b] =>
               destruct (String.eqb_spec a b); subst
           end; auto; done.
Qed.

Lemma merge_array_self (key : string) merge (nk np : string) :
  merge = merge_array key ∨ merge = merge_lazy_array key →
  Js.has np (merge [] (nk, np)) = true ∧
  Js.has (short_key key nk) (merge [] (nk, np)) = true.
Proof.
  unfold Js.has.
  intros [-> | ->]; unfold merge_array, merge_lazy_array;
    rewrite !get_set, !String.eqb_refl; simpl;
    repeat match goal with
           | |- context [String.eqb ?a ?b] => destruct (String.eqb a b)
           end; done.
Qed.
End getPath_array_facts.

(** X20: the path index of a child that is an array of objects (or a
    deferred node that resolves to one).  For an object schema at the
    root, with distinct keys, whose children after the child [key] are
    leaves with keys without dots, the child being not yet visited and the
    children of its element leaves with distinct keys without dots: the
    index maps the dotted key [key.sub] of a leaf [sub] of the element to
    its physical path ([key.sub], or [key] and the segments of the path
    alias joined by dots), unless another leaf of the element has [key.sub]
    for its physical path; and it maps that physical path to itself,
    unless a later sibling of the child or another leaf of the element is
    recorded under it. *)
Theorem getPath_array_child (σ : heap) (fuel : nat) (schema : ref)
    (before after : list (string * ref)) (key : string) (value target : ref)
    (visited : WeakSet) (paths : list (string * string)) (visited' : WeakSet)
    (paths1 : list (string * string)) (visited1 : WeakSet)
    (before' after' : list (string * ref)) (sub : string) (value' : ref)
    (v' : ZodType) :
  (length σ ≤ fuel)%nat →
  shape_entries σ schema = Return (before ++ (key, value) :: after)%list →
  NoDup ((before ++ (key, value) :: after)%list.*1) →
  schema ∉ visited →
  (∀ entry, entry ∈ after →
            leaf_child σ entry = true ∧ dot_free entry.1 = true) →
  array_child σ value = Some target →
  for_ofM before [] (getPath_entry σ (getPath σ fuel) [])
    (schema :: visited) = (Return paths1, visited1) →
  target ∉ visited1 →
  shape_entries σ target = Return (before' ++ (sub, value') :: after')%list →
  NoDup ((before' ++ (sub, value') :: after')%list.*1) →
  (∀ entry, entry ∈ (before' ++ (sub, value') :: after')%list →
            leaf_child σ entry = true ∧ dot_free entry.1 = true) →
  σ !! value' = Some v' →
  getPath σ (S fuel) schema [] visited = (Return paths, visited') →
  ((∀ k val v0,
       (k, val) ∈ (before' ++ (sub, value') :: after')%list →
       σ !! val = Some v0 →
       physical_path [key] k v0 = key +:+ "." +:+ sub →
       physical_path [key] k v0 = physical_path [key] sub v') →
   Js.get (key +:+ "." +:+ sub) paths = Some (physical_path [key] sub v')) ∧
  ((∀ k val v0,
       (k, val) ∈ (before' ++ (sub, value') :: after')%list →
       σ !! val = Some v0 →
       leaf_key [key] k v0 = physical_path [key] sub v' ∨
       key +:+ "." +:+ k = physical_path [key] sub v' →
       physical_path [key] k v0 = physical_path [key] sub v') →
   (∀ entry, entry ∈ after → entry.1 ≠ physical_path [key] sub v') →
   Js.get (physical_path [key] sub v') paths =
     Some (physical_path [key] sub v')).
Proof.
  intros Hfuel Hshape Hnd Hseen Hafter Harray Hbefore Hfresh Hshape' Hnd1
    Hleaves Hv' Hget.
  destruct (array_child_merge σ value target key Harray)
    as (v & Hv & Hthrow & Hchild & Hmerge).
  rewrite (getPath_unfold σ fuel schema _ [] visited Hshape Hseen) in Hget.
  apply for_ofM_Return_inv in Hget
    as (paths1' & visited1' & paths2 & visited2 & H1 & H2 & H3).
  rewrite Hbefore in H1. injection H1 as <- <-.
  rewrite getPath_loop_leaves in H3 by (intros e He; by apply Hafter).
  injection H3 as <- _.
  assert (∀ x, (∀ entry, entry ∈ after → entry.1 ≠ x) →
               ∀ p, Js.get x (leaf_paths σ [] after p) = Js.get x p) as Hframe.
  { intros x Hx p. apply leaf_paths_frame. intros entry v0 Hentry _.
    rewrite leaf_key_root. by apply Hx. }
  (* the round of the child *)
  assert (is_Some (σ !! schema)) as Hsome.
  { apply instanceof_ZodObject_is_Some, instanceof_ZodObject_shape. eauto. }
  apply lookup_lt_is_Some in Hsome.
  rewrite getPath_entry_eq, Hv, Hthrow, Hchild in H2. simpl in H2.
  destruct fuel as [|fuel']; [lia|].
  assert (getPath_nested (getPath σ (S fuel')) target [key] (merge_of σ value key)
            paths1 visited1 =
          (Return (forEach (leaf_paths σ [key]
                              (before' ++ (sub, value') :: after') [])
                     paths1 (merge_of σ value key)), target :: visited1))
    as Hnested.
  { rewrite getPath_nested_eq, bool_decide_eq_false_2 by done.
    rewrite (getPath_unfold σ fuel' target _ [key] visited1 Hshape' Hfresh).
    by rewrite getPath_loop_leaves by (intros e He; by apply Hleaves). }
  assert (paths2 = forEach (leaf_paths σ [key]
                              (before' ++ (sub, value') :: after') [])
                     paths1 (merge_of σ value key)) as ->.
  { destruct (def v); rewrite ?(try_catch_Return _ _ _ _ _ Hnested) in H2;
      rewrite ?Hnested in H2; by injection H2 as <- _. }
  clear H2 Hnested.
  (* the entry of the leaf in the result for the element *)
  assert (dot_free sub = true) as Hsub.
  { apply (Hleaves (sub, value')). apply elem_of_app. right.
    apply list_elem_of_here. }
  assert ((leaf_key [key] sub v', physical_path [key] sub v') ∈
          leaf_paths σ [key] (before' ++ (sub, value') :: after') []) as Hmine.
  { apply get_In. apply leaf_paths_lookup; [done|].
    intros entry v0 Hentry Hv0 Heq.
    assert (entry.1 ≠ sub) as Hne.
    { intros Hsame. rewrite fmap_app, fmap_cons in Hnd1. simpl in Hnd1.
      apply NoDup_app in Hnd1 as (_ & _ & Hnd1).
      apply NoDup_cons in Hnd1 as [Hnd1 _]. apply Hnd1. rewrite <- Hsame.
      apply list_elem_of_fmap. by exists entry. }
    assert (dot_free entry.1 = true) as Hdot.
    { apply Hleaves. apply elem_of_app. right.
      by apply list_elem_of_further. }
    destruct (leaf_key_nested key entry.1 v0) as [H0|H0];
      destruct (leaf_key_nested key sub v') as [H1|H1];
      rewrite H0, H1 in Heq.
    - done.
    - by apply dotted_ne in Heq.
    - symmetry in Heq. by apply dotted_ne in Heq.
    - by apply dotted_inj in Heq. }
  assert (∀ k val v0,
             (k, val) ∈ (before' ++ (sub, value') :: after')%list →
             σ !! val = Some v0 → k = sub → v0 = v') as Hsame.
  { intros k val v0 Hin Hv0 ->.
    assert (val = value') as ->; [|congruence].
    eapply (NoDup_fst_inj _ sub); [exact Hnd1 | done |].
    apply elem_of_app. right. apply list_elem_of_here. }
  split.
  - intros Hothers.
    rewrite Hframe by (intros entry Hentry; apply dotted_ne; by apply Hafter).
    apply (forEach_hit _
             (λ e, Js.has (key +:+ "." +:+ sub) (merge_of σ value key [] e)) snd).
    + intros acc [nk np]. by apply (merge_array_get key).
    + eexists. split; [exact Hmine|]. simpl.
      rewrite <- (short_key_leaf_key key sub v') by done.
      by apply (merge_array_self key).
    + intros [nk np] Hin Hhit. simpl in *.
      apply leaf_paths_entries in Hin
        as [Hin|(k & val & v0 & Hk & Hv0 & -> & ->)];
        [by apply elem_of_nil in Hin|].
      assert (dot_free k = true) as Hdot by (by apply (Hleaves (k, val))).
      apply (merge_array_writes key) in Hhit; [|done].
      rewrite short_key_leaf_key in Hhit by done.
      destruct Hhit as [Hhit|[Hhit|Hhit]].
      * destruct (leaf_key_nested key k v0) as [H0|H0]; rewrite H0 in Hhit.
        -- symmetry in Hhit. by apply dotted_ne in Hhit.
        -- apply dotted_inj in Hhit. subst k. by rewrite (Hsame sub val v0).
      * apply dotted_inj in Hhit. subst k. by rewrite (Hsame sub val v0).
      * by eapply Hothers.
  - intros Hothers Hsiblings. rewrite Hframe by done.
    apply (forEach_hit _
             (λ e, Js.has (physical_path [key] sub v')
                     (merge_of σ value key [] e)) snd).
    + intros acc [nk np]. by apply (merge_array_get key).
    + eexists. split; [exact Hmine|]. simpl. by apply (merge_array_self key).
    + intros [nk np] Hin Hhit. simpl in *.
      apply leaf_paths_entries in Hin
        as [Hin|(k & val & v0 & Hk & Hv0 & -> & ->)];
        [by apply elem_of_nil in Hin|].
      assert (dot_free k = true) as Hdot by (by apply (Hleaves (k, val))).
      apply (merge_array_writes key) in Hhit; [|done].
      rewrite short_key_leaf_key in Hhit by done.
      destruct Hhit as [Hhit|[Hhit|Hhit]]; [| |done];
        eapply Hothers; eauto.
Qed.

Lemma getPath_array_child_witness :
  Js.get "items.label"
    [("id", "id"); ("sku", "items.sku"); ("items.sku", "items.sku");
     ("items.label", "items.title"); ("items.title", "items.title")] = Some "items.title" ∧
  Js.get "items.title"
    [("id", "id"); ("sku", "items.sku"); ("items.sku", "items.sku");
     ("items.label", "items.title"); ("items.title", "items.title")] = Some "items.title".
Proof.
  destruct (getPath_array_child order_items 5 4 [("id", 0)] [] "items" 3 2 []
              [("id", "id"); ("sku", "items.sku"); ("items.sku", "items.sku");
               ("items.label", "items.title"); ("items.title", "items.title")]
              [2; 4] [("id", "id")] [4] [("sku", 0)] [] "label" 1
              (set_path ["title"] z_leaf))
    as [Hshort Hself].
  - apply le_n.
  - reflexivity.
  - apply (bool_decide_unpack _). exact I.
  - apply not_elem_of_nil.
  - intros entry Hentry. by apply elem_of_nil in Hentry.
  - reflexivity.
  - reflexivity.
  - apply (bool_decide_unpack _). exact I.
  - reflexivity.
  - apply (bool_decide_unpack _). exact I.
  - intros entry Hentry.
    repeat (apply elem_of_cons in Hentry as [->|Hentry]; [by split|]).
    by apply elem_of_nil in Hentry.
  - reflexivity.
  - reflexivity.
  - split.
    + apply Hshort. intros k val v0 Hin Hv0.
      repeat (apply elem_of_cons in Hin as [[= -> ->]|Hin];
              [injection Hv0 as <-; try discriminate; reflexivity|]).
      by apply elem_of_nil in Hin.
    + apply Hself.
      * intros k val v0 Hin Hv0.
        repeat (apply elem_of_cons in Hin as [[= -> ->]|Hin];
                [injection Hv0 as <-; intros [H|H]; try discriminate H;
                 reflexivity|]).
        by apply elem_of_nil in Hin.
      * intros entry Hentry. by apply elem_of_nil in Hentry.
Defined.

(** X21: a child that is [undefined].  [getFilterable] and [getPath]
    pass over it ([if (!value) continue]) and give what the loop over the
    other children gives; [getSortable] and [getQueryable] have no such
    test and fail on it with a [TypeError], the operator [in] being applied
    to [undefined], once the children before it are done. *)
Theorem undefined_child (σ : heap) (fuel : nat) (schema : ref)
    (before after : list (string * ref)) (key : string) (value : ref)
    (parentKey : list string) (visited : WeakSet) :
  shape_entries σ schema = Return (before ++ (key, value) :: after)%list →
  σ !! value = None →
  schema ∉ visited →
  getFilterable σ (S fuel) schema visited =
    for_ofM (before ++ after) [] (getFilterable_entry σ (getFilterable σ fuel))
      (schema :: visited) ∧
  getPath σ (S fuel) schema parentKey visited =
    for_ofM (before ++ after) [] (getPath_entry σ (getPath σ fuel) parentKey)
      (schema :: visited) ∧
  (∀ tree,
      for_of before [] (getSortable_entry σ (getSortable σ fuel)) = Return tree →
      getSortable σ (S fuel) schema = Throw TypeError) ∧
  (∀ tree,
      for_of before [] (getQueryable_entry σ (getQueryable σ fuel)) = Return tree →
      getQueryable σ (S fuel) schema = Throw TypeError).
Proof.
  intros Hshape Hvalue Hseen.
  assert (instanceof_ZodObject σ value = false) as Hobj
    by (unfold instanceof_ZodObject; by rewrite Hvalue).
  split; [|split; [|split]].
  - rewrite (getFilterable_unfold σ fuel schema _ visited Hshape Hseen).
    apply for_ofM_skip. intros b t.
    by rewrite getFilterable_entry_eq, Hvalue.
  - rewrite (getPath_unfold σ fuel schema _ parentKey visited Hshape Hseen).
    apply for_ofM_skip. intros b t.
    by rewrite getPath_entry_eq, Hvalue.
  - intros tree Hbefore. simpl. rewrite Hshape. simpl.
    rewrite for_of_app, Hbefore. cbn [bind for_of].
    by rewrite getSortable_entry_eq, Hobj, Hvalue.
  - intros tree Hbefore. simpl. rewrite Hshape. simpl.
    rewrite for_of_app, Hbefore. cbn [bind for_of].
    by rewrite getQueryable_entry_eq, Hobj, Hvalue.
Qed.

Lemma undefined_child_witness :
  (getFilterable with_undefined 3 1 []).1 =
    Return [("name", CTrue); ("age", CTrue)] ∧
  (getPath with_undefined 3 1 [] []).1 =
    Return [("name", "name"); ("age", "age")] ∧
  getSortable with_undefined 3 1 = Throw TypeError ∧
  getQueryable with_undefined 3 1 = Throw TypeError.
Proof.
  destruct (undefined_child with_undefined 2 1 [("name", 0)] [("age", 0)]
              "ghost" 7 [] [] eq_refl eq_refl (not_elem_of_nil 1))
    as (Hfilter & Hpath & Hsort & Hquery).
  split; [by rewrite Hfilter|]. split; [by rewrite Hpath|].
  split; [by eapply Hsort | by eapply Hquery].
Defined.

(** X22: the path index of a child that is a deferred node resolving to
    an object.  For an object schema at the root, with distinct keys,
    whose children after the child [key] are leaves with keys without
    dots, the object being not yet visited and its children leaves with
    distinct keys without dots: the index maps the dotted key [key.sub] of
    each leaf [sub] of the object to its physical path, and the child adds
    no other kind of entry: what the index holds under a name without dot
    that is no key of a later sibling, the bare key [sub] for one, is what
    the children before [key] put there. *)
Theorem getPath_deferred_object_child (σ : heap) (fuel : nat) (schema : ref)
    (before after : list (string * ref)) (key : string) (value target : ref)
    (description : option Description) (extended : bool)
    (visited : WeakSet) (paths : list (string * string)) (visited' : WeakSet)
    (paths1 : list (string * string)) (visited1 : WeakSet)
    (before' after' : list (string * ref)) (sub : string) (value' : ref)
    (v' : ZodType) :
  (length σ ≤ fuel)%nat →
  shape_entries σ schema = Return (before ++ (key, value) :: after)%list →
  NoDup ((before ++ (key, value) :: after)%list.*1) →
  schema ∉ visited →
  (∀ entry, entry ∈ after →
            leaf_child σ entry = true ∧ dot_free entry.1 = true) →
  σ !! value =
    Some {| def := ZodLazy (Some target); description := description;
            extended := extended |} →
  for_ofM before [] (getPath_entry σ (getPath σ fuel) [])
    (schema :: visited) = (Return paths1, visited1) →
  target ∉ visited1 →
  shape_entries σ target = Return (before' ++ (sub, value') :: after')%list →
  NoDup ((before' ++ (sub, value') :: after')%list.*1) →
  (∀ entry, entry ∈ (before' ++ (sub, value') :: after')%list →
            leaf_child σ entry = true ∧ dot_free entry.1 = true) →
  σ !! value' = Some v' →
  getPath σ (S fuel) schema [] visited = (Return paths, visited') →
  Js.get (key +:+ "." +:+ sub) paths = Some (physical_path [key] sub v') ∧
  (∀ x, dot_free x = true → (∀ entry, entry ∈ after → entry.1 ≠ x) →
        Js.get x paths = Js.get x paths1).
Proof.
  intros Hfuel Hshape Hnd Hseen Hafter Hv Hbefore Hfresh Hshape' Hnd1
    Hleaves Hv' Hget.
  assert (instanceof_ZodObject σ target = true) as Hobj
    by (apply instanceof_ZodObject_shape; eauto).
  assert (throwing σ value = false) as Hthrow
    by (unfold throwing; by rewrite Hv).
  assert (composite_child σ value = Some target) as Hchild.
  { unfold composite_child, composite. rewrite Hv. simpl. by rewrite Hobj. }
  assert (merge_of σ value key = merge_lazy_object key) as Hmerge.
  { unfold merge_of. rewrite Hv. by rewrite Hobj. }
  rewrite (getPath_unfold σ fuel schema _ [] visited Hshape Hseen) in Hget.
  apply for_ofM_Return_inv in Hget
    as (paths1' & visited1' & paths2 & visited2 & H1 & H2 & H3).
  rewrite Hbefore in H1. injection H1 as <- <-.
  rewrite getPath_loop_leaves in H3 by (intros e He; by apply Hafter).
  injection H3 as <- _.
  assert (∀ x, (∀ entry, entry ∈ after → entry.1 ≠ x) →
               ∀ p, Js.get x (leaf_paths σ [] after p) = Js.get x p) as Hframe.
  { intros x Hx p. apply leaf_paths_frame. intros entry v0 Hentry _.
    rewrite leaf_key_root. by apply Hx. }
  assert (is_Some (σ !! schema)) as Hsome.
  { apply instanceof_ZodObject_is_Some, instanceof_ZodObject_shape. eauto. }
  apply lookup_lt_is_Some in Hsome.
  rewrite getPath_entry_eq, Hv, Hthrow, Hchild, Hmerge in H2. simpl in H2.
  destruct fuel as [|fuel']; [lia|].
  assert (getPath_nested (getPath σ (S fuel')) target [key]
            (merge_lazy_object key) paths1 visited1 =
          (Return (forEach (leaf_paths σ [key]
                              (before' ++ (sub, value') :: after') [])
                     paths1 (merge_lazy_object key)), target :: visited1))
    as Hnested.
  { rewrite getPath_nested_eq, bool_decide_eq_false_2 by done.
    rewrite (getPath_unfold σ fuel' target _ [key] visited1 Hshape' Hfresh).
    by rewrite getPath_loop_leaves by (intros e He; by apply Hleaves). }
  rewrite (try_catch_Return _ _ _ _ _ Hnested) in H2. injection H2 as <- _.
  clear Hnested.
  assert (∀ acc nk np x,
             Js.get x (merge_lazy_object key acc (nk, np)) =
               if String.eqb (short_key key nk) x then Some np
               else Js.get x acc) as Hwrite.
  { intros acc nk np x. unfold merge_lazy_object. apply get_set. }
  assert (dot_free sub = true) as Hsub.
  { apply (Hleaves (sub, value')). apply elem_of_app. right.
    apply list_elem_of_here. }
  split.
  - rewrite Hframe by (intros entry Hentry; apply dotted_ne; by apply Hafter).
    apply (forEach_hit _
             (λ e, String.eqb (short_key key e.1) (key +:+ "." +:+ sub)) snd).
    + intros acc [nk np]. apply Hwrite.
    + exists (leaf_key [key] sub v', physical_path [key] sub v'). split.
      * apply get_In. apply leaf_paths_lookup; [done|].
        intros entry v0 Hentry Hv0 Heq.
        assert (entry.1 ≠ sub) as Hne.
        { intros Hsame. rewrite fmap_app, fmap_cons in Hnd1. simpl in Hnd1.
          apply NoDup_app in Hnd1 as (_ & _ & Hnd1).
          apply NoDup_cons in Hnd1 as [Hnd1 _]. apply Hnd1. rewrite <- Hsame.
          apply list_elem_of_fmap. by exists entry. }
        assert (dot_free entry.1 = true) as Hdot.
        { apply Hleaves. apply elem_of_app. right.
          by apply list_elem_of_further. }
        destruct (leaf_key_nested key entry.1 v0) as [H0|H0];
          destruct (leaf_key_nested key sub v') as [H1|H1];
          rewrite H0, H1 in Heq.
        -- done.
        -- by apply dotted_ne in Heq.
        -- symmetry in Heq. by apply dotted_ne in Heq.
        -- by apply dotted_inj in Heq.
      * simpl. rewrite short_key_leaf_key by done. by rewrite String.eqb_refl.
    + intros [nk np] Hin Hhit. simpl in *.
      apply leaf_paths_entries in Hin
        as [Hin|(k & val & v0 & Hk & Hv0 & -> & ->)];
        [by apply elem_of_nil in Hin|].
      assert (dot_free k = true) as Hdot by (by apply (Hleaves (k, val))).
      rewrite short_key_leaf_key in Hhit by done.
      apply String.eqb_eq, dotted_inj in Hhit. subst k.
      assert (val = value') as ->; [|congruence].
      eapply (NoDup_fst_inj _ sub); [exact Hnd1 | done |].
      apply elem_of_app. right. apply list_elem_of_here.
  - intros x Hx Hsiblings. rewrite Hframe by done.
    unfold forEach.
    generalize (leaf_paths σ [key] (before' ++ (sub, value') :: after') []).
    intros nested.
    induction nested as [|[nk np] nested IH] using rev_ind; [done|].
    rewrite foldl_app. cbn [foldl]. rewrite Hwrite.
    destruct (String.eqb_spec (short_key key nk) x) as [Heq|_]; [|exact IH].
    unfold short_key in Heq. symmetry in Heq. by apply dotted_ne in Heq.
Qed.

Lemma getPath_deferred_object_child_witness :
  Js.get "owner.mail"
    [("id", "id"); ("owner.name", "owner.name"); ("owner.mail", "owner.email")] =
    Some "owner.email" ∧
  Js.get "name"
    [("id", "id"); ("owner.name", "owner.name"); ("owner.mail", "owner.email")] =
    Js.get "name" [("id", "id")].
Proof.
  destruct (getPath_deferred_object_child deferred_owner 5 4 [("id", 0)] []
              "owner" 3 2 None false []
              [("id", "id"); ("owner.name", "owner.name");
               ("owner.mail", "owner.email")]
              [2; 4] [("id", "id")] [4] [("name", 0)] [] "mail" 1
              (set_path ["email"] z_leaf))
    as [Hshort Hbare].
  - apply le_n.
  - reflexivity.
  - apply (bool_decide_unpack _). exact I.
  - apply not_elem_of_nil.
  - intros entry Hentry. by apply elem_of_nil in Hentry.
  - reflexivity.
  - reflexivity.
  - apply (bool_decide_unpack _). exact I.
  - reflexivity.
  - apply (bool_decide_unpack _). exact I.
  - intros entry Hentry.
    repeat (apply elem_of_cons in Hentry as [->|Hentry]; [by split|]).
    by apply elem_of_nil in Hentry.
  - reflexivity.
  - reflexivity.
  - split; [exact Hshort|]. apply Hbare; [reflexivity|].
    intros entry Hentry. by apply elem_of_nil in Hentry.
Defined.

(** ** Leaves under a parent key, in the path index *)

Section getPath_parent_facts.

Lemma append_assoc (s t u : string) : (s +:+ t) +:+ u = s +:+ (t +:+ u).
Proof.
  induction s as [|a s IH]; [done|]. by rewrite !append_cons, IH.
Qed.

Lemma join_snoc (parentKey : list string) (key : string) :
  parentKey ≠ [] →
  Js.join (parentKey ++ [key]) = Js.join parentKey +:+ "." +:+ key.
Proof.
  induction parentKey as [|s [|s' rest] IH]; [done| |]; intros _.
  - reflexivity.
  - change (Js.join ((s :: s' :: rest) ++ [key]))
      with (s +:+ "." +:+ Js.join ((s' :: rest) ++ [key])).
    rewrite IH by done.
    change (Js.join (s :: s' :: rest)) with (s +:+ "." +:+ Js.join (s' :: rest)).
    by rewrite !append_assoc.
Qed.

(** Two leaves of one object are recorded under different names. *)
Lemma leaf_key_inj (parentKey : list string) (k k' : string) (v v0 : ZodType) :
  dot_free k = true → dot_free k' = true →
  leaf_key parentKey k v = leaf_key parentKey k' v0 → k = k'.
Proof.
  intros Hk Hk'. unfold leaf_key.
  destruct parentKey as [|s rest].
  - simpl. by destruct (extended v && isPath v), (extended v0 && isPath v0).
  - rewrite !join_snoc by done.
    destruct (extended v && isPath v), (extended v0 && isPath v0); intros Heq.
    + by apply dotted_inj in Heq.
    + symmetry in Heq. by apply dotted_ne in Heq.
    + by apply dotted_ne in Heq.
    + done.
Qed.
End getPath_parent_facts.

(** X23: the leaves of an object under a parent key.  For an object
    whose children are all leaves with distinct keys without dots,
    [getPath(schema, parentKey)] records each leaf once, and nothing else:
    a leaf without path alias under its bare key [key] (not under the
    dotted key), with the path [parentKey.key]; a leaf with a path alias
    under the dotted key [parentKey.key], with the path made of the parent
    key and the segments of the alias.  Only the schema is added to the
    visited set. *)
Theorem getPath_leaves (σ : heap) (fuel : nat) (schema : ref)
    (before after : list (string * ref)) (key : string) (value : ref)
    (v : ZodType) (parentKey : list string) (visited : WeakSet)
    (paths : list (string * string)) (visited' : WeakSet) :
  shape_entries σ schema = Return (before ++ (key, value) :: after)%list →
  NoDup ((before ++ (key, value) :: after)%list.*1) →
  schema ∉ visited →
  (∀ entry, entry ∈ (before ++ (key, value) :: after)%list →
            leaf_child σ entry = true ∧ dot_free entry.1 = true) →
  σ !! value = Some v →
  getPath σ (S fuel) schema parentKey visited = (Return paths, visited') →
  Js.get (if extended v && isPath v then Js.join (parentKey ++ [key]) else key)
    paths =
    Some (Js.join (parentKey ++
                   if extended v && isPath v
                   then default [] (description_path v) else [key])) ∧
  (∀ x np, (x, np) ∈ paths →
     ∃ k val v0, (k, val) ∈ (before ++ (key, value) :: after)%list ∧
                 σ !! val = Some v0 ∧ x = leaf_key parentKey k v0 ∧
                 np = physical_path parentKey k v0) ∧
  visited' = schema :: visited.
Proof.
  intros Hshape Hnd Hseen Hleaves Hv Hget.
  rewrite (getPath_unfold σ fuel schema _ parentKey visited Hshape Hseen) in Hget.
  rewrite getPath_loop_leaves in Hget by (intros e He; by apply Hleaves).
  injection Hget as <- <-. split; [|split; [|done]].
  - assert (dot_free key = true) as Hkey.
    { apply (Hleaves (key, value)). apply elem_of_app. right.
      apply list_elem_of_here. }
    pose proof (leaf_paths_lookup σ parentKey before key value after v [] Hv)
      as Hlookup.
    unfold leaf_key, physical_path in Hlookup.
    destruct (extended v && isPath v) eqn:Hpath; apply Hlookup;
      intros entry v0 Hentry Hv0 Heq;
      (assert (dot_free entry.1 = true) as Hdot
         by (apply Hleaves; apply elem_of_app; right;
             by apply list_elem_of_further));
      (assert (entry.1 = key) as Hsame
         by (apply (leaf_key_inj parentKey entry.1 key v0 v Hdot Hkey);
             unfold leaf_key at 2; by rewrite Hpath));
      rewrite fmap_app, fmap_cons in Hnd; simpl in Hnd;
      apply NoDup_app in Hnd as (_ & _ & Hnd);
      apply NoDup_cons in Hnd as [Hnd _]; apply Hnd; rewrite <- Hsame;
      apply list_elem_of_fmap; by exists entry.
  - intros x np Hin.
    apply leaf_paths_entries in Hin as [Hin|Hin];
      [by apply elem_of_nil in Hin | done].
Qed.

Lemma getPath_leaves_witness :
  Js.get "bio" [("bio", "profile.bio"); ("profile.mail", "profile.email")] =
    Some "profile.bio" ∧
  Js.get "profile.mail"
    [("bio", "profile.bio"); ("profile.mail", "profile.email")] =
    Some "profile.email".
Proof.
  assert (NoDup ([("bio", 0); ("mail", 2)].*1)) as Hnd
    by (apply (bool_decide_unpack _); exact I).
  assert (∀ entry, entry ∈ [("bio", 0); ("mail", 2)] →
                   leaf_child profile_first entry = true ∧
                   dot_free entry.1 = true) as Hleaves.
  { intros entry Hentry.
    repeat (apply elem_of_cons in Hentry as [->|Hentry]; [by split|]).
    by apply elem_of_nil in Hentry. }
  split.
  - exact (proj1 (getPath_leaves profile_first 0 3 [] [("mail", 2)] "bio" 0 _
                    ["profile"] [] _ _ eq_refl Hnd (not_elem_of_nil 3) Hleaves
                    eq_refl eq_refl)).
  - exact (proj1 (getPath_leaves profile_first 0 3 [("bio", 0)] [] "mail" 2 _
                    ["profile"] [] _ _ eq_refl Hnd (not_elem_of_nil 3) Hleaves
                    eq_refl eq_refl)).
Defined.
